(** * RepRech/server.py: ingestion pipeline and query paging

    A shallow embedding of the report-ingestion server.

    - A Python [str] is a sequence of Unicode code points: [list N].
    - A candidate record is the dict that [parse_fixed_width_line] builds,
      read through [get].
    - The SQLite table [rows] is a finite map from the primary key [id] to
      the other columns.  A connection works on a pending transaction that
      [commit] makes visible and [close] drops; every storage operation may
      fail.  Texts are stored as they are given.
    - An exception is a value: functions that can raise return a [result],
      database code runs in the state-and-exception monad [DB].
    - [unicodedata] and [str.lower] are an interface ([Unicodedata]); its
      Latin-1 part is given in [Latin1] and runs the examples.
    - The WHERE clause and the ordering of [api_rows] are SQLite's: the
      function takes the ordered result of the filtered query. *)

From Stdlib Require Import ZArith NArith Strings.Ascii Strings.String Strings.Byte.
From stdpp Require Import gmap list fin_maps.

Open Scope Z_scope.

(** ** Python strings *)

Abbreviation str := (list N).

(** An ASCII literal of the source, as code points. *)
Definition lit (s : string) : str := map N_of_ascii (list_ascii_of_string s).

(** [len(s)] *)
Definition len (s : str) : Z := Z.of_nat (length s).

(** [str.isspace] for one code point (CPython's whitespace table). *)
Definition isspace (c : N) : bool :=
  ((9 <=? c) && (c <=? 13) || (28 <=? c) && (c <=? 32)
   || (c =? 0x85) || (c =? 0xA0) || (c =? 0x1680)
   || (0x2000 <=? c) && (c <=? 0x200A)
   || (c =? 0x2028) || (c =? 0x2029) || (c =? 0x202F)
   || (c =? 0x205F) || (c =? 0x3000))%N.

Fixpoint lstrip (s : str) : str :=
  match s with
  | c :: t => if isspace c then lstrip t else s
  | [] => []
  end.

Definition rstrip (s : str) : str := rev (lstrip (rev s)).

(** [s.strip()] *)
Definition strip (s : str) : str := rstrip (lstrip s).

(** [s.startswith(prefix)] *)
Fixpoint startswith (s prefix : str) {struct prefix} : bool :=
  match prefix, s with
  | [], _ => true
  | p :: ps, c :: cs => (c =? p)%N && startswith cs ps
  | _ :: _, [] => false
  end.

Fixpoint find_nat (s sub : str) : option nat :=
  if startswith s sub then Some 0%nat
  else match s with
       | [] => None
       | _ :: t => S <$> find_nat t sub
       end.

(** [s.find(sub)]: lowest index of an occurrence, or [-1]. *)
Definition find (s sub : str) : Z :=
  match find_nat s sub with
  | Some i => Z.of_nat i
  | None => -1
  end.

(** [c in s] for a one-character literal [c]. *)
Definition contains (c : N) (s : str) : bool := existsb (N.eqb c) s.

(** Bound of a slice index: negative indices count from the end. *)
Definition slice_index (n i : Z) : Z :=
  if i <? 0 then Z.max 0 (i + n) else Z.min i n.

(** [s[start:stop]] *)
Definition slice (s : str) (start stop : Z) : str :=
  let a := slice_index (len s) start in
  let b := slice_index (len s) stop in
  take (Z.to_nat (b - a)) (drop (Z.to_nat a) s).

(** [sep.join(parts)] *)
Fixpoint join (sep : str) (parts : list str) : str :=
  match parts with
  | [] => []
  | p :: rest =>
      match rest with
      | [] => p
      | _ :: _ => p ++ sep ++ join sep rest
      end
  end.

(** [s.split(sep)] for a one-character separator. *)
Fixpoint split (sep : N) (s : str) : list str :=
  match s with
  | [] => [[]]
  | c :: t =>
      if (c =? sep)%N then [] :: split sep t
      else match split sep t with
           | p :: ps => (c :: p) :: ps
           | [] => [[c]]
           end
  end.

(** ** Exceptions *)

Inductive exc : Set :=
  | UnicodeEncodeError
  | IntegrityError
  | OperationalError.

Inductive result (A : Type) : Type :=
  | Ok (a : A)
  | Raise (e : exc).
Arguments Ok {A} a.
Arguments Raise {A} e.

Definition result_bind {A B} (r : result A) (k : A -> result B) : result B :=
  match r with
  | Ok a => k a
  | Raise e => Raise e
  end.

Notation "'try!' x <- r ; k" := (result_bind r (fun x => k))
  (at level 10, x pattern, r at level 100, k at level 200).

(** ** Codecs *)

(** [value.encode("latin-1")]: [None] stands for [UnicodeEncodeError]. *)
Fixpoint encode_latin1 (value : str) : option (list byte) :=
  match value with
  | [] => Some []
  | c :: t =>
      match Byte.of_N c, encode_latin1 t with
      | Some b, Some bs => Some (b :: bs)
      | _, _ => None
      end
  end.

Definition continuation (b : N) : bool := ((0x80 <=? b) && (b <=? 0xBF))%N.

(** Strict UTF-8 decoding of byte values; [None] stands for
    [UnicodeDecodeError]. *)
Fixpoint decode_utf8_N (bs : list N) : option str :=
  match bs with
  | [] => Some []
  | b0 :: r0 =>
      if (b0 <? 0x80)%N then cons b0 <$> decode_utf8_N r0
      else if ((0xC2 <=? b0) && (b0 <=? 0xDF))%N then
        match r0 with
        | b1 :: r1 =>
            if continuation b1
            then cons ((b0 - 0xC0) * 64 + (b1 - 0x80))%N <$> decode_utf8_N r1
            else None
        | _ => None
        end
      else if ((0xE0 <=? b0) && (b0 <=? 0xEF))%N then
        match r0 with
        | b1 :: b2 :: r2 =>
            if ((if b0 =? 0xE0 then 0xA0 else 0x80) <=? b1)%N
               && (b1 <=? (if b0 =? 0xED then 0x9F else 0xBF))%N
               && continuation b2
            then cons ((b0 - 0xE0) * 4096 + (b1 - 0x80) * 64 + (b2 - 0x80))%N
                   <$> decode_utf8_N r2
            else None
        | _ => None
        end
      else if ((0xF0 <=? b0) && (b0 <=? 0xF4))%N then
        match r0 with
        | b1 :: b2 :: b3 :: r3 =>
            if ((if b0 =? 0xF0 then 0x90 else 0x80) <=? b1)%N
               && (b1 <=? (if b0 =? 0xF4 then 0x8F else 0xBF))%N
               && continuation b2 && continuation b3
            then cons ((b0 - 0xF0) * 262144 + (b1 - 0x80) * 4096
                       + (b2 - 0x80) * 64 + (b3 - 0x80))%N
                   <$> decode_utf8_N r3
            else None
        | _ => None
        end
      else None
  end.

(** [bs.decode("utf-8")] *)
Definition decode_utf8 (bs : list byte) : option str :=
  decode_utf8_N (map Byte.to_N bs).

(** ** Constants of the module *)

Inductive column : Set :=
  | EmpRUC | EmpRazonSocial | EmpNom | RepFecha
  | RepLiqEstadoConsulta | RepDetalleRechazo.

Definition COLUMNS : list column :=
  [EmpRUC; EmpRazonSocial; EmpNom; RepFecha; RepLiqEstadoConsulta;
   RepDetalleRechazo].

(** The label of a column, as it is written in [COLUMNS]. *)
Definition label (c : column) : str :=
  match c with
  | EmpRUC => lit "EmpRUC"
  | EmpRazonSocial => lit "EmpRazonSocial"
  | EmpNom => lit "EmpNom"
  | RepFecha => lit "RepFecha"
  | RepLiqEstadoConsulta => lit "RepLiqEstadoConsulta"
  | RepDetalleRechazo => lit "RepDetalleRechazo"
  end.

Definition FALLBACK_POSITIONS : list Z := [0; 12; 124; 165; 189; 209].

Definition IGNORED_DETAIL_PREFIXES_RAW : list str :=
  [lit "En la fecha de resumen del reporte la condici" ++ [0xF3%N]
   ++ lit "n de emisor electr" ++ [0xF3%N] ++ lit "nico no estaba vigente"].

(** ** fix_text *)

(** The three marker literals of the source are all the question mark. *)
Definition marker : N := 63%N.

Definition fix_text (value : option str) : result str :=
  match value with
  | None => Ok []
  | Some [] => Ok []
  | Some value =>
      if contains marker value || contains marker value || contains marker value
      then match encode_latin1 value with
           | None => Raise UnicodeEncodeError
           | Some bs =>
               match decode_utf8 bs with
               | Some repaired => Ok repaired
               | None => Ok value
               end
           end
      else Ok value
  end.

(** ** A candidate record

    A parsed record is a dict over the six column labels; a field is [None]
    when the key is missing or its value is [None] (the code reads fields only
    through [record.get(column, "")] followed by [fix_text] or [or ""], which
    do not tell the two apart from the empty string). *)

Record record : Type := mkRecord {
  rEmpRUC : option str;
  rEmpRazonSocial : option str;
  rEmpNom : option str;
  rRepFecha : option str;
  rRepLiqEstadoConsulta : option str;
  rRepDetalleRechazo : option str
}.

(** [record.get(column)] *)
Definition get (r : record) (c : column) : option str :=
  match c with
  | EmpRUC => rEmpRUC r
  | EmpRazonSocial => rEmpRazonSocial r
  | EmpNom => rEmpNom r
  | RepFecha => rRepFecha r
  | RepLiqEstadoConsulta => rRepLiqEstadoConsulta r
  | RepDetalleRechazo => rRepDetalleRechazo r
  end.

(** ** detect_column_positions *)

Fixpoint detect_loop (header_line : str) (labels : list column)
    (positions : list Z) : list Z :=
  match labels with
  | [] => positions
  | l :: rest =>
      let index := find header_line (label l) in
      if index <? 0 then FALLBACK_POSITIONS
      else detect_loop header_line rest (positions ++ [index])
  end.

Definition detect_column_positions (header_line : str) : list Z :=
  detect_loop header_line COLUMNS [].

(** ** parse_fixed_width_line *)

Fixpoint field_values (line : str) (positions : list Z) : result (list str) :=
  match positions with
  | [] => Ok []
  | start :: rest =>
      let end_ := match rest with
                  | next :: _ => next
                  | [] => len line
                  end in
      let slice_value := if start >=? len line then [] else slice line start end_ in
      try! v <- fix_text (Some (strip slice_value));
      try! vs <- field_values line rest;
      Ok (v :: vs)
  end.

Definition parse_fixed_width_line (line : str) (positions : list Z)
    : result (option record) :=
  try! values <- field_values line positions;
  match values with
  | [] => Ok None
  | [] :: _ => Ok None
  | _ =>
      let value idx := Some (nth idx values []) in
      Ok (Some (mkRecord (value 0%nat) (value 1%nat) (value 2%nat)
                         (value 3%nat) (value 4%nat) (value 5%nat)))
  end.

(** ** build_key *)

Definition build_key (r : record) : str :=
  join (lit "||") (map (fun c => strip (default [] (get r c))) COLUMNS).

(** ** chunked *)

(** [range(0, n, size)] *)
Definition range_step (n size : nat) : list nat :=
  map (fun i => (i * size)%nat) (seq 0 (Nat.div (n + size - 1) size)).

Definition chunked {A} (sequence : list A) (size : nat) : list (list A) :=
  map (fun index => take size (drop index sequence))
      (range_step (length sequence) size).

(** ** extract_date *)

Definition dash : N := 45%N.

Definition extract_date (rep_fecha : option str) : option str :=
  match rep_fecha with
  | None => None
  | Some [] => None
  | Some rep_fecha =>
      let candidate := take 10 (strip rep_fecha) in
      if negb (length candidate =? 10)%nat then None
      else match split dash candidate with
           | [year; month; day] =>
               if negb (length year =? 4)%nat then None else Some candidate
           | _ => None
           end
  end.

(** ** normalize_detail

    [unicodedata.normalize], [unicodedata.category] and [str.lower] belong to
    the Python runtime, not to this program: they are an interface here. *)

Class Unicodedata := {
  normalize_NFD : str -> str;
  category_Mn : N -> bool;
  lower : str -> str
}.

Section Normalize.
Context `{Unicodedata}.

Definition normalize_detail (text : str) : str :=
  match text with
  | [] => []
  | _ =>
      let normalized := normalize_NFD text in
      let stripped := List.filter (fun ch => negb (category_Mn ch)) normalized in
      strip (lower stripped)
  end.

Definition IGNORED_DETAIL_PREFIXES : list str :=
  map normalize_detail IGNORED_DETAIL_PREFIXES_RAW.

(** [any(detail_normalized.startswith(prefix) for prefix in ...)] *)
Definition ignorable (detail_normalized : str) : bool :=
  existsb (startswith detail_normalized) IGNORED_DETAIL_PREFIXES.

End Normalize.

(** ** The table [rows]

    One stored row without its primary key [id], which is the key of the map.
    TEXT columns may be NULL.  The [sources] column holds a JSON list of
    strings written by [json.dumps] and read back by [json.loads]; it is kept
    decoded, and [None] stands for NULL or the empty text. *)

Record row : Type := mkRow {
  row_EmpRUC : option str;
  row_EmpRazonSocial : option str;
  row_EmpNom : option str;
  row_RepFecha : option str;
  row_RepFechaDate : option str;
  row_RepLiqEstadoConsulta : option str;
  row_RepDetalleRechazo : option str;
  row_detail_normalized : option str;
  row_resolved : Z;
  row_sources : option (list str);
  row_created_at : Z
}.

Definition set_sources (sources : list str) (r : row) : row :=
  mkRow (row_EmpRUC r) (row_EmpRazonSocial r) (row_EmpNom r) (row_RepFecha r)
        (row_RepFechaDate r) (row_RepLiqEstadoConsulta r)
        (row_RepDetalleRechazo r) (row_detail_normalized r) (row_resolved r)
        (Some sources) (row_created_at r).

(** ** The database

    [committed] is what every connection sees once the current one is closed;
    [txn] is the pending transaction of the open connection (sqlite3 opens it
    implicitly before the first INSERT or UPDATE); [faults] tells, for each
    coming storage operation, whether it fails. *)

Record db : Type := mkDb {
  committed : gmap str row;
  txn : option (gmap str row);
  faults : list bool
}.

Definition DB (A : Type) : Type := db -> result A * db.

Definition ret {A} (a : A) : DB A := fun s => (Ok a, s).

Definition throw {A} (e : exc) : DB A := fun s => (Raise e, s).

Definition bind {A B} (c : DB A) (k : A -> DB B) : DB B :=
  fun s =>
    match c s with
    | (Ok a, s1) => k a s1
    | (Raise e, s1) => (Raise e, s1)
    end.

Notation "'db!' x <- c ; k" := (bind c (fun x => k))
  (at level 10, x pattern, c at level 100, k at level 200).
Notation "c ;;; k" := (bind c (fun _ => k))
  (at level 100, k at level 200, right associativity).

(** [try: body finally: fin] *)
Definition try_finally {A} (body : DB A) (fin : DB unit) : DB A :=
  fun s =>
    match body s with
    | (r, s1) =>
        match fin s1 with
        | (Ok _, s2) => (r, s2)
        | (Raise e, s2) => (Raise e, s2)
        end
    end.

(** The rows as the open connection sees them. *)
Definition view (s : db) : gmap str row := default (committed s) (txn s).

(** One access to the storage. *)
Definition io : DB unit :=
  fun s =>
    match faults s with
    | true :: fs => (Raise OperationalError, mkDb (committed s) (txn s) fs)
    | false :: fs => (Ok tt, mkDb (committed s) (txn s) fs)
    | [] => (Ok tt, s)
    end.

Definition write (t : gmap str row) : DB unit :=
  fun s => (Ok tt, mkDb (committed s) (Some t) (faults s)).

(** [sqlite3.connect(DB_PATH)] *)
Definition get_connection : DB unit :=
  io ;;; fun s => (Ok tt, mkDb (committed s) None (faults s)).

(** [SELECT id, sources FROM rows WHERE id IN (chunk)] *)
Definition execute_select (chunk : list str)
    : DB (list (str * option (list str))) :=
  io ;;; fun s =>
    (Ok (omap (fun k => (fun r => (k, row_sources r)) <$> view s !! k)
              (remove_dups chunk)), s).

(** [UPDATE rows SET sources = ? WHERE id = ?] *)
Definition execute_update (sources : list str) (key : str) : DB unit :=
  io ;;; fun s => write (alter (set_sources sources) key (view s)) s.

(** [INSERT INTO rows (...) VALUES (...)] for one row; [id] is the primary
    key. *)
Definition execute_insert (key : str) (r : row) : DB unit :=
  io ;;; fun s =>
    match view s !! key with
    | Some _ => (Raise IntegrityError, s)
    | None => write (<[key := r]> (view s)) s
    end.

Fixpoint executemany_insert (inserts : list (str * row)) : DB unit :=
  match inserts with
  | [] => ret tt
  | (key, r) :: rest => execute_insert key r ;;; executemany_insert rest
  end.

(** [conn.commit()] *)
Definition commit : DB unit :=
  io ;;; fun s => (Ok tt, mkDb (view s) None (faults s)).

(** [conn.close()]: a pending transaction is rolled back. *)
Definition close : DB unit :=
  fun s => (Ok tt, mkDb (committed s) None (faults s)).

(** ** insert_records *)

Section Ingestion.
Context `{Unicodedata}.

(** [{column: fix_text(record.get(column, "")) for column in COLUMNS}] with
    [record["RepDetalleRechazo"] = detail]. *)
Definition repair_record (r : record) (detail : str) : result record :=
  try! a <- fix_text (get r EmpRUC);
  try! b <- fix_text (get r EmpRazonSocial);
  try! c <- fix_text (get r EmpNom);
  try! d <- fix_text (get r RepFecha);
  try! e <- fix_text (get r RepLiqEstadoConsulta);
  try! _ <- fix_text (get r RepDetalleRechazo);
  Ok (mkRecord (Some a) (Some b) (Some c) (Some d) (Some e) (Some detail)).

(** The first loop: repaired record, key and normalized detail of every
    record that is kept, and the number of ignored ones. *)
Fixpoint prepare (records : list record)
    : result (list (record * str * str) * nat) :=
  match records with
  | [] => Ok ([], 0%nat)
  | r :: rest =>
      try! detail <- fix_text (get r RepDetalleRechazo);
      try! record <- repair_record r detail;
      let detail_normalized := normalize_detail detail in
      if ignorable detail_normalized
      then try! (prepared, ignored) <- prepare rest;
           Ok (prepared, S ignored)
      else
        let key := build_key record in
        match key with
        | [] => prepare rest
        | _ :: _ =>
            try! (prepared, ignored) <- prepare rest;
            Ok ((record, key, detail_normalized) :: prepared, ignored)
        end
  end.

Fixpoint fetch_existing (chunks : list (list str))
    (existing : gmap str (option (list str)))
    : DB (gmap str (option (list str))) :=
  match chunks with
  | [] => ret existing
  | chunk :: rest =>
      db! rows <- execute_select chunk;
      fetch_existing rest
        (foldl (fun ex '(id, sources) => <[id := sources]> ex) existing rows)
  end.

(** The tuple appended to [inserts]; [resolved] takes the column default. *)
Definition new_row (record : record) (detail_normalized source : str)
    (created_at : Z) : row :=
  mkRow (Some (default [] (get record EmpRUC)))
        (Some (default [] (get record EmpRazonSocial)))
        (Some (default [] (get record EmpNom)))
        (Some (default [] (get record RepFecha)))
        (extract_date (get record RepFecha))
        (Some (default [] (get record RepLiqEstadoConsulta)))
        (Some (default [] (get record RepDetalleRechazo)))
        (Some detail_normalized)
        0
        (Some [source])
        created_at.

(** The second loop, from position [index] of [prepared] on: the numbers of
    added and duplicate records and the rows to insert. *)
Fixpoint merge_loop (existing : gmap str (option (list str))) (source : str)
    (now : Z) (index : nat) (prepared : list (record * str * str))
    : DB (nat * nat * list (str * row)) :=
  match prepared with
  | [] => ret (0%nat, 0%nat, [])
  | (record, key, detail_normalized) :: rest =>
      match existing !! key with
      | Some sources_raw =>
          let sources := default [] sources_raw in
          (if bool_decide (source ∈ sources) then ret tt
           else execute_update (sources ++ [source]) key) ;;;
          db! (added, duplicates, inserts) <-
             merge_loop existing source now (S index) rest;
          ret (added, S duplicates, inserts)
      | None =>
          let r := new_row record detail_normalized source
                     (now + Z.of_nat index) in
          db! (added, duplicates, inserts) <-
             merge_loop existing source now (S index) rest;
          ret (S added, duplicates, (key, r) :: inserts)
      end
  end.

(** The body of the [try] block. *)
Definition merge (prepared : list (record * str * str)) (source : str)
    (now : Z) : DB (nat * nat) :=
  db! existing <-
    fetch_existing (chunked (map (fun p => p.1.2) prepared) 500) ∅;
  db! (added, duplicates, inserts) <-
    merge_loop existing source now 0 prepared;
  (match inserts with
   | [] => ret tt
   | _ :: _ => executemany_insert inserts
   end) ;;;
  commit ;;;
  ret (added, duplicates).

Definition insert_records (records : list record) (source : str) (now : Z)
    : DB (nat * nat * nat) :=
  match records with
  | [] => ret (0%nat, 0%nat, 0%nat)
  | _ :: _ =>
      match prepare records with
      | Raise e => throw e
      | Ok (prepared, ignored) =>
          match prepared with
          | [] => ret (0%nat, 0%nat, ignored)
          | _ :: _ =>
              get_connection ;;;
              db! (added, duplicates) <-
                try_finally (merge prepared source now) close;
              ret (added, duplicates, ignored)
          end
      end
  end.

End Ingestion.

(** ** unicodedata on Latin-1

    The Unicode tables restricted to U+0000..U+00FF, where they are small:
    canonical decomposition of the accented letters, the combining marks
    U+0300..U+036F they decompose to, and simple lower-casing.  It runs the
    program on concrete Latin-1 inputs. *)

Module Latin1.

Definition base_mark (c : N) : option (N * N) :=
  let up (b : N) (m : N) := Some (b, m) in
  match c with
  | 0xC0 => up 65 0x300 | 0xC1 => up 65 0x301 | 0xC2 => up 65 0x302
  | 0xC3 => up 65 0x303 | 0xC4 => up 65 0x308 | 0xC5 => up 65 0x30A
  | 0xC7 => up 67 0x327
  | 0xC8 => up 69 0x300 | 0xC9 => up 69 0x301 | 0xCA => up 69 0x302
  | 0xCB => up 69 0x308
  | 0xCC => up 73 0x300 | 0xCD => up 73 0x301 | 0xCE => up 73 0x302
  | 0xCF => up 73 0x308
  | 0xD1 => up 78 0x303
  | 0xD2 => up 79 0x300 | 0xD3 => up 79 0x301 | 0xD4 => up 79 0x302
  | 0xD5 => up 79 0x303 | 0xD6 => up 79 0x308
  | 0xD9 => up 85 0x300 | 0xDA => up 85 0x301 | 0xDB => up 85 0x302
  | 0xDC => up 85 0x308
  | 0xDD => up 89 0x301
  | 0xE0 => up 97 0x300 | 0xE1 => up 97 0x301 | 0xE2 => up 97 0x302
  | 0xE3 => up 97 0x303 | 0xE4 => up 97 0x308 | 0xE5 => up 97 0x30A
  | 0xE7 => up 99 0x327
  | 0xE8 => up 101 0x300 | 0xE9 => up 101 0x301 | 0xEA => up 101 0x302
  | 0xEB => up 101 0x308
  | 0xEC => up 105 0x300 | 0xED => up 105 0x301 | 0xEE => up 105 0x302
  | 0xEF => up 105 0x308
  | 0xF1 => up 110 0x303
  | 0xF2 => up 111 0x300 | 0xF3 => up 111 0x301 | 0xF4 => up 111 0x302
  | 0xF5 => up 111 0x303 | 0xF6 => up 111 0x308
  | 0xF9 => up 117 0x300 | 0xFA => up 117 0x301 | 0xFB => up 117 0x302
  | 0xFC => up 117 0x308
  | 0xFD => up 121 0x301 | 0xFF => up 121 0x308
  | _ => None
  end%N.

Definition nfd (s : str) : str :=
  flat_map (fun c => match base_mark c with
                     | Some (b, m) => [b; m]
                     | None => [c]
                     end) s.

Definition is_Mn (c : N) : bool := ((0x300 <=? c) && (c <=? 0x36F))%N.

Definition lower_char (c : N) : N :=
  if ((65 <=? c) && (c <=? 90)
      || (0xC0 <=? c) && (c <=? 0xDE) && negb (c =? 0xD7))%N
  then (c + 32)%N else c.

#[export] Instance unicodedata : Unicodedata :=
  {| normalize_NFD := nfd; category_Mn := is_Mn; lower := map lower_char |}.

End Latin1.

(** ** api_rows *)

(** A query-string parameter handed to [int]: missing, not an integer
    literal ([ValueError]), or an integer. *)
Inductive param : Set :=
  | Absent
  | Malformed
  | Int (n : Z).

#[global] Instance param_eq_dec : EqDecision param.
Proof. solve_decision. Defined.

(** [int(p) if p is not None else d], with [d] on [ValueError]. *)
Definition int_param (p : param) (d : Z) : Z :=
  match p with
  | Int n => n
  | Absent | Malformed => d
  end.

(** [math.ceil(total / page_size)] for a row count and a positive page size
    (the float quotient of a row count below 2^53 by at most 200 rounds to no
    integer it is not equal to, so the ceiling is the exact one). *)
Definition ceil_div (total page_size : Z) : Z :=
  (total + page_size - 1) / page_size.

Record payload_row : Type := mkPayloadRow {
  p_id : str;
  p_EmpRUC : str;
  p_EmpRazonSocial : str;
  p_EmpNom : str;
  p_RepFecha : str;
  p_RepLiqEstadoConsulta : str;
  p_RepDetalleRechazo : str;
  p_resolved : bool;
  p_sources : list str;
  p_rep_date : option str
}.

Fixpoint map_result {A B} (f : A -> result B) (l : list A) : result (list B) :=
  match l with
  | [] => Ok []
  | x :: rest =>
      try! y <- f x;
      try! ys <- map_result f rest;
      Ok (y :: ys)
  end.

(** One element of [payload["rows"]]. *)
Definition serialize_row (entry : str * row) : result payload_row :=
  let '(id, r) := entry in
  try! a <- fix_text (row_EmpRUC r);
  try! b <- fix_text (row_EmpRazonSocial r);
  try! c <- fix_text (row_EmpNom r);
  try! d <- fix_text (row_RepFecha r);
  try! e <- fix_text (row_RepLiqEstadoConsulta r);
  try! f <- fix_text (row_RepDetalleRechazo r);
  try! sources <- map_result (fun source => fix_text (Some source))
                    (default [] (row_sources r));
  Ok (mkPayloadRow id a b c d e f (negb (row_resolved r =? 0)) sources
        (row_RepFechaDate r)).

(** The paging part of the payload; [count_all], [resolved_count] and
    [bounds] do not depend on the request and are left out. *)
Record payload : Type := mkPayload {
  rows : list payload_row;
  total : Z;
  page : Z;
  page_size : Z;
  total_pages : Z
}.

(** [matching] is the result of the filtered query in [ORDER BY created_at,
    id] order, before [LIMIT ? OFFSET ?] cuts the page out of it. *)
Definition api_rows (page_param page_size_param : param)
    (matching : list (str * row)) : result payload :=
  let page := int_param page_param 1 in
  let page := Z.max 1 page in
  let page_size := int_param page_size_param 20 in
  let page_size := Z.max 1 (Z.min page_size 200) in
  let total := Z.of_nat (length matching) in
  let total_pages :=
    if total =? 0 then 1 else Z.max 1 (ceil_div total page_size) in
  let page := if page >? total_pages then total_pages else page in
  let offset := (page - 1) * page_size in
  let selected := take (Z.to_nat page_size) (drop (Z.to_nat offset) matching) in
  try! rows <- map_result serialize_row selected;
  Ok (mkPayload rows total page page_size total_pages).

(** ** parse_rpt *)

(** A line boundary of [str.splitlines]. *)
Definition is_linebreak (c : N) : bool :=
  ((10 <=? c) && (c <=? 13) || (28 <=? c) && (c <=? 30)
   || (c =? 0x85) || (c =? 0x2028) || (c =? 0x2029))%N.

(** [splitlines] once [line] has been read since the last boundary. *)
Fixpoint splitlines_from (line : str) (s : str) : list str :=
  match s with
  | [] =>
      match line with
      | [] => []
      | _ :: _ => [line]
      end
  | c :: t =>
      if is_linebreak c
      then line ::
           match t with
           | c' :: t' =>
               if ((c =? 13) && (c' =? 10))%N then splitlines_from [] t'
               else splitlines_from [] t
           | [] => splitlines_from [] t
           end
      else splitlines_from (line ++ [c]) t
  end.

(** [content.splitlines()] *)
Definition splitlines (content : str) : list str := splitlines_from [] content.

(** [raw_line.replace("\x00", "")] *)
Definition remove_nul (raw_line : str) : str :=
  List.filter (fun c => negb (c =? 0)%N) raw_line.

(** The loop of [parse_rpt] over the lines that are left, with the layout
    in force. *)
Fixpoint parse_lines (lines : list str) (column_positions : option (list Z))
    : result (list record) :=
  match lines with
  | [] => Ok []
  | raw_line :: rest =>
      let sanitized_line := remove_nul raw_line in
      let trimmed := strip sanitized_line in
      match trimmed with
      | [] => parse_lines rest column_positions
      | _ :: _ =>
          if startswith trimmed (lit "EmpRUC")
          then parse_lines rest
                 (Some (detect_column_positions sanitized_line))
          else if startswith trimmed (lit "---")
          then parse_lines rest column_positions
          else
            let column_positions :=
              match column_positions with
              | None => FALLBACK_POSITIONS
              | Some positions => positions
              end in
            try! parsed <- parse_fixed_width_line sanitized_line
                             column_positions;
            try! records <- parse_lines rest (Some column_positions);
            Ok (match parsed with
                | Some r => r :: records
                | None => records
                end)
      end
  end.

Definition parse_rpt (content : str) : result (list record) :=
  match content with
  | [] => Ok []
  | _ :: _ => parse_lines (splitlines content) None
  end.

(** ** Responses

    [abort(status)] ends a handler with an error response; it is a value of
    the handler here, after the [finally] clause has run. *)

Inductive response (A : Type) : Type :=
  | Json (a : A)
  | Abort (status : Z).
Arguments Json {A} a.
Arguments Abort {A} status.

(** ** api_toggle *)

Definition set_resolved (resolved : Z) (r : row) : row :=
  mkRow (row_EmpRUC r) (row_EmpRazonSocial r) (row_EmpNom r) (row_RepFecha r)
        (row_RepFechaDate r) (row_RepLiqEstadoConsulta r)
        (row_RepDetalleRechazo r) (row_detail_normalized r) resolved
        (row_sources r) (row_created_at r).

(** [SELECT resolved FROM rows WHERE id = ?] with [fetchone()] *)
Definition execute_select_resolved (row_id : str) : DB (option Z) :=
  io ;;; fun s => (Ok (row_resolved <$> view s !! row_id), s).

(** [UPDATE rows SET resolved = ? WHERE id = ?] *)
Definition execute_update_resolved (resolved : Z) (row_id : str) : DB unit :=
  io ;;; fun s => write (alter (set_resolved resolved) row_id (view s)) s.

Definition api_toggle (row_id : str) : DB (response (str * bool)) :=
  get_connection ;;;
  try_finally
    (db! row <- execute_select_resolved row_id;
     match row with
     | None => ret (Abort 404)
     | Some resolved =>
         let new_value := if resolved =? 0 then 1 else 0 in
         execute_update_resolved new_value row_id ;;;
         commit ;;;
         ret (Json (row_id, negb (new_value =? 0)))
     end)
    close.

(** ** api_delete_resolved *)

(** [DELETE FROM rows WHERE resolved = 1] with [cursor.rowcount] *)
Definition execute_delete_resolved : DB nat :=
  io ;;; fun s =>
    (Ok (size (filter (fun kv => row_resolved kv.2 = 1) (view s))),
     mkDb (committed s)
          (Some (filter (fun kv => row_resolved kv.2 <> 1) (view s)))
          (faults s)).

Definition api_delete_resolved : DB nat :=
  get_connection ;;;
  try_finally
    (db! rowcount <- execute_delete_resolved;
     commit ;;;
     ret rowcount)
    close.

(** ** api_upload *)

(** One uploaded file: its name, if any, and its bytes. *)
Record file_storage : Type := mkFile {
  upload_filename : option str;
  upload_bytes : list byte
}.

(** The counters of one summary, and of the totals. *)
Record counts : Type := mkCounts {
  n_total : nat;
  n_added : nat;
  n_duplicates : nat;
  n_ignored : nat
}.

Definition add_counts (totals c : counts) : counts :=
  mkCounts (n_total totals + n_total c) (n_added totals + n_added c)
           (n_duplicates totals + n_duplicates c)
           (n_ignored totals + n_ignored c).

(** [raw_bytes.decode("utf-8")], or [decode("latin-1", errors="ignore")] when
    that fails. *)
Definition decode_upload (raw_bytes : list byte) : str :=
  match decode_utf8 raw_bytes with
  | Some text => text
  | None => map Byte.to_N raw_bytes
  end.

(** [file_storage.filename or "archivo.rpt"] *)
Definition filename_or_default (f : file_storage) : str :=
  match upload_filename f with
  | Some (c :: rest) => c :: rest
  | Some [] | None => lit "archivo.rpt"
  end.

Section Upload.
Context `{Unicodedata}.

(** The loop of [api_upload] from file number [index] on; [time index] is
    the clock read while that file is merged. *)
Fixpoint upload_files (time : nat -> Z) (index : nat)
    (files : list file_storage) (summaries : list (str * counts))
    (totals : counts) : DB (list (str * counts) * counts) :=
  match files with
  | [] => ret (summaries, totals)
  | file :: rest =>
      let filename := filename_or_default file in
      let text := decode_upload (upload_bytes file) in
      match parse_rpt text with
      | Raise e => throw e
      | Ok records =>
          db! (added, duplicates, ignored) <-
            insert_records records filename (time index);
          let c := mkCounts (length records) added duplicates ignored in
          upload_files time (S index) rest (summaries ++ [(filename, c)])
            (add_counts totals c)
      end
  end.

Definition api_upload (time : nat -> Z) (files : list file_storage)
    : DB (response (list (str * counts) * counts)) :=
  match files with
  | [] => ret (Abort 400)
  | _ :: _ =>
      db! out <- upload_files time 0 files [] (mkCounts 0 0 0 0);
      ret (Json out)
  end.

(** ** maybe_load_initial_data

    [result_rpt] is the seed file: [None] when the path does not exist,
    [Some None] when reading it raises [OSError], and its text otherwise. *)

Definition maybe_load_initial_data (result_rpt : option (option str))
    (now : Z) : DB unit :=
  match result_rpt with
  | None => ret tt
  | Some file =>
      get_connection ;;;
      db! has_rows <-
        try_finally
          (io ;;; fun s => (Ok (negb (size (view s) =? 0)%nat), s)) close;
      if has_rows : bool then ret tt
      else
        match file with
        | None => ret tt
        | Some content =>
            match parse_rpt content with
            | Raise e => throw e
            | Ok records =>
                match records with
                | [] => ret tt
                | _ :: _ =>
                    insert_records records (lit "result.rpt") now ;;; ret tt
                end
            end
        end
  end.

End Upload.

(** ** Vocabulary of the statements *)

(** [sub] occurs in [s]. *)
Definition occurs (sub s : str) : Prop := exists a b, s = a ++ sub ++ b.

(** [sub] occurs in [s] at offset [i], and at no smaller offset. *)
Definition first_offset (sub s : str) (i : nat) : Prop :=
  (exists b, drop i s = sub ++ b) /\ (i <= length s)%nat /\
  forall j, (j < i)%nat -> ~ exists b, drop j s = sub ++ b.

Fixpoint count_char (c : N) (s : str) : nat :=
  match s with
  | [] => 0
  | x :: t => (if (x =? c)%N then 1 else 0) + count_char c t
  end%nat.

(** Offset of the first [c] in [s]. *)
Fixpoint first_index (c : N) (s : str) : option nat :=
  match s with
  | [] => None
  | x :: t => if (x =? c)%N then Some 0%nat else S <$> first_index c t
  end.

(** What [extract_date] checks on its ten-character candidate. *)
Definition two_dashes_after_four (candidate : str) : bool :=
  (length candidate =? 10)%nat && (count_char dash candidate =? 2)%nat
  && bool_decide (first_index dash candidate = Some 4%nat).

Definition is_digit (c : N) : bool := ((48 <=? c) && (c <=? 57))%N.

(** The YYYY-MM-DD shape in the words of the specification: digits in the
    year, month and day positions, dashes at positions 5 and 8. *)
Definition date_shape (candidate : str) : bool :=
  match candidate with
  | [y1; y2; y3; y4; d1; m1; m2; d2; a1; a2] =>
      is_digit y1 && is_digit y2 && is_digit y3 && is_digit y4
      && (d1 =? dash)%N && is_digit m1 && is_digit m2 && (d2 =? dash)%N
      && is_digit a1 && is_digit a2
  | _ => false
  end.

(** What [api_rows] serves for a stored row: the six text columns and the
    source labels through [fix_text], the key, the resolved flag and the
    report date as they are stored. *)
Definition served (entry : str * row) (pr : payload_row) : Prop :=
  p_id pr = entry.1
  /\ fix_text (row_EmpRUC entry.2) = Ok (p_EmpRUC pr)
  /\ fix_text (row_EmpRazonSocial entry.2) = Ok (p_EmpRazonSocial pr)
  /\ fix_text (row_EmpNom entry.2) = Ok (p_EmpNom pr)
  /\ fix_text (row_RepFecha entry.2) = Ok (p_RepFecha pr)
  /\ fix_text (row_RepLiqEstadoConsulta entry.2)
     = Ok (p_RepLiqEstadoConsulta pr)
  /\ fix_text (row_RepDetalleRechazo entry.2) = Ok (p_RepDetalleRechazo pr)
  /\ Forall2 (fun source out => fix_text (Some source) = Ok out)
             (default [] (row_sources entry.2)) (p_sources pr)
  /\ p_resolved pr = negb (row_resolved entry.2 =? 0)
  /\ p_rep_date pr = row_RepFechaDate entry.2.

(** The same database when no storage operation is going to fail. *)
Definition clear (s : db) : db := mkDb (committed s) (txn s) [].

(** A computation that succeeds under some faults gives the same result and
    the same data when there are none. *)
Definition fault_free {A} (c : DB A) : Prop :=
  forall s a s1, c s = (Ok a, s1) -> c (clear s) = (Ok a, clear s1).

(** A computation that commits nothing. *)
Definition uncommitting {A} (c : DB A) : Prop :=
  forall s r s1, c s = (r, s1) -> committed s1 = committed s.

(** A computation that commits nothing when it raises. *)
Definition atomic {A} (c : DB A) : Prop :=
  forall s e s1, c s = (Raise e, s1) -> committed s1 = committed s.

(** [sources] with [source] added at the end unless it is there. *)
Definition add_source (source : str) (r : row) : row :=
  let sources := default [] (row_sources r) in
  if bool_decide (source ∈ sources) then r
  else set_sources (sources ++ [source]) r.

(** The result set of [execute_select] on table [t]. *)
Definition select_rows (t : gmap str row) (chunk : list str)
    : list (str * option (list str)) :=
  omap (fun k => (fun r => (k, row_sources r)) <$> t !! k) (remove_dups chunk).

Definition remember_rows (existing : gmap str (option (list str)))
    (rows : list (str * option (list str))) : gmap str (option (list str)) :=
  foldl (fun ex '(id, sources) => <[id := sources]> ex) existing rows.

(** The pending transaction after the UPDATE for one prepared record. *)
Definition update_txn (existing : gmap str (option (list str))) (source : str)
    (c : gmap str row) (t : option (gmap str row))
    (p : record * str * str) : option (gmap str row) :=
  match existing !! p.1.2 with
  | Some sources_raw =>
      if bool_decide (source ∈ default [] sources_raw) then t
      else Some (alter (set_sources (default [] sources_raw ++ [source]))
                   p.1.2 (default c t))
  | None => t
  end.

(** The rows [merge_loop] collects for insertion. *)
Fixpoint collected (existing : gmap str (option (list str))) (source : str)
    (now : Z) (index : nat) (prepared : list (record * str * str))
    : list (str * row) :=
  match prepared with
  | [] => []
  | (record, key, detail_normalized) :: rest =>
      match existing !! key with
      | Some _ => collected existing source now (S index) rest
      | None =>
          (key, new_row record detail_normalized source (now + Z.of_nat index))
          :: collected existing source now (S index) rest
      end
  end.

(** The number of prepared records whose key is in [existing]. *)
Fixpoint known (existing : gmap str (option (list str)))
    (prepared : list (record * str * str)) : nat :=
  match prepared with
  | [] => 0
  | p :: rest =>
      (match existing !! p.1.2 with Some _ => 1 | None => 0 end)
      + known existing rest
  end%nat.

(** The table after the rows of [inserts] are inserted. *)
Definition insert_all (t : gmap str row) (inserts : list (str * row))
    : gmap str row :=
  foldl (fun acc '(k, r) => <[k := r]> acc) t inserts.

(** The keys of the prepared records, in batch order. *)
Definition keys_of (prepared : list (record * str * str)) : list str :=
  map (fun p => p.1.2) prepared.

(** The dict [existing] that [insert_records] builds over table [c]. *)
Definition existing_of (c : gmap str row)
    (prepared : list (record * str * str)) : gmap str (option (list str)) :=
  foldl (fun ex chunk => remember_rows ex (select_rows c chunk)) ∅
        (chunked (keys_of prepared) 500).

(** What the UPDATE for key [k] does to a row. *)
Definition touch (existing : gmap str (option (list str))) (source : str)
    (k : str) : row -> row :=
  match existing !! k with
  | Some sources_raw =>
      if bool_decide (source ∈ default [] sources_raw) then id
      else set_sources (default [] sources_raw ++ [source])
  | None => id
  end.

(** Table [c] after every update and every insert of one call. *)
Definition merged (c : gmap str row) (prepared : list (record * str * str))
    (source : str) (now : Z) : gmap str row :=
  let existing := existing_of c prepared in
  insert_all (default c (foldl (update_txn existing source c) None prepared))
             (collected existing source now 0 prepared).

Section IngestionVocabulary.
Context `{Unicodedata}.

(** The record is one that [insert_records] ignores: its repaired and
    normalized rejection detail starts with an ignorable prefix. *)
Definition is_ignored (r : record) : bool :=
  match fix_text (get r RepDetalleRechazo) with
  | Ok detail => ignorable (normalize_detail detail)
  | Raise _ => false
  end.

Definition is_kept (r : record) : bool := negb (is_ignored r).

(** [insert_records] from the end of its first loop on. *)
Definition insert_prepared (prepared : list (record * str * str))
    (ignored : nat) (source : str) (now : Z) : DB (nat * nat * nat) :=
  match prepared with
  | [] => ret (0%nat, 0%nat, ignored)
  | _ :: _ =>
      get_connection ;;;
      db! (added, duplicates) <-
        try_finally (merge prepared source now) close;
      ret (added, duplicates, ignored)
  end.

End IngestionVocabulary.

(** Two rows that differ at most in their sources. *)
Definition same_but_sources (r r' : row) : Prop :=
  row_EmpRUC r' = row_EmpRUC r
  /\ row_EmpRazonSocial r' = row_EmpRazonSocial r
  /\ row_EmpNom r' = row_EmpNom r
  /\ row_RepFecha r' = row_RepFecha r
  /\ row_RepFechaDate r' = row_RepFechaDate r
  /\ row_RepLiqEstadoConsulta r' = row_RepLiqEstadoConsulta r
  /\ row_RepDetalleRechazo r' = row_RepDetalleRechazo r
  /\ row_detail_normalized r' = row_detail_normalized r
  /\ row_resolved r' = row_resolved r
  /\ row_created_at r' = row_created_at r.

(** The keys of the rows that [api_rows] returns. *)
Definition served_ids (r : result payload) : list str :=
  match r with
  | Ok p => map p_id (rows p)
  | Raise _ => []
  end.

(** The UTF-8 bytes of a code point, as byte values. *)
Definition utf8_bytes (c : N) : list N :=
  (if c <? 0x80 then [c]
   else if c <? 0x800 then [0xC0 + c / 64; 0x80 + c mod 64]
   else if c <? 0x10000
   then [0xE0 + c / 4096; 0x80 + (c / 64) mod 64; 0x80 + c mod 64]
   else [0xF0 + c / 262144; 0x80 + (c / 4096) mod 64;
         0x80 + (c / 64) mod 64; 0x80 + c mod 64])%N.

(** A Unicode scalar value: a code point that is no surrogate. *)
Definition scalar (c : N) : bool :=
  ((c <? 0xD800) || (0xE000 <=? c) && (c <=? 0x10FFFF))%N.

(** The text one gets when the UTF-8 bytes of [s] are read as Latin-1. *)
Definition mojibake (s : str) : str := flat_map utf8_bytes s.

(** A field of a record, [""] when it is missing. *)
Definition field (r : record) (c : column) : str := default [] (get r c).

(** [c] is the vertical bar of the key delimiter. *)
Definition pipe : N := 124%N.

(** The six text columns of a stored row, as a record. *)
Definition stored_record (r : row) : record :=
  mkRecord (row_EmpRUC r) (row_EmpRazonSocial r) (row_EmpNom r)
           (row_RepFecha r) (row_RepLiqEstadoConsulta r)
           (row_RepDetalleRechazo r).

(** The counters of a summary add up. *)
Definition balanced (c : counts) : Prop :=
  n_total c = (n_added c + n_duplicates c + n_ignored c)%nat.

(** ** Examples *)

(** An empty database without faults, and the labels of two files. *)
Definition empty_db : db := mkDb ∅ None [].

Definition file_A : str := lit "A".
Definition file_B : str := lit "B".

(** Two records, and the key of the first. *)
Definition acme : record :=
  mkRecord (Some (lit "123")) (Some (lit "ACME")) (Some (lit "AC"))
           (Some (lit "2023-05-01 10:00")) (Some (lit "OK"))
           (Some (lit "RUC inactivo")).

Definition acme_key : str :=
  lit "123||ACME||AC||2023-05-01 10:00||OK||RUC inactivo".

Definition beta : record :=
  mkRecord (Some (lit "456")) (Some (lit "BETA")) (Some (lit "B"))
           (Some (lit "2023-05-02")) (Some (lit "OK"))
           (Some (lit "Sin actividad")).

(** A record whose rejection detail starts with the ignorable reason, in
    upper case. *)
Definition not_in_force : record :=
  mkRecord (Some (lit "456")) (Some (lit "BETA")) (Some (lit "B"))
           (Some (lit "2023-05-02")) (Some (lit "OK"))
           (Some (lit "EN LA FECHA DE RESUMEN DEL REPORTE LA CONDICI"
                  ++ [0xD3%N] ++ lit "N DE EMISOR ELECTR" ++ [0xD3%N]
                  ++ lit "NICO NO ESTABA VIGENTE (2023)")).

(** A record whose first field is a question mark followed by a twice
    mis-decoded e-acute. *)
Definition twice_garbled : record :=
  mkRecord (Some [63; 0xC3; 0x83; 0xC2; 0xA9]%N) (Some (lit "ACME")) None
           None None (Some (lit "rechazado")).

(** A record whose second field is a question mark followed by a euro sign
    mis-decoded once. *)
Definition garbled_euro : record :=
  mkRecord (Some (lit "789")) (Some [63; 0xE2; 0x82; 0xAC]%N) None None None
           (Some (lit "rechazado")).

(** The table once [acme] has been ingested from file A. *)
Definition table_A : gmap str row :=
  committed (insert_records (H:=Latin1.unicodedata) [acme] file_A 1000
               empty_db).2.

(** A row without text, for examples that only count rows. *)
Definition blank_row (created_at : Z) : row :=
  mkRow None None None None None None None None 0 None created_at.

(** Forty-five stored rows. *)
Definition rows45 : list (str * row) :=
  map (fun i => ([N.of_nat i], blank_row (Z.of_nat i))) (seq 65 45).

(** Their page 999 by 20. *)
Definition page45 : payload :=
  Eval vm_compute in
    match api_rows (Int 999) (Int 20) rows45 with
    | Ok p => p
    | Raise _ => mkPayload [] 0 0 0 0
    end.

(** A text of whitespace only. *)
Definition blank (ws : str) : Prop := Forall (fun c => isspace c = true) ws.

(** A record with the fields of [acme] padded with whitespace. *)
Definition acme_padded : record :=
  mkRecord (Some (lit "  123")) (Some (lit "ACME ")) (Some (lit " AC  "))
           (Some (lit "2023-05-01 10:00")) (Some (lit "OK" ++ [9; 0xA0]%N))
           (Some (lit " RUC inactivo")).

(** A record as [parse_rpt] yields them: every column is there and the
    first one is not empty. *)
Definition parsed_shape (r : record) : Prop :=
  (exists v, get r EmpRUC = Some v /\ v <> [])
  /\ forall c, is_Some (get r c).

(** A report: a header line, a line of dashes, a data line and an empty
    line. *)
Definition report : str :=
  lit "EmpRUC  EmpRazonSocial  EmpNom  RepFecha          RepLiqEstadoConsulta  RepDetalleRechazo"
  ++ [13; 10]%N ++
  lit "------  --------------  ------  ----------------  --------------------  -----------------"
  ++ [13; 10]%N ++
  lit "123     ACME            AC      2023-05-01 10:00  OK                    RUC inactivo"
  ++ [13; 10]%N ++ [13; 10]%N.

(** A report whose header lacks the last label. *)
Definition report_short_header : list str :=
  [lit "EmpRUC  EmpRazonSocial  EmpNom  RepFecha  RepLiqEstadoConsulta";
   lit "123         ACME"].

(** The table of [table_A] once its row is marked as resolved. *)
Definition table_A_resolved : gmap str row :=
  committed (api_toggle acme_key (mkDb table_A None [])).2.

(** The bytes of an ASCII text. *)
Definition ascii_bytes (s : str) : list byte := omap Byte.of_N s.

(** The report [report] uploaded as [a.rpt]. *)
Definition upload_A : file_storage :=
  mkFile (Some (lit "a.rpt")) (ascii_bytes report).

(** The forty-five rows as they are served. *)
Definition served45 : list payload_row :=
  Eval vm_compute in
    match map_result serialize_row rows45 with
    | Ok served_rows => served_rows
    | Raise _ => []
    end.

(** A file name that was mis-decoded once. *)
Definition garbled_label : str := [63; 0xC3; 0xA9]%N ++ lit ".rpt".

(** The rows stored once [twice_garbled] has been ingested from that file,
    and their page. *)
Definition garbled_rows : list (str * row) :=
  map_to_list
    (committed (insert_records (H:=Latin1.unicodedata) [twice_garbled]
                  garbled_label 1000 empty_db).2).

Definition garbled_page : payload :=
  Eval vm_compute in
    match api_rows Absent Absent garbled_rows with
    | Ok p => p
    | Raise _ => mkPayload [] 0 0 0 0
    end.

(** ** Evaluation *)

(** Closes an equation between closed terms by evaluating both sides. *)
Ltac evaluate :=
  lazymatch goal with
  | |- ?x = _ => vm_cast_no_check (@eq_refl _ x)
  end.

(** ** Strings *)

Lemma startswith_spec (s prefix : str) :
  startswith s prefix = true <-> exists b, s = prefix ++ b.
Proof.
  revert s. induction prefix as [|p ps IH]; intros s; simpl.
  - split; [eauto | done].
  - destruct s as [|c cs].
    + split; [done | intros [b Hb]; discriminate].
    + rewrite andb_true_iff, N.eqb_eq, IH. split.
      * intros [-> [b ->]]. by exists b.
      * intros [b Hb]. injection Hb as -> ->. eauto.
Qed.

Lemma find_nat_Some (s sub : str) (i : nat) :
  find_nat s sub = Some i <-> first_offset sub s i.
Proof.
  revert i. induction s as [|c t IH]; intros i.
  - unfold first_offset. cbn [find_nat].
    destruct (startswith [] sub) eqn:E.
    + apply startswith_spec in E. split.
      * intros [= <-]. split; [done|]. split; [simpl; lia|]. intros; lia.
      * intros (_ & Hi & _). simpl in Hi. f_equal. lia.
    + split; [done|]. intros ([b Hb] & Hi & _). simpl in Hi.
      assert (i = 0%nat) as -> by lia. simpl in Hb.
      assert (startswith [] sub = true) by (apply startswith_spec; eauto).
      congruence.
  - cbn [find_nat]. destruct (startswith (c :: t) sub) eqn:E.
    + apply startswith_spec in E. split.
      * intros [= <-]. split; [done|]. split; [lia|]. intros; lia.
      * intros (_ & _ & Hmin). destruct i as [|i]; [done|].
        exfalso. apply (Hmin 0%nat); [lia | done].
    + assert (Hno : ~ exists b, c :: t = sub ++ b).
      { intros Hb. apply startswith_spec in Hb. congruence. }
      destruct (find_nat t sub) as [k|] eqn:Ek; simpl.
      * pose proof (proj1 (IH k) eq_refl) as (Hk & Hlen & Hmin).
        split.
        -- intros [= <-]. split; [done|]. split; [simpl; lia|].
           intros [|j] Hj; [done|]. simpl. apply Hmin. lia.
        -- intros (Hi & Hleni & Hmini). destruct i as [|i]; [done|].
           f_equal. f_equal. simpl in Hi.
           destruct (Nat.lt_trichotomy i k) as [Hlt|[->|Hgt]]; [|done|].
           ++ exfalso. by apply (Hmin i).
           ++ exfalso. apply (Hmini (S k)); [lia | done].
      * split; [done|]. intros (Hi & Hleni & Hmini).
        destruct i as [|i]; [done|]. simpl in Hi, Hleni.
        assert (@None nat = Some i) as Hc; [|discriminate].
        apply IH. split; [done|]. split; [lia|].
        intros j Hj. apply (Hmini (S j)). lia.
Qed.

Lemma occurs_offset (sub s : str) :
  occurs sub s <-> exists i, (i <= length s)%nat /\ exists b, drop i s = sub ++ b.
Proof.
  split.
  - intros (a & b & ->). exists (length a). split.
    + rewrite length_app. lia.
    + exists b. by rewrite drop_app_length.
  - intros (i & _ & b & Hb). exists (take i s), b.
    by rewrite <- Hb, take_drop.
Qed.

Lemma find_nat_None (s sub : str) :
  find_nat s sub = None <-> ~ occurs sub s.
Proof.
  rewrite occurs_offset. induction s as [|c t IH]; cbn [find_nat].
  - destruct (startswith [] sub) eqn:E.
    + apply startswith_spec in E. split; [done|]. intros Hn. exfalso.
      apply Hn. exists 0%nat. split; [simpl; lia | done].
    + split; [|done]. intros _ (i & Hi & b & Hb). simpl in Hi.
      assert (i = 0%nat) as -> by lia.
      assert (startswith [] sub = true) by (apply startswith_spec; eauto).
      congruence.
  - destruct (startswith (c :: t) sub) eqn:E.
    + apply startswith_spec in E. split; [done|]. intros Hn. exfalso.
      apply Hn. exists 0%nat. split; [lia | done].
    + assert (Hno : ~ exists b, c :: t = sub ++ b).
      { intros Hb. apply startswith_spec in Hb. congruence. }
      destruct (find_nat t sub) as [k|] eqn:Ek; simpl.
      * split; [done|]. intros Hn.
        assert (Hsome : ~ ~ exists i, (i <= length t)%nat /\ exists b, drop i t = sub ++ b).
        { intros Hx. apply IH in Hx. discriminate. }
        exfalso. apply Hsome. intros (i & Hi & Hb). apply Hn.
        exists (S i). split; [simpl; lia | done].
      * split; [|done]. intros _ (i & Hi & Hb).
        destruct i as [|i]; [done|]. simpl in Hi, Hb.
        apply (proj1 IH eq_refl). exists i. split; [lia | done].
Qed.

Lemma split_length (sep : N) (s : str) :
  length (split sep s) = S (count_char sep s).
Proof.
  induction s as [|c t IH]; [done|]. cbn [split count_char].
  destruct (c =? sep)%N.
  - simpl. by rewrite IH.
  - destruct (split sep t) as [|p ps]; simpl in *; [lia | done].
Qed.

Lemma split_head_length (sep : N) (s : str) :
  length <$> head (split sep s)
  = Some (default (length s) (first_index sep s)).
Proof.
  induction s as [|c t IH]; [done|]. cbn [split first_index].
  destruct (c =? sep)%N; [done|].
  pose proof (split_length sep t) as Hlen.
  destruct (split sep t) as [|p ps]; [done|].
  simpl in *. injection IH as ->.
  by destruct (first_index sep t).
Qed.

Lemma extract_date_candidate (rep_fecha : str) :
  extract_date (Some rep_fecha)
  = if two_dashes_after_four (take 10 (strip rep_fecha))
    then Some (take 10 (strip rep_fecha)) else None.
Proof.
  destruct rep_fecha as [|c t]; [done|].
  unfold extract_date, two_dashes_after_four.
  generalize (take 10 (strip (c :: t))). intros candidate.
  destruct (length candidate =? 10)%nat eqn:Hten; [|done].
  apply Nat.eqb_eq in Hten. simpl.
  pose proof (split_length dash candidate) as Hlen.
  pose proof (split_head_length dash candidate) as Hhead.
  destruct (split dash candidate) as [|year [|month [|day [|x rest]]]];
    simpl in Hlen, Hhead.
  - done.
  - assert (count_char dash candidate = 0)%nat as -> by lia. done.
  - assert (count_char dash candidate = 1)%nat as -> by lia. done.
  - assert (count_char dash candidate = 2)%nat as -> by lia. simpl.
    injection Hhead as Hyear.
    destruct (length year =? 4)%nat eqn:Hfour; simpl.
    + apply Nat.eqb_eq in Hfour. rewrite bool_decide_eq_true_2; [done|].
      destruct (first_index dash candidate); simpl in *; [f_equal|]; lia.
    + apply Nat.eqb_neq in Hfour. rewrite bool_decide_eq_false_2; [done|].
      intros Hidx. rewrite Hidx in Hyear. simpl in Hyear. lia.
  - assert ((count_char dash candidate =? 2)%nat = false) as ->.
    { apply Nat.eqb_neq. lia. }
    done.
Qed.

Lemma digit_not_dash (c : N) : is_digit c = true -> (c =? dash)%N = false.
Proof.
  unfold is_digit, dash. rewrite andb_true_iff, !N.leb_le, N.eqb_neq. lia.
Qed.

Lemma date_shape_accepted (candidate : str) :
  date_shape candidate = true -> two_dashes_after_four candidate = true.
Proof.
  unfold date_shape.
  destruct candidate as [|y1 [|y2 [|y3 [|y4 [|d1 [|m1 [|m2 [|d2 [|a1 [|a2 [|]]]]]]]]]]];
    try discriminate.
  rewrite !andb_true_iff.
  intros (((((((((H1 & H2) & H3) & H4) & H5) & H6) & H7) & H8) & H9) & H10).
  apply digit_not_dash in H1, H2, H3, H4, H6, H7, H9, H10.
  unfold two_dashes_after_four. cbn [length count_char first_index].
  rewrite H1, H2, H3, H4, H5, H6, H7, H8, H9, H10. done.
Qed.

(** C3, as the code has it: [rep_date] is the first ten characters of the
    trimmed report-date string exactly when these are ten characters that
    hold two dashes, the first of them in fifth place, and is absent
    otherwise; ten characters of the YYYY-MM-DD shape are accepted, and the
    three examples of the claim come out as it says. *)
Theorem extract_date_spec :
  (forall rep_fecha : str,
      extract_date (Some rep_fecha)
      = if two_dashes_after_four (take 10 (strip rep_fecha))
        then Some (take 10 (strip rep_fecha)) else None)
  /\ (forall rep_fecha : str,
         if date_shape (take 10 (strip rep_fecha))
         then extract_date (Some rep_fecha) = Some (take 10 (strip rep_fecha))
         else True)
  /\ extract_date None = None
  /\ extract_date (Some (lit "2023-05-01 extra")) = Some (lit "2023-05-01")
  /\ extract_date (Some (lit "05/2023")) = None
  /\ extract_date (Some (lit "2023-5-1")) = None.
Proof.
  split; [apply extract_date_candidate|]. split.
  - intros rep_fecha. destruct (date_shape _) eqn:Hshape; [|done].
    rewrite extract_date_candidate.
    by rewrite (date_shape_accepted _ Hshape).
  - split; [done|]. split; [evaluate|]. split; evaluate.
Qed.

(** C3 as stated fails: ten characters that are not of the YYYY-MM-DD shape
    are accepted as [rep_date]. *)
Lemma extract_date_accepts_other_shape :
  ~ (extract_date (Some (lit "2023-5-1 x")) = Some (take 10 (strip (lit "2023-5-1 x")))
     <-> date_shape (take 10 (strip (lit "2023-5-1 x"))) = true).
Proof.
  assert (Hrun : extract_date (Some (lit "2023-5-1 x"))
                 = Some (take 10 (strip (lit "2023-5-1 x")))) by evaluate.
  assert (Hshape : date_shape (take 10 (strip (lit "2023-5-1 x"))) = false)
    by evaluate.
  intros [Himp _]. rewrite (Himp Hrun) in Hshape. discriminate.
Qed.

(** ** Column layout *)

Lemma find_cases (s sub : str) :
  (exists i, find s sub = Z.of_nat i /\ first_offset sub s i /\ occurs sub s)
  \/ (find s sub = -1 /\ ~ occurs sub s).
Proof.
  unfold find. destruct (find_nat s sub) as [i|] eqn:E.
  - left. exists i. apply find_nat_Some in E. split; [done|]. split; [done|].
    apply occurs_offset. destruct E as (Hb & Hi & _). eauto.
  - right. by apply find_nat_None in E.
Qed.

Lemma detect_loop_spec (header_line : str) (labels : list column)
    (positions : list Z) :
  (Forall (fun c => occurs (label c) header_line) labels
   /\ exists offsets : list nat,
       detect_loop header_line labels positions
       = positions ++ map Z.of_nat offsets
       /\ Forall2 (fun c i => first_offset (label c) header_line i)
                  labels offsets)
  \/ (Exists (fun c => ~ occurs (label c) header_line) labels
      /\ detect_loop header_line labels positions = FALLBACK_POSITIONS).
Proof.
  revert positions. induction labels as [|l rest IH]; intros positions.
  - left. split; [constructor|]. exists []. simpl.
    by rewrite app_nil_r.
  - cbn [detect_loop].
    destruct (find_cases header_line (label l))
      as [(i & -> & Hfirst & Hocc)|[-> Hnone]].
    + assert ((Z.of_nat i <? 0) = false) as -> by (apply Z.ltb_ge; lia).
      destruct (IH (positions ++ [Z.of_nat i]))
        as [(Hall & offsets & -> & Hoffs)|[Hex ->]].
      * left. split; [by constructor|]. exists (i :: offsets).
        split; [by rewrite <- app_assoc | by constructor].
      * right. split; [by apply Exists_cons_tl | done].
    + right. split; [by apply Exists_cons_hd | done].
Qed.

(** C5: when each of the six labels occurs in the header line, the layout is
    the list, in column order, of the offsets of their first occurrences;
    when some label does not occur, it is the whole fallback layout. *)
Theorem detect_column_positions_spec (header_line : str) :
  (Forall (fun c => occurs (label c) header_line) COLUMNS
   /\ exists offsets : list nat,
       detect_column_positions header_line = map Z.of_nat offsets
       /\ length offsets = 6%nat
       /\ Forall2 (fun c i => first_offset (label c) header_line i)
                  COLUMNS offsets)
  \/ (Exists (fun c => ~ occurs (label c) header_line) COLUMNS
      /\ detect_column_positions header_line = FALLBACK_POSITIONS).
Proof.
  destruct (detect_loop_spec header_line COLUMNS [])
    as [(Hall & offsets & Heq & Hoffs)|[Hex Heq]].
  - left. split; [done|]. exists offsets. split; [done|]. split; [|done].
    by rewrite <- (Forall2_length _ _ _ Hoffs).
  - by right.
Qed.

(** ** Text repair *)

(** C4 fails on the code: a text that holds the marker and a character above
    U+00FF makes [fix_text] raise, and with it the parsing of a line that has
    such a field. *)
Theorem fix_text_raises :
  fix_text (Some [63; 0x20AC]%N) = Raise UnicodeEncodeError
  /\ parse_fixed_width_line (lit "123 " ++ [63; 0x20AC]%N) FALLBACK_POSITIONS
     = Raise UnicodeEncodeError.
Proof. split; evaluate. Qed.

Lemma fix_text_no_marker (value : str) :
  contains marker value = false -> fix_text (Some value) = Ok value.
Proof.
  intros Hno. unfold fix_text. rewrite Hno. by destruct value.
Qed.

Lemma encode_latin1_total (value : str) :
  Forall (fun c => (c < 256)%N) value -> is_Some (encode_latin1 value).
Proof.
  induction 1 as [|c t Hc _ [bs IH]]; [by eexists|].
  cbn [encode_latin1]. rewrite IH.
  destruct (Byte.of_N c) eqn:E; [by eexists|].
  apply Byte.of_N_None_iff in E. lia.
Qed.

Lemma fix_text_latin1 (value : str) :
  Forall (fun c => (c < 256)%N) value -> exists v, fix_text (Some value) = Ok v.
Proof.
  intros Hsmall. destruct (encode_latin1_total value Hsmall) as [bs Hbs].
  unfold fix_text. destruct value as [|c t]; [by eexists|].
  destruct (_ || _); [|by eexists]. rewrite Hbs.
  destruct (decode_utf8 bs); by eexists.
Qed.

(** ** Query paging *)

Lemma map_result_Forall2 {A B} (f : A -> result B) (l : list A) (l' : list B) :
  map_result f l = Ok l' -> Forall2 (fun x y => f x = Ok y) l l'.
Proof.
  revert l'. induction l as [|x rest IH]; intros l'; simpl.
  - intros [= <-]. constructor.
  - destruct (f x) as [y|] eqn:Hy; simpl; [|done].
    destruct (map_result f rest) as [ys|]; simpl; [|done].
    intros [= <-]. constructor; [done | by apply IH].
Qed.

Lemma ceil_div_bounds (n k : Z) :
  0 < n -> 0 < k -> (ceil_div n k - 1) * k < n <= ceil_div n k * k.
Proof.
  intros Hn Hk. unfold ceil_div.
  pose proof (Z.div_mod (n + k - 1) k ltac:(lia)) as Hdm.
  pose proof (Z.mod_pos_bound (n + k - 1) k Hk) as Hmod.
  nia.
Qed.

(** C6: the page size served lies between 1 and 200 and is 20 when none is
    asked for; the number of pages is 1 for an empty result and the ceiling
    of total / page_size otherwise; the page served is the page asked for,
    raised to 1 and lowered to the number of pages, and holds a row as soon as
    the result does; page 999 of 45 rows by 20 is page 3. *)
Theorem api_rows_paging (page_param page_size_param : param)
    (matching : list (str * row)) (p : payload) :
  api_rows page_param page_size_param matching = Ok p ->
  let n := Z.of_nat (length matching) in
  total p = n
  /\ 1 <= page_size p <= 200
  /\ page_size p = Z.max 1 (Z.min (int_param page_size_param 20) 200)
  /\ int_param Absent 20 = 20 /\ int_param Malformed 20 = 20
  /\ int_param Absent 1 = 1 /\ int_param Malformed 1 = 1
  /\ (if n =? 0 then total_pages p = 1
      else (total_pages p - 1) * page_size p < n <= total_pages p * page_size p)
  /\ 1 <= page p <= total_pages p
  /\ page p = Z.min (Z.max 1 (int_param page_param 1)) (total_pages p)
  /\ (if n =? 0 then True else rows p <> [])
  /\ (if bool_decide (page_param = Int 999 /\ page_size_param = Int 20
                      /\ n = 45)
      then page p = 3 /\ length (rows p) = 5%nat else True).
Proof.
  intros Hrun n. unfold api_rows in Hrun.
  destruct (map_result serialize_row _) as [served_rows|] eqn:Hrows;
    simpl in Hrun; [|done].
  injection Hrun as <-. cbn [total page_size total_pages page rows].
  apply map_result_Forall2, Forall2_length in Hrows.
  rewrite length_take, length_drop in Hrows. fold n in Hrows |- *.
  set (size := Z.max 1 (Z.min (int_param page_size_param 20) 200)) in *.
  set (asked := Z.max 1 (int_param page_param 1)) in *.
  assert (Hsize : 1 <= size <= 200) by lia.
  assert (Hn : 0 <= n) by lia.
  set (pages := if n =? 0 then 1 else Z.max 1 (ceil_div n size)) in *.
  assert (Hpages : 1 <= pages) by (unfold pages; destruct (n =? 0); lia).
  assert (Hceil : if n =? 0 then pages = 1
                  else (pages - 1) * size < n <= pages * size).
  { unfold pages. destruct (n =? 0) eqn:Hz; [done|].
    apply Z.eqb_neq in Hz.
    pose proof (ceil_div_bounds n size ltac:(lia) ltac:(lia)). nia. }
  set (served_page := if asked >? pages then pages else asked) in *.
  assert (Hpage : served_page = Z.min asked pages).
  { unfold served_page. destruct (asked >? pages) eqn:Hgt; lia. }
  assert (Hnonempty : if n =? 0 then True else served_rows <> []).
  { destruct (n =? 0) eqn:Hz; [done|]. apply Z.eqb_neq in Hz.
    intros ->. simpl in Hrows. nia. }
  repeat split; try done; try lia.
  case_bool_decide as Hex; [|done]. destruct Hex as (-> & -> & H45).
  assert (Hz : (n =? 0) = false) by (apply Z.eqb_neq; lia).
  rewrite Hz in Hceil.
  assert (Hs20 : size = 20) by (unfold size; simpl; lia).
  assert (Ha : asked = 999) by (unfold asked; simpl; lia).
  rewrite Hs20 in Hceil. assert (Hp3 : pages = 3) by lia.
  rewrite Hpage, Ha, Hp3. split; [lia|].
  rewrite Hpage, Ha, Hp3, Hs20 in Hrows. lia.
Qed.

Lemma api_rows_paging_witness :
  api_rows (Int 999) (Int 20) rows45 = Ok page45
  /\ page page45 = 3 /\ total_pages page45 = 3 /\ page_size page45 = 20
  /\ length (rows page45) = 5%nat.
Proof.
  assert (Hrun : api_rows (Int 999) (Int 20) rows45 = Ok page45)
    by evaluate.
  split; [exact Hrun|].
  destruct (api_rows_paging _ _ _ _ Hrun)
    as (_ & _ & Hsize & _ & _ & _ & _ & _ & _ & _ & _ & Hlast).
  destruct Hlast as [Hpage Hrows]. repeat split; try assumption; reflexivity.
Defined.

(** ** Serialization *)

Lemma serialize_row_served (entry : str * row) (pr : payload_row) :
  serialize_row entry = Ok pr -> served entry pr.
Proof.
  destruct entry as [id r]. unfold serialize_row, served.
  destruct (fix_text (row_EmpRUC r)) as [a|] eqn:Ha; simpl; [|done].
  destruct (fix_text (row_EmpRazonSocial r)) as [b|] eqn:Hb; simpl; [|done].
  destruct (fix_text (row_EmpNom r)) as [c|] eqn:Hc; simpl; [|done].
  destruct (fix_text (row_RepFecha r)) as [d|] eqn:Hd; simpl; [|done].
  destruct (fix_text (row_RepLiqEstadoConsulta r)) as [e|] eqn:He; simpl; [|done].
  destruct (fix_text (row_RepDetalleRechazo r)) as [f|] eqn:Hf; simpl; [|done].
  destruct (map_result _ _) as [sources|] eqn:Hsources; simpl; [|done].
  intros [= <-]. simpl. apply map_result_Forall2 in Hsources.
  repeat split; done.
Qed.

(** C9: every row of the page is a stored row of the result, and each of
    its six fields is served through [fix_text], as is every source label;
    the key, the resolved flag and the report date, which are no fields of
    the record, are served as they are stored. *)
Theorem api_rows_served (page_param page_size_param : param)
    (matching : list (str * row)) (p : payload) :
  api_rows page_param page_size_param matching = Ok p ->
  Forall2 served
    (take (Z.to_nat (page_size p))
       (drop (Z.to_nat ((page p - 1) * page_size p)) matching))
    (rows p).
Proof.
  unfold api_rows.
  destruct (map_result serialize_row _) as [served_rows|] eqn:Hrows;
    simpl; [|done].
  intros [= <-]. cbn [page page_size rows].
  apply map_result_Forall2 in Hrows.
  eapply Forall2_impl; [exact Hrows|].
  intros entry pr. apply serialize_row_served.
Qed.

Lemma api_rows_served_witness :
  api_rows Absent Absent garbled_rows = Ok garbled_page
  /\ Forall2 served (take 20 (drop 0 garbled_rows)) (rows garbled_page)
  /\ map (fun entry => (row_EmpRUC entry.2, row_EmpRazonSocial entry.2,
                        row_RepDetalleRechazo entry.2, row_sources entry.2))
         garbled_rows
     = [(Some [63; 0xC3; 0xA9]%N, Some (lit "ACME"), Some (lit "rechazado"),
         Some [garbled_label])]
  /\ map (fun pr => (p_EmpRUC pr, p_EmpRazonSocial pr, p_RepDetalleRechazo pr,
                     p_sources pr))
         (rows garbled_page)
     = [([63; 0xE9]%N, lit "ACME", lit "rechazado",
         [[63; 0xE9]%N ++ lit ".rpt"])].
Proof.
  assert (Hrun : api_rows Absent Absent garbled_rows = Ok garbled_page)
    by evaluate.
  split; [exact Hrun|].
  split; [exact (api_rows_served _ _ _ _ Hrun)|].
  split; evaluate.
Defined.

(** ** The database monad *)

Section Monad.
Context {A B : Type}.

Lemma bind_Ok (c : DB A) (k : A -> DB B) (s : db) (b : B) (s2 : db) :
  bind c k s = (Ok b, s2) <->
  exists a s1, c s = (Ok a, s1) /\ k a s1 = (Ok b, s2).
Proof.
  unfold bind. destruct (c s) as [[a|e] s1]; split.
  - eauto.
  - by intros (a' & s1' & [= <- <-] & Hk).
  - done.
  - by intros (a' & s1' & [=] & _).
Qed.

Lemma bind_Raise (c : DB A) (k : A -> DB B) (s : db) (e : exc) (s2 : db) :
  bind c k s = (Raise e, s2) <->
  c s = (Raise e, s2) \/ exists a s1, c s = (Ok a, s1) /\ k a s1 = (Raise e, s2).
Proof.
  unfold bind. destruct (c s) as [[a|e'] s1]; split.
  - eauto.
  - intros [[=]|(a' & s1' & [= <- <-] & Hk)]. done.
  - intros [= <- <-]. by left.
  - intros [[= <- <-]|(a' & s1' & [=] & _)]. done.
Qed.

Lemma fault_free_bind (c : DB A) (k : A -> DB B) :
  fault_free c -> (forall a, fault_free (k a)) -> fault_free (bind c k).
Proof.
  intros Hc Hk s b s2 (a & s1 & Hrun & Hrest)%bind_Ok.
  apply bind_Ok. exists a, (clear s1). split; [by apply Hc | by apply Hk].
Qed.

Lemma uncommitting_bind (c : DB A) (k : A -> DB B) :
  uncommitting c -> (forall a, uncommitting (k a)) -> uncommitting (bind c k).
Proof.
  intros Hc Hk s r s2. unfold bind.
  destruct (c s) as [[a|e] s1] eqn:Hrun.
  - intros Hrest. rewrite (Hk _ _ _ _ Hrest). by eapply Hc.
  - intros [= <- <-]. by eapply Hc.
Qed.

Lemma atomic_bind (c : DB A) (k : A -> DB B) :
  uncommitting c -> (forall a, atomic (k a)) -> atomic (bind c k).
Proof.
  intros Hc Hk s e s2 [Hrun|(a & s1 & Hrun & Hrest)]%bind_Raise.
  - by eapply Hc.
  - rewrite (Hk _ _ _ _ Hrest). by eapply Hc.
Qed.

Lemma uncommitting_atomic (c : DB A) : uncommitting c -> atomic c.
Proof. intros Hc s e s1. apply Hc. Qed.

End Monad.

Lemma fault_free_ret {A} (a : A) : fault_free (ret a).
Proof. by intros s a' s1 [= <- <-]. Qed.

Lemma uncommitting_ret {A} (a : A) : uncommitting (ret a).
Proof. by intros s r s1 [= <- <-]. Qed.

Lemma uncommitting_throw {A} (e : exc) : uncommitting (@throw A e).
Proof. by intros s r s1 [= <- <-]. Qed.

Lemma fault_free_io : fault_free io.
Proof.
  intros [c t fs] [] s1. unfold io, clear. simpl.
  destruct fs as [|[] fs]; intros [= <-]; done.
Qed.

Lemma uncommitting_io : uncommitting io.
Proof.
  intros [c t fs] r s1. unfold io. simpl.
  destruct fs as [|[] fs]; intros [= <- <-]; done.
Qed.

Lemma view_clear (s : db) : view (clear s) = view s.
Proof. done. Qed.

Create HintDb db.

#[local] Hint Resolve fault_free_ret fault_free_io uncommitting_ret
  uncommitting_throw uncommitting_io : db.

Lemma fault_free_get_connection : fault_free get_connection.
Proof.
  apply fault_free_bind; [auto with db|]. by intros _ s [] s1 [= <-].
Qed.

Lemma uncommitting_get_connection : uncommitting get_connection.
Proof.
  apply uncommitting_bind; [auto with db|]. by intros _ s r s1 [= <- <-].
Qed.

Lemma fault_free_execute_select (chunk : list str) :
  fault_free (execute_select chunk).
Proof.
  apply fault_free_bind; [auto with db|]. by intros _ s rows s1 [= <- <-].
Qed.

Lemma uncommitting_execute_select (chunk : list str) :
  uncommitting (execute_select chunk).
Proof.
  apply uncommitting_bind; [auto with db|]. by intros _ s r s1 [= <- <-].
Qed.

Lemma fault_free_execute_update (sources : list str) (key : str) :
  fault_free (execute_update sources key).
Proof.
  apply fault_free_bind; [auto with db|]. by intros _ s [] s1 [= <-].
Qed.

Lemma uncommitting_execute_update (sources : list str) (key : str) :
  uncommitting (execute_update sources key).
Proof.
  apply uncommitting_bind; [auto with db|]. by intros _ s r s1 [= <- <-].
Qed.

Lemma fault_free_execute_insert (key : str) (r : row) :
  fault_free (execute_insert key r).
Proof.
  apply fault_free_bind; [auto with db|]. intros _ s [] s1.
  rewrite view_clear. destruct (view s !! key); [done|]. by intros [= <-].
Qed.

Lemma uncommitting_execute_insert (key : str) (r : row) :
  uncommitting (execute_insert key r).
Proof.
  apply uncommitting_bind; [auto with db|]. intros _ s res s1.
  destruct (view s !! key); by intros [= <- <-].
Qed.

Lemma fault_free_executemany_insert (inserts : list (str * row)) :
  fault_free (executemany_insert inserts).
Proof.
  induction inserts as [|[key r] rest IH]; simpl; [auto with db|].
  apply fault_free_bind; [apply fault_free_execute_insert | done].
Qed.

Lemma uncommitting_executemany_insert (inserts : list (str * row)) :
  uncommitting (executemany_insert inserts).
Proof.
  induction inserts as [|[key r] rest IH]; simpl; [auto with db|].
  apply uncommitting_bind; [apply uncommitting_execute_insert | done].
Qed.

Lemma fault_free_commit : fault_free commit.
Proof.
  apply fault_free_bind; [auto with db|]. by intros _ s [] s1 [= <-].
Qed.

Lemma atomic_commit : atomic commit.
Proof.
  intros s e s1 [Hio|(a & s0 & _ & [=])]%bind_Raise.
  by eapply uncommitting_io.
Qed.

Lemma fault_free_close : fault_free close.
Proof. by intros s [] s1 [= <-]. Qed.

Lemma fault_free_try_finally {A} (body : DB A) (fin : DB unit) :
  fault_free body -> fault_free fin -> fault_free (try_finally body fin).
Proof.
  intros Hbody Hfin s a s2. unfold try_finally.
  destruct (body s) as [r s1] eqn:Hrun.
  destruct (fin s1) as [[[]|e] s2'] eqn:Hend; [|done].
  intros [= -> <-]. rewrite (Hbody _ _ _ Hrun). by rewrite (Hfin _ _ _ Hend).
Qed.

Lemma atomic_try_finally_close {A} (body : DB A) :
  atomic body -> atomic (try_finally body close).
Proof.
  intros Hbody s e s2. unfold try_finally, close.
  destruct (body s) as [r s1] eqn:Hrun.
  intros [= -> <-]. simpl. by eapply Hbody.
Qed.

(** ** The loops of [insert_records] commit nothing *)

Section Frames.
Context `{Unicodedata}.

Lemma fault_free_fetch_existing (chunks : list (list str))
    (existing : gmap str (option (list str))) :
  fault_free (fetch_existing chunks existing).
Proof.
  revert existing. induction chunks as [|chunk rest IH]; intros existing;
    simpl; [auto with db|].
  apply fault_free_bind; [apply fault_free_execute_select|]. intros rows.
  apply IH.
Qed.

Lemma uncommitting_fetch_existing (chunks : list (list str))
    (existing : gmap str (option (list str))) :
  uncommitting (fetch_existing chunks existing).
Proof.
  revert existing. induction chunks as [|chunk rest IH]; intros existing;
    simpl; [auto with db|].
  apply uncommitting_bind; [apply uncommitting_execute_select|]. intros rows.
  apply IH.
Qed.

Lemma fault_free_merge_loop existing source now index prepared :
  fault_free (merge_loop existing source now index prepared).
Proof.
  revert index. induction prepared as [|[[record key] dn] rest IH];
    intros index; simpl; [auto with db|].
  destruct (existing !! key) as [sources_raw|].
  - apply fault_free_bind.
    + case_bool_decide; [auto with db | apply fault_free_execute_update].
    + intros _. apply fault_free_bind; [apply IH|].
      intros [[added duplicates] inserts]. auto with db.
  - apply fault_free_bind; [apply IH|].
    intros [[added duplicates] inserts]. auto with db.
Qed.

Lemma uncommitting_merge_loop existing source now index prepared :
  uncommitting (merge_loop existing source now index prepared).
Proof.
  revert index. induction prepared as [|[[record key] dn] rest IH];
    intros index; simpl; [auto with db|].
  destruct (existing !! key) as [sources_raw|].
  - apply uncommitting_bind.
    + case_bool_decide; [auto with db | apply uncommitting_execute_update].
    + intros _. apply uncommitting_bind; [apply IH|].
      intros [[added duplicates] inserts]. auto with db.
  - apply uncommitting_bind; [apply IH|].
    intros [[added duplicates] inserts]. auto with db.
Qed.

Lemma fault_free_merge prepared source now :
  fault_free (merge prepared source now).
Proof.
  unfold merge. apply fault_free_bind; [apply fault_free_fetch_existing|].
  intros existing. apply fault_free_bind; [apply fault_free_merge_loop|].
  intros [[added duplicates] inserts]. apply fault_free_bind.
  - destruct inserts; [auto with db | apply fault_free_executemany_insert].
  - intros _. apply fault_free_bind; [apply fault_free_commit|].
    auto with db.
Qed.

Lemma atomic_merge prepared source now : atomic (merge prepared source now).
Proof.
  unfold merge. apply atomic_bind; [apply uncommitting_fetch_existing|].
  intros existing. apply atomic_bind; [apply uncommitting_merge_loop|].
  intros [[added duplicates] inserts]. apply atomic_bind.
  - destruct inserts; [auto with db | apply uncommitting_executemany_insert].
  - intros _ s e s1 [Hcommit|(a & s0 & _ & [=])]%bind_Raise.
    by eapply atomic_commit.
Qed.

Lemma fault_free_insert_records records source now :
  fault_free (insert_records records source now).
Proof.
  unfold insert_records. destruct records as [|r rest]; [auto with db|].
  destruct (prepare (r :: rest)) as [[prepared ignored]|e];
    [|by intros s a s1 [=]].
  destruct prepared as [|p prepared]; [auto with db|].
  apply fault_free_bind; [apply fault_free_get_connection|]. intros _.
  apply fault_free_bind.
  - apply fault_free_try_finally;
      [apply fault_free_merge | apply fault_free_close].
  - intros [added duplicates]. auto with db.
Qed.

Lemma atomic_insert_records records source now :
  atomic (insert_records records source now).
Proof.
  unfold insert_records. destruct records as [|r rest].
  { apply uncommitting_atomic. auto with db. }
  destruct (prepare (r :: rest)) as [[prepared ignored]|e].
  2: { apply uncommitting_atomic. auto with db. }
  destruct prepared as [|p prepared].
  { apply uncommitting_atomic. auto with db. }
  apply atomic_bind; [apply uncommitting_get_connection|]. intros _.
  intros s e s1 [Hbody|(a & s0 & _ & Hret)]%bind_Raise.
  - revert Hbody. apply atomic_try_finally_close, atomic_merge.
  - by destruct a.
Qed.

End Frames.

(** ** Runs without faults *)

Lemma concat_chunks_take {A} (l : list A) (size m : nat) :
  concat (map (fun index => take size (drop index l))
              (map (fun i => (i * size)%nat) (seq 0 m)))
  = take (m * size) l.
Proof.
  induction m as [|m IH]; [done|].
  rewrite seq_S, !map_app, concat_app, IH. simpl.
  rewrite app_nil_r, take_take_drop. f_equal. lia.
Qed.

Lemma concat_chunked {A} (l : list A) (size : nat) :
  (0 < size)%nat -> concat (chunked l size) = l.
Proof.
  intros Hsize. unfold chunked, range_step. rewrite concat_chunks_take.
  apply take_ge.
  pose proof (Nat.div_mod (length l + size - 1) size ltac:(lia)) as Hdm.
  pose proof (Nat.mod_upper_bound (length l + size - 1) size ltac:(lia)).
  nia.
Qed.

Lemma remember_select_lookup (t : gmap str row) (chunk : list str)
    (existing : gmap str (option (list str))) (k : str) :
  remember_rows existing (select_rows t chunk) !! k
  = if decide (k ∈ chunk)
    then match t !! k with
         | Some r => Some (row_sources r)
         | None => existing !! k
         end
    else existing !! k.
Proof.
  unfold remember_rows, select_rows.
  assert (Hin : k ∈ chunk <-> k ∈ remove_dups chunk)
    by (by rewrite elem_of_remove_dups).
  destruct (decide (k ∈ chunk)) as [Hk|Hk].
  - apply Hin in Hk. clear Hin. revert existing Hk.
    induction (remove_dups chunk) as [|x l IH]; intros existing Hk.
    { by apply elem_of_nil in Hk. }
    simpl. destruct (decide (k ∈ l)) as [Hl|Hl].
    + destruct (t !! x) as [rx|] eqn:Hx; simpl.
      * rewrite (IH _ Hl). destruct (t !! k) eqn:Hkt; [done|].
        apply lookup_insert_ne. congruence.
      * by apply IH.
    + apply elem_of_cons in Hk as [->|Hk]; [|done].
      assert (Hskip : forall ex : gmap str (option (list str)),
        foldl (fun (ex0 : gmap str (option (list str))) '(id, sources) =>
                 <[id:=sources]> ex0) ex
          (omap (fun k => (fun r => (k, row_sources r)) <$> t !! k) l) !! x
        = ex !! x).
      { clear IH. induction l as [|y l IHl]; intros ex; [done|].
        simpl. apply not_elem_of_cons in Hl as [Hne Hl].
        destruct (t !! y) as [ry|]; simpl; [|by apply IHl].
        rewrite (IHl Hl). by apply lookup_insert_ne. }
      destruct (t !! x) as [rx|] eqn:Hx; simpl; rewrite Hskip; [|done].
      apply lookup_insert_eq.
  - assert (Hk' : k ∉ remove_dups chunk) by (by rewrite <- Hin).
    clear Hin Hk. revert existing.
    induction (remove_dups chunk) as [|x l IH]; intros existing; [done|].
    simpl. apply not_elem_of_cons in Hk' as [Hne Hl].
    destruct (t !! x) as [rx|]; simpl; [|by apply IH].
    rewrite (IH Hl). by apply lookup_insert_ne.
Qed.

Lemma fetched_lookup (t : gmap str row) (chunks : list (list str))
    (existing : gmap str (option (list str))) (k : str) :
  foldl (fun ex chunk => remember_rows ex (select_rows t chunk))
        existing chunks !! k
  = if decide (k ∈ concat chunks)
    then match t !! k with
         | Some r => Some (row_sources r)
         | None => existing !! k
         end
    else existing !! k.
Proof.
  revert existing. induction chunks as [|chunk rest IH]; intros existing.
  { simpl. destruct (decide (k ∈ [])) as [Hk|]; [|done].
    by apply elem_of_nil in Hk. }
  simpl. rewrite IH, remember_select_lookup.
  destruct (decide (k ∈ concat rest)), (decide (k ∈ chunk)),
    (decide (k ∈ chunk ++ concat rest)) as [Hin|Hout];
    try done; try (destruct (t !! k); done);
    try (exfalso; apply Hout; apply elem_of_app; by eauto).
  apply elem_of_app in Hin as [|]; done.
Qed.

Lemma fetch_existing_clear (chunks : list (list str))
    (existing : gmap str (option (list str))) (c : gmap str row)
    (t : option (gmap str row)) :
  fetch_existing chunks existing (mkDb c t [])
  = (Ok (foldl (fun ex chunk =>
                  remember_rows ex (select_rows (default c t) chunk))
               existing chunks),
     mkDb c t []).
Proof.
  revert existing. induction chunks as [|chunk rest IH]; intros existing;
    [done|].
  simpl. unfold bind at 1. simpl. apply IH.
Qed.

Lemma merge_loop_clear (existing : gmap str (option (list str)))
    (source : str) (now : Z) (index : nat)
    (prepared : list (record * str * str))
    (c : gmap str row) (t : option (gmap str row)) :
  merge_loop existing source now index prepared (mkDb c t [])
  = (Ok (length (collected existing source now index prepared),
         known existing prepared,
         collected existing source now index prepared),
     mkDb c (foldl (update_txn existing source c) t prepared) []).
Proof.
  revert index t. induction prepared as [|[[record key] dn] rest IH];
    intros index t; [done|].
  cbn [merge_loop collected known foldl]. unfold update_txn at 2. simpl.
  destruct (existing !! key) as [sources_raw|] eqn:Hex.
  - unfold bind at 1. case_bool_decide.
    + simpl. unfold bind at 1. by rewrite IH.
    + simpl. unfold bind at 1. by rewrite IH.
  - unfold bind at 1. by rewrite IH.
Qed.

Lemma execute_insert_clear (key : str) (r : row) (c : gmap str row)
    (t : option (gmap str row)) :
  execute_insert key r (mkDb c t [])
  = match default c t !! key with
    | Some _ => (Raise IntegrityError, mkDb c t [])
    | None => (Ok tt, mkDb c (Some (<[key := r]> (default c t))) [])
    end.
Proof.
  unfold execute_insert, bind, io, view, write. simpl.
  by destruct (default c t !! key).
Qed.

Lemma executemany_insert_clear_Ok (inserts : list (str * row))
    (c : gmap str row) (t : option (gmap str row)) (s1 : db) :
  executemany_insert inserts (mkDb c t []) = (Ok tt, s1) ->
  NoDup inserts.*1
  /\ (forall k, k ∈ inserts.*1 -> default c t !! k = None)
  /\ s1 = mkDb c (match inserts with
                  | [] => t
                  | _ :: _ => Some (insert_all (default c t) inserts)
                  end) [].
Proof.
  revert t. induction inserts as [|[key r] rest IH]; intros t.
  - intros [= <-]. split; [constructor|]. split; [|done].
    intros k Hk. by apply elem_of_nil in Hk.
  - cbn [executemany_insert]. unfold bind at 1.
    rewrite execute_insert_clear.
    destruct (default c t !! key) eqn:Hfresh; [done|].
    intros Hrest. apply IH in Hrest as (Hnodup & Hrest & ->).
    cbn [default] in Hrest. rewrite fmap_cons. cbn [fst].
    assert (Hkey : key ∉ rest.*1).
    { intros Hin. apply Hrest in Hin. simpl in Hin.
      by rewrite lookup_insert_eq in Hin. }
    split; [by constructor|]. split.
    + intros k [->|Hk]%elem_of_cons; [done|].
      specialize (Hrest k Hk). simpl in Hrest.
      rewrite lookup_insert_ne in Hrest; [done|].
      congruence.
    + by destruct rest.
Qed.

Lemma executemany_insert_clear (inserts : list (str * row))
    (c : gmap str row) (t : option (gmap str row)) :
  NoDup inserts.*1 ->
  (forall k, k ∈ inserts.*1 -> default c t !! k = None) ->
  executemany_insert inserts (mkDb c t [])
  = (Ok tt, mkDb c (match inserts with
                    | [] => t
                    | _ :: _ => Some (insert_all (default c t) inserts)
                    end) []).
Proof.
  revert t. induction inserts as [|[key r] rest IH]; intros t Hnodup Hfresh;
    [done|].
  rewrite fmap_cons in Hnodup, Hfresh. cbn [fst] in Hnodup, Hfresh.
  cbn [executemany_insert]. unfold bind at 1. rewrite execute_insert_clear.
  rewrite (Hfresh key) by (apply elem_of_cons; by left).
  apply NoDup_cons in Hnodup as [Hkey Hnodup]. rewrite IH; [|done|].
  - by destruct rest.
  - intros k Hk. simpl. rewrite lookup_insert_ne.
    + apply Hfresh. apply elem_of_cons. by right.
    + congruence.
Qed.

(** ** The merged table, key by key *)

Lemma existing_of_lookup (c : gmap str row)
    (prepared : list (record * str * str)) (k : str) :
  existing_of c prepared !! k
  = if decide (k ∈ keys_of prepared) then row_sources <$> c !! k else None.
Proof.
  unfold existing_of. rewrite fetched_lookup, concat_chunked by lia.
  rewrite lookup_empty. destruct (decide _); [|done]. by destruct (c !! k).
Qed.

Lemma touch_twice (existing : gmap str (option (list str))) (source k : str)
    (r : row) :
  touch existing source k (touch existing source k r)
  = touch existing source k r.
Proof.
  unfold touch. destruct (existing !! k); [|done]. by case_bool_decide.
Qed.

Lemma update_txn_lookup (existing : gmap str (option (list str)))
    (source : str) (c : gmap str row) (t : option (gmap str row))
    (p : record * str * str) (k : str) :
  default c (update_txn existing source c t p) !! k
  = (if decide (k = p.1.2) then touch existing source k else id)
    <$> (default c t !! k).
Proof.
  unfold update_txn, touch. destruct (decide (k = p.1.2)) as [->|Hne].
  - destruct (existing !! p.1.2) as [raw|]; [|by rewrite option_fmap_id].
    case_bool_decide; [by rewrite option_fmap_id|]. simpl.
    by rewrite lookup_alter_eq.
  - rewrite option_fmap_id. destruct (existing !! p.1.2) as [raw|]; [|done].
    case_bool_decide; [done|]. simpl. by rewrite lookup_alter_ne.
Qed.

Lemma updated_lookup (existing : gmap str (option (list str)))
    (source : str) (c : gmap str row) (t : option (gmap str row))
    (prepared : list (record * str * str)) (k : str) :
  default c (foldl (update_txn existing source c) t prepared) !! k
  = (if decide (k ∈ keys_of prepared) then touch existing source k else id)
    <$> (default c t !! k).
Proof.
  revert t. induction prepared as [|p rest IH]; intros t.
  { simpl. destruct (decide (k ∈ [])) as [Hk|]; [|by rewrite option_fmap_id].
    by apply elem_of_nil in Hk. }
  cbn [foldl keys_of map]. rewrite IH, update_txn_lookup.
  fold (keys_of rest).
  rewrite <- option_fmap_compose.
  destruct (default c t !! k) as [r|]; [|done]. simpl. f_equal.
  destruct (decide (k ∈ keys_of rest)) as [Hrest|Hrest],
    (decide (k = p.1.2)) as [Hhead|Hhead],
    (decide (k ∈ p.1.2 :: keys_of rest)) as [Hin|Hout];
    try done.
  - apply touch_twice.
  - exfalso. apply Hout, elem_of_cons. by left.
  - exfalso. apply Hout, elem_of_cons. by right.
  - exfalso. apply Hout, elem_of_cons. by left.
  - apply elem_of_cons in Hin as [|]; done.
Qed.

Lemma collected_keys (existing : gmap str (option (list str)))
    (source : str) (now : Z) (index : nat)
    (prepared : list (record * str * str)) (k : str) :
  k ∈ (collected existing source now index prepared).*1
  <-> k ∈ keys_of prepared /\ existing !! k = None.
Proof.
  revert index. induction prepared as [|[[record key] dn] rest IH];
    intros index.
  { simpl. split; [by intros ?%elem_of_nil | by intros [?%elem_of_nil _]]. }
  cbn [collected keys_of map]. fold (keys_of rest). simpl.
  destruct (existing !! key) as [raw|] eqn:Hex.
  - rewrite IH, elem_of_cons. split; [by intuition|].
    intros [[->|Hin] Hnone]; [congruence | done].
  - rewrite fmap_cons, !elem_of_cons, IH. cbn [fst]. split.
    + intros [->|[Hin Hnone]]; [by split; [left|] | by split; [right|]].
    + intros [[->|Hin] Hnone]; [by left | by right].
Qed.

Lemma collected_rows (existing : gmap str (option (list str)))
    (source : str) (now : Z) (index : nat)
    (prepared : list (record * str * str)) (k : str) (r : row) :
  (k, r) ∈ collected existing source now index prepared ->
  exists record dn j,
    prepared !! j = Some (record, k, dn)
    /\ r = new_row record dn source (now + Z.of_nat (index + j)).
Proof.
  revert index. induction prepared as [|[[record key] dn] rest IH];
    intros index.
  { by intros ?%elem_of_nil. }
  cbn [collected]. destruct (existing !! key) as [raw|].
  - intros (record' & dn' & j & Hj & ->)%IH. exists record', dn', (S j).
    split; [done|]. do 2 f_equal. lia.
  - intros [[= -> ->]|Hin]%elem_of_cons.
    + exists record, dn, 0%nat. split; [done|]. do 2 f_equal. lia.
    + apply IH in Hin as (record' & dn' & j & Hj & ->).
      exists record', dn', (S j). split; [done|]. do 2 f_equal. lia.
Qed.

Lemma collected_known_length (existing : gmap str (option (list str)))
    (source : str) (now : Z) (index : nat)
    (prepared : list (record * str * str)) :
  (length (collected existing source now index prepared)
   + known existing prepared = length prepared)%nat.
Proof.
  revert index. induction prepared as [|[[record key] dn] rest IH];
    intros index; [done|].
  cbn [collected known length]. simpl.
  specialize (IH (S index)). destruct (existing !! key); simpl; lia.
Qed.

Lemma insert_all_notin (t : gmap str row) (inserts : list (str * row))
    (k : str) :
  k ∉ inserts.*1 -> insert_all t inserts !! k = t !! k.
Proof.
  unfold insert_all. revert t.
  induction inserts as [|[key r] rest IH]; intros t Hk; [done|].
  rewrite fmap_cons in Hk. apply not_elem_of_cons in Hk as [Hne Hk].
  simpl. rewrite (IH _ Hk). by apply lookup_insert_ne.
Qed.

Lemma insert_all_in (t : gmap str row) (inserts : list (str * row))
    (k : str) (r : row) :
  NoDup inserts.*1 -> (k, r) ∈ inserts -> insert_all t inserts !! k = Some r.
Proof.
  unfold insert_all. revert t.
  induction inserts as [|[key r'] rest IH]; intros t Hnodup Hin.
  { by apply elem_of_nil in Hin. }
  rewrite fmap_cons in Hnodup. apply NoDup_cons in Hnodup as [Hkey Hnodup].
  simpl. apply elem_of_cons in Hin as [[= -> ->]|Hin].
  - fold (insert_all (<[key:=r']> t) rest).
    rewrite insert_all_notin by done. apply lookup_insert_eq.
  - by apply IH.
Qed.

(** A row that was stored before the call. *)
Lemma merged_stored (c : gmap str row) (prepared : list (record * str * str))
    (source : str) (now : Z) (k : str) (r : row) :
  c !! k = Some r ->
  merged c prepared source now !! k
  = Some (if decide (k ∈ keys_of prepared) then add_source source r else r).
Proof.
  intros Hk. unfold merged. rewrite insert_all_notin.
  - rewrite updated_lookup. simpl. rewrite Hk. simpl. f_equal.
    destruct (decide (k ∈ keys_of prepared)) as [Hin|]; [|done].
    unfold touch, add_source. rewrite existing_of_lookup, Hk.
    rewrite decide_True by done. simpl. by case_bool_decide.
  - intros [Hin Hnone]%collected_keys.
    rewrite existing_of_lookup, Hk, decide_True in Hnone by done. done.
Qed.

(** A key of the batch that was not stored before the call. *)
Lemma merged_new (c : gmap str row) (prepared : list (record * str * str))
    (source : str) (now : Z) (k : str) :
  NoDup (collected (existing_of c prepared) source now 0 prepared).*1 ->
  c !! k = None -> k ∈ keys_of prepared ->
  exists record dn j,
    prepared !! j = Some (record, k, dn)
    /\ merged c prepared source now !! k
       = Some (new_row record dn source (now + Z.of_nat j)).
Proof.
  intros Hnodup Hk Hin.
  assert (Hcol : k ∈ (collected (existing_of c prepared) source now 0
                        prepared).*1).
  { apply collected_keys. split; [done|].
    by rewrite existing_of_lookup, Hk, decide_True. }
  apply list_elem_of_fmap in Hcol as ([k' r] & -> & Hrow). simpl in *.
  destruct (collected_rows _ _ _ _ _ _ _ Hrow) as (record & dn & j & Hj & ->).
  exists record, dn, j. split; [done|]. unfold merged.
  by rewrite (insert_all_in _ _ _ _ Hnodup Hrow).
Qed.

(** A key that is neither stored nor in the batch. *)
Lemma merged_other (c : gmap str row) (prepared : list (record * str * str))
    (source : str) (now : Z) (k : str) :
  k ∉ keys_of prepared -> merged c prepared source now !! k = c !! k.
Proof.
  intros Hk. unfold merged. rewrite insert_all_notin.
  - rewrite updated_lookup, decide_False by done. simpl.
    by rewrite option_fmap_id.
  - by intros [Hin _]%collected_keys.
Qed.

(** ** One call of [insert_records] *)

Lemma bind_run {A B} (c : DB A) (k : A -> DB B) (s s1 : db) (a : A) :
  c s = (Ok a, s1) -> bind c k s = k a s1.
Proof. intros Hrun. unfold bind. by rewrite Hrun. Qed.

Lemma collected_fresh (c : gmap str row)
    (prepared : list (record * str * str)) (source : str) (now : Z)
    (k : str) :
  k ∈ (collected (existing_of c prepared) source now 0 prepared).*1 ->
  default c (foldl (update_txn (existing_of c prepared) source c) None
               prepared) !! k = None.
Proof.
  intros [Hin Hnone]%collected_keys.
  rewrite existing_of_lookup, decide_True in Hnone by done.
  rewrite updated_lookup. simpl. by destruct (c !! k).
Qed.

Lemma merge_clear (prepared : list (record * str * str)) (source : str)
    (now : Z) (c : gmap str row) :
  NoDup (collected (existing_of c prepared) source now 0 prepared).*1 ->
  merge prepared source now (mkDb c None [])
  = (Ok (length (collected (existing_of c prepared) source now 0 prepared),
         known (existing_of c prepared) prepared),
     mkDb (merged c prepared source now) None []).
Proof.
  intros Hnodup. unfold merge.
  erewrite bind_run by apply fetch_existing_clear. cbv beta.
  fold (keys_of prepared). cbn [default]. fold (existing_of c prepared).
  erewrite bind_run by apply merge_loop_clear. cbv beta iota.
  unfold merged.
  set (existing := existing_of c prepared) in *.
  set (inserts := collected existing source now 0 prepared) in *.
  set (t := foldl (update_txn existing source c) None prepared).
  assert (Hrun : executemany_insert inserts (mkDb c t [])
                 = (Ok tt, mkDb c (match inserts with
                                   | [] => t
                                   | _ :: _ => Some (insert_all (default c t) inserts)
                                   end) [])).
  { apply executemany_insert_clear; [done|].
    intros k Hk. by apply (collected_fresh c prepared source now). }
  destruct inserts as [|p rest] eqn:Hins.
  - erewrite bind_run by reflexivity. reflexivity.
  - erewrite bind_run by exact Hrun. reflexivity.
Qed.

Lemma merge_clear_Ok (prepared : list (record * str * str)) (source : str)
    (now : Z) (c : gmap str row) (a d : nat) (s1 : db) :
  merge prepared source now (mkDb c None []) = (Ok (a, d), s1) ->
  NoDup (collected (existing_of c prepared) source now 0 prepared).*1.
Proof.
  unfold merge.
  erewrite bind_run by apply fetch_existing_clear. cbv beta.
  fold (keys_of prepared). cbn [default]. fold (existing_of c prepared).
  erewrite bind_run by apply merge_loop_clear. cbv beta iota.
  set (inserts := collected (existing_of c prepared) source now 0 prepared).
  destruct inserts as [|p rest] eqn:Hins; [constructor|].
  intros (u & s0 & Hrun & _)%bind_Ok. destruct u.
  by apply executemany_insert_clear_Ok in Hrun as (Hnodup & _).
Qed.

Lemma get_connection_clear (c : gmap str row) (t : option (gmap str row)) :
  get_connection (mkDb c t []) = (Ok tt, mkDb c None []).
Proof. done. Qed.

Section Calls.
Context `{Unicodedata}.

(** The call on a database without faults, when no key is collected twice. *)
Lemma insert_records_clear (records : list record) (source : str) (now : Z)
    (c : gmap str row) (t : option (gmap str row))
    (prepared : list (record * str * str)) (ignored : nat) :
  prepare records = Ok (prepared, ignored) ->
  NoDup (collected (existing_of c prepared) source now 0 prepared).*1 ->
  exists s1,
    insert_records records source now (mkDb c t [])
    = (Ok (length (collected (existing_of c prepared) source now 0 prepared),
           known (existing_of c prepared) prepared, ignored), s1)
    /\ committed s1 = merged c prepared source now
    /\ faults s1 = [].
Proof.
  intros Hprep Hnodup. unfold insert_records.
  destruct records as [|r rest].
  { injection Hprep as <- <-. by eexists. }
  rewrite Hprep. destruct prepared as [|p prepared]; [by eexists|].
  eexists. split.
  - rewrite (bind_run _ _ _ _ _ (get_connection_clear c t)).
    erewrite bind_run.
    2: { unfold try_finally. rewrite (merge_clear _ _ _ _ Hnodup).
         reflexivity. }
    reflexivity.
  - done.
Qed.

(** A call that returns, under any faults. *)
Lemma insert_records_Ok (records : list record) (source : str) (now : Z)
    (s s1 : db) (a d i : nat) :
  insert_records records source now s = (Ok (a, d, i), s1) ->
  exists prepared,
    prepare records = Ok (prepared, i)
    /\ NoDup (collected (existing_of (committed s) prepared) source now 0
                prepared).*1
    /\ a = length (collected (existing_of (committed s) prepared) source now 0
                     prepared)
    /\ d = known (existing_of (committed s) prepared) prepared
    /\ committed s1 = merged (committed s) prepared source now.
Proof.
  intros Hrun%fault_free_insert_records. revert Hrun.
  unfold clear at 1. generalize (committed s) (txn s). intros c t.
  change (committed s1) with (committed (clear s1)).
  generalize (clear s1). clear s s1. intros s1.
  unfold insert_records. destruct records as [|r rest].
  { intros [= <- <- <- <-]. exists []. repeat split; try done. constructor. }
  destruct (prepare (r :: rest)) as [[prepared ignored]|e] eqn:Hprep; [|done].
  destruct prepared as [|p prepared].
  { intros [= <- <- <- <-]. exists []. repeat split; try done. constructor. }
  rewrite (bind_run _ _ _ _ _ (get_connection_clear c t)).
  intros ([a' d'] & s0 & Hbody & [= <- <- <- <-])%bind_Ok.
  unfold try_finally in Hbody.
  destruct (merge (p :: prepared) source now (mkDb c None []))
    as [res s2] eqn:Hmerge.
  simpl in Hbody. injection Hbody as -> <-.
  pose proof (merge_clear_Ok _ _ _ _ _ _ _ Hmerge) as Hnodup.
  rewrite (merge_clear _ _ _ _ Hnodup) in Hmerge.
  injection Hmerge as <- <- <-.
  exists (p :: prepared). done.
Qed.

End Calls.

(** ** When a call returns *)

Lemma collected_fst_new (existing : gmap str (option (list str)))
    (c : gmap str row) (source : str) (now : Z) (index : nat)
    (prepared : list (record * str * str)) :
  (forall k, k ∈ keys_of prepared -> existing !! k = None <-> c !! k = None) ->
  (collected existing source now index prepared).*1
  = filter (fun k => c !! k = None) (keys_of prepared).
Proof.
  revert index. induction prepared as [|[[record key] dn] rest IH];
    intros index Hex; [done|].
  cbn [collected keys_of map]. fold (keys_of rest). simpl.
  rewrite filter_cons.
  assert (Hrest : forall k, k ∈ keys_of rest ->
                    existing !! k = None <-> c !! k = None).
  { intros k Hk. apply Hex, elem_of_cons. by right. }
  specialize (Hex key ltac:(apply elem_of_cons; by left)).
  destruct (existing !! key) as [raw|] eqn:Hkey.
  - rewrite decide_False by (intros Hnone; by apply Hex in Hnone).
    by apply IH.
  - rewrite decide_True by (by apply Hex). rewrite fmap_cons. simpl.
    f_equal. by apply IH.
Qed.

Section Returns.
Context `{Unicodedata}.

(** Without storage faults, a call whose first loop raises nothing returns
    as soon as no two kept records share a key that is not stored yet. *)
Lemma insert_records_returns (records : list record) (source : str) (now : Z)
    (s : db) (prepared : list (record * str * str)) (ignored : nat) :
  prepare records = Ok (prepared, ignored) ->
  faults s = [] ->
  NoDup (filter (fun k => committed s !! k = None) (keys_of prepared)) ->
  exists a d s1,
    insert_records records source now s = (Ok (a, d, ignored), s1).
Proof.
  intros Hprep Hfaults Hnodup. destruct s as [c t fs]. simpl in *. subst fs.
  destruct (insert_records_clear records source now c t prepared ignored Hprep)
    as (s1 & Hrun & _).
  - rewrite (collected_fst_new _ c); [done|].
    intros k Hk. rewrite existing_of_lookup, decide_True by done.
    by destruct (c !! k).
  - eauto.
Qed.

End Returns.

(** A batch that holds a record that is not stored twice does not return:
    the second INSERT violates the primary key. *)
Lemma same_new_record_twice_raises :
  (insert_records (H:=Latin1.unicodedata) [acme; acme] file_A 1000
     empty_db).1
  = Raise IntegrityError.
Proof. evaluate. Qed.

(** A field that [fix_text] repairs into a text with the marker and a
    character above U+00FF is stored, and the page that holds it cannot be
    served. *)
Lemma repaired_field_raises_when_served :
  (insert_records (H:=Latin1.unicodedata) [garbled_euro] file_A 1000
     empty_db).1
  = Ok (1, 0, 0)%nat
  /\ api_rows Absent Absent
       (map_to_list
          (committed (insert_records (H:=Latin1.unicodedata) [garbled_euro]
                        file_A 1000 empty_db).2))
     = Raise UnicodeEncodeError.
Proof. split; evaluate. Qed.

(** ** The first loop *)

Lemma build_key_parts (r : record) :
  build_key r
  = strip (default [] (rEmpRUC r)) ++ lit "||"
    ++ strip (default [] (rEmpRazonSocial r)) ++ lit "||"
    ++ strip (default [] (rEmpNom r)) ++ lit "||"
    ++ strip (default [] (rRepFecha r)) ++ lit "||"
    ++ strip (default [] (rRepLiqEstadoConsulta r)) ++ lit "||"
    ++ strip (default [] (rRepDetalleRechazo r)).
Proof. done. Qed.

Lemma build_key_length (r : record) : (10 <= length (build_key r))%nat.
Proof.
  rewrite build_key_parts, !length_app.
  change (length (lit "||")) with 2%nat. lia.
Qed.

Lemma build_key_nonempty (r : record) : build_key r <> [].
Proof.
  intros Hnil. pose proof (build_key_length r) as Hlen.
  rewrite Hnil in Hlen. simpl in Hlen. lia.
Qed.

Section FirstLoop.
Context `{Unicodedata}.

Lemma prepare_cons (r : record) (rest : list record)
    (prepared : list (record * str * str)) (ignored : nat) :
  prepare (r :: rest) = Ok (prepared, ignored) ->
  exists detail record prepared' ignored',
    fix_text (get r RepDetalleRechazo) = Ok detail
    /\ repair_record r detail = Ok record
    /\ prepare rest = Ok (prepared', ignored')
    /\ if ignorable (normalize_detail detail)
       then prepared = prepared' /\ ignored = S ignored'
       else prepared = (record, build_key record, normalize_detail detail)
                       :: prepared'
            /\ ignored = ignored'.
Proof.
  cbn [prepare].
  destruct (fix_text (get r RepDetalleRechazo)) as [detail|] eqn:Hdetail;
    simpl; [|done].
  destruct (repair_record r detail) as [record|] eqn:Hrecord; simpl; [|done].
  destruct (ignorable (normalize_detail detail)) eqn:Hign.
  - destruct (prepare rest) as [[prepared' ignored']|]; simpl; [|done].
    intros [= <- <-]. exists detail, record, prepared', ignored'.
    by rewrite Hign.
  - pose proof (build_key_nonempty record) as Hkey.
    destruct (build_key record) as [|ch key] eqn:Hk; [done|].
    destruct (prepare rest) as [[prepared' ignored']|]; simpl; [|done].
    intros [= <- <-]. exists detail, record, prepared', ignored'.
    by rewrite Hign, Hk.
Qed.

Lemma prepare_length (records : list record)
    (prepared : list (record * str * str)) (ignored : nat) :
  prepare records = Ok (prepared, ignored) ->
  (length prepared + ignored = length records)%nat.
Proof.
  revert prepared ignored.
  induction records as [|r rest IH]; intros prepared ignored.
  { by intros [= <- <-]. }
  intros (detail & record & prepared' & ignored' & _ & _ & Hrest & Hcase)
    %prepare_cons.
  specialize (IH _ _ Hrest).
  destruct (ignorable _); destruct Hcase as [-> ->]; simpl; lia.
Qed.

Lemma prepare_kept (records : list record)
    (prepared : list (record * str * str)) (ignored : nat) :
  prepare records = Ok (prepared, ignored) ->
  prepare (List.filter is_kept records) = Ok (prepared, 0%nat)
  /\ ignored = length (List.filter is_ignored records).
Proof.
  revert prepared ignored.
  induction records as [|r rest IH]; intros prepared ignored.
  { by intros [= <- <-]. }
  intros Hprep.
  destruct (prepare_cons _ _ _ _ Hprep)
    as (detail & record & prepared' & ignored' & Hdetail & Hrecord & Hrest
        & Hcase).
  destruct (IH _ _ Hrest) as [IHkept IHign].
  assert (Hi : is_ignored r = ignorable (normalize_detail detail))
    by (unfold is_ignored; by rewrite Hdetail).
  assert (Hk : is_kept r = negb (ignorable (normalize_detail detail)))
    by (unfold is_kept; by rewrite Hi).
  cbn [List.filter]. rewrite Hi, Hk. clear Hi Hk.
  destruct (ignorable (normalize_detail detail)) eqn:Hign;
    destruct Hcase as [-> ->]; cbn [negb].
  - split; [done|]. simpl. by rewrite IHign.
  - split; [|done]. cbn [prepare]. rewrite Hdetail. simpl.
    rewrite Hrecord. simpl. rewrite Hign.
    pose proof (build_key_nonempty record) as Hkey.
    destruct (build_key record) as [|ch key] eqn:Hk; [done|].
    by rewrite IHkept.
Qed.

Lemma insert_records_prepared (records : list record) (source : str)
    (now : Z) (prepared : list (record * str * str)) (ignored : nat) :
  prepare records = Ok (prepared, ignored) ->
  insert_records records source now
  = insert_prepared prepared ignored source now.
Proof.
  intros Hprep. unfold insert_records, insert_prepared.
  destruct records as [|r rest]; [by injection Hprep as <- <-|].
  by rewrite Hprep.
Qed.

Lemma insert_prepared_ignored (prepared : list (record * str * str))
    (ignored ignored' : nat) (source : str) (now : Z) (s s1 : db)
    (a d i : nat) :
  insert_prepared prepared ignored source now s = (Ok (a, d, i), s1) ->
  i = ignored
  /\ insert_prepared prepared ignored' source now s = (Ok (a, d, ignored'), s1).
Proof.
  unfold insert_prepared. destruct prepared as [|p prepared].
  { by intros [= <- <- <- <-]. }
  intros (u & s0 & Hconn & ([a' d'] & s2 & Hbody & [= <- <- <- <-])%bind_Ok)
    %bind_Ok.
  split; [done|].
  rewrite (bind_run _ _ _ _ _ Hconn). by rewrite (bind_run _ _ _ _ _ Hbody).
Qed.

(** C10: the key of a record is its six trimmed fields joined by five
    delimiters, so it is never empty; and when a call returns its counters,
    [added + duplicates + ignored] is the number of records of the batch. *)
Theorem insert_records_counts :
  (forall r : record,
      build_key r
      = strip (default [] (rEmpRUC r)) ++ lit "||"
        ++ strip (default [] (rEmpRazonSocial r)) ++ lit "||"
        ++ strip (default [] (rEmpNom r)) ++ lit "||"
        ++ strip (default [] (rRepFecha r)) ++ lit "||"
        ++ strip (default [] (rRepLiqEstadoConsulta r)) ++ lit "||"
        ++ strip (default [] (rRepDetalleRechazo r))
      /\ build_key r <> [])
  /\ (forall records source now s s1 a d i,
         insert_records records source now s = (Ok (a, d, i), s1) ->
         (a + d + i = length records)%nat).
Proof.
  split.
  - intros r. split; [apply build_key_parts | apply build_key_nonempty].
  - intros records source now s s1 a d i Hrun.
    apply insert_records_Ok in Hrun
      as (prepared & Hprep & _ & -> & -> & _).
    apply prepare_length in Hprep.
    pose proof (collected_known_length
                  (existing_of (committed s) prepared) source now 0 prepared).
    lia.
Qed.

End FirstLoop.

Lemma insert_records_counts_witness :
  build_key acme = acme_key
  /\ exists s1,
       insert_records (H:=Latin1.unicodedata) [acme; not_in_force] file_A 1000 empty_db
       = (Ok (1, 0, 1)%nat, s1)
       /\ (1 + 0 + 1 = length [acme; not_in_force])%nat.
Proof.
  destruct (@insert_records_counts Latin1.unicodedata) as [Hkey Hcount].
  split; [by rewrite (proj1 (Hkey acme))|].
  exists (insert_records (H:=Latin1.unicodedata) [acme; not_in_force] file_A 1000 empty_db).2.
  assert (Hrun : insert_records (H:=Latin1.unicodedata) [acme; not_in_force] file_A 1000 empty_db
                 = (Ok (1, 0, 1)%nat,
                    (insert_records (H:=Latin1.unicodedata) [acme; not_in_force] file_A 1000
                       empty_db).2))
    by evaluate.
  split; [exact Hrun|]. exact (Hcount _ _ _ _ _ _ _ _ Hrun).
Defined.

(** ** Ignorable records *)

Section Ignorable.
Context `{Unicodedata}.

(** C2: in a call that returns, [ignored] is the number of records whose
    repaired and normalized rejection detail starts with an ignorable prefix;
    these records are neither added nor duplicates, and the call leaves the
    database as the same call without them does: only keys of the other
    records are touched, and nothing is when there are no others. *)
Theorem ignorable_records_dropped (records : list record) (source : str)
    (now : Z) (s s1 : db) (a d i : nat) :
  insert_records records source now s = (Ok (a, d, i), s1) ->
  i = length (List.filter is_ignored records)
  /\ (a + d = length (List.filter is_kept records))%nat
  /\ insert_records (List.filter is_kept records) source now s
     = (Ok (a, d, 0%nat), s1)
  /\ (exists prepared,
         prepare (List.filter is_kept records) = Ok (prepared, 0%nat)
         /\ forall k, k ∉ keys_of prepared ->
                      committed s1 !! k = committed s !! k)
  /\ (List.filter is_kept records = [] ->
      a = 0%nat /\ d = 0%nat /\ s1 = s).
Proof.
  intros Hrun.
  destruct (insert_records_Ok _ _ _ _ _ _ _ _ Hrun)
    as (prepared & Hprep & _ & Ha & Hd & Hstore).
  destruct (prepare_kept _ _ _ Hprep) as [Hkept Hign].
  rewrite (insert_records_prepared _ _ _ _ _ Hprep) in Hrun.
  destruct (insert_prepared_ignored _ _ 0%nat _ _ _ _ _ _ _ Hrun)
    as [_ Hrun0].
  rewrite <- (insert_records_prepared _ _ _ _ _ Hkept) in Hrun0.
  split; [done|]. split.
  { pose proof (prepare_length _ _ _ Hkept).
    pose proof (collected_known_length
                  (existing_of (committed s) prepared) source now 0 prepared).
    lia. }
  split; [done|]. split.
  { exists prepared. split; [done|]. intros k Hk.
    rewrite Hstore. by apply merged_other. }
  intros Hnone. rewrite Hnone in Hrun0. by injection Hrun0 as <- <- <-.
Qed.

End Ignorable.

Lemma ignorable_records_dropped_witness :
  is_ignored (H:=Latin1.unicodedata) not_in_force = true
  /\ exists s1,
       insert_records (H:=Latin1.unicodedata) [acme; not_in_force] file_A
         1000 empty_db
       = (Ok (1, 0, 1)%nat, s1)
       /\ 1%nat = length (List.filter (is_ignored (H:=Latin1.unicodedata))
                            [acme; not_in_force])
       /\ insert_records (H:=Latin1.unicodedata)
            (List.filter (is_kept (H:=Latin1.unicodedata))
               [acme; not_in_force]) file_A 1000 empty_db
          = (Ok (1, 0, 0)%nat, s1).
Proof.
  split; [evaluate|].
  exists (insert_records (H:=Latin1.unicodedata) [acme; not_in_force] file_A
            1000 empty_db).2.
  assert (Hrun : insert_records (H:=Latin1.unicodedata) [acme; not_in_force]
                   file_A 1000 empty_db
                 = (Ok (1, 0, 1)%nat,
                    (insert_records (H:=Latin1.unicodedata)
                       [acme; not_in_force] file_A 1000 empty_db).2))
    by evaluate.
  split; [exact Hrun|].
  destruct (ignorable_records_dropped _ _ _ _ _ _ _ _ Hrun)
    as (Hign & _ & Hkept & _).
  split; [exact Hign | exact Hkept].
Defined.

(** ** Records whose key is stored *)

Lemma add_source_sources (source : str) (r : row) :
  default [] (row_sources (add_source source r))
  = if bool_decide (source ∈ default [] (row_sources r))
    then default [] (row_sources r)
    else default [] (row_sources r) ++ [source].
Proof. unfold add_source. by case_bool_decide. Qed.

Lemma add_source_member (source : str) (r : row) :
  source ∈ default [] (row_sources (add_source source r)).
Proof.
  rewrite add_source_sources. case_bool_decide; [done|].
  apply elem_of_app. right. by apply list_elem_of_singleton.
Qed.

Lemma add_source_present (source : str) (r : row) :
  source ∈ default [] (row_sources r) -> add_source source r = r.
Proof. intros Hin. unfold add_source. by rewrite bool_decide_eq_true_2. Qed.

Lemma known_stored (existing : gmap str (option (list str)))
    (c : gmap str row) (prepared : list (record * str * str)) :
  (forall p, p ∈ prepared -> existing !! p.1.2 = row_sources <$> c !! p.1.2) ->
  known existing prepared
  = length (filter (fun p => is_Some (c !! p.1.2)) prepared).
Proof.
  induction prepared as [|p rest IH]; intros Hex; [done|].
  cbn [known]. rewrite filter_cons.
  rewrite (Hex p) by (apply elem_of_cons; by left).
  rewrite IH by (intros q Hq; apply Hex, elem_of_cons; by right).
  destruct (decide (is_Some (c !! p.1.2))) as [[r Hr]|Hno].
  - by rewrite Hr.
  - apply eq_None_not_Some in Hno. by rewrite Hno.
Qed.

Lemma known_existing_of (c : gmap str row)
    (prepared : list (record * str * str)) :
  known (existing_of c prepared) prepared
  = length (filter (fun p => is_Some (c !! p.1.2)) prepared).
Proof.
  apply known_stored. intros p Hp. rewrite existing_of_lookup.
  rewrite decide_True; [done|].
  apply list_elem_of_fmap. by exists p.
Qed.

Lemma merged_has_source (c : gmap str row)
    (prepared : list (record * str * str)) (source : str) (now : Z)
    (k : str) :
  NoDup (collected (existing_of c prepared) source now 0 prepared).*1 ->
  k ∈ keys_of prepared ->
  exists r, merged c prepared source now !! k = Some r
            /\ source ∈ default [] (row_sources r).
Proof.
  intros Hnodup Hk. destruct (c !! k) as [r|] eqn:Hc.
  - eexists. split; [by apply merged_stored|].
    rewrite decide_True by done. apply add_source_member.
  - destruct (merged_new _ _ _ _ _ Hnodup Hc Hk)
      as (record & dn & j & _ & ->).
    eexists. split; [done|]. simpl. by apply list_elem_of_singleton.
Qed.

Section Duplicates.
Context `{Unicodedata}.

(** C7: in a call that returns, the records that count as duplicates are
    the kept records whose key is stored; a row stored before the call whose
    key is the key of such a record, and whose sources do not hold the source
    label, has the label added at the end of its sources and every other
    field as before; any other stored row is as before.  The record [acme]
    ingested from file A and then from file B gives one row with sources
    [A; B], counted as added by the first call and as duplicate by the
    second. *)
Theorem duplicate_adds_source (records : list record) (source : str)
    (now : Z) (s s1 : db) (a d i : nat) :
  insert_records records source now s = (Ok (a, d, i), s1) ->
  (exists prepared,
      prepare records = Ok (prepared, i)
      /\ d = length (filter (fun p => is_Some (committed s !! p.1.2)) prepared)
      /\ forall k r,
           committed s !! k = Some r ->
           committed s1 !! k
           = Some (if bool_decide (k ∈ keys_of prepared
                                   /\ source ∉ default [] (row_sources r))
                   then set_sources (default [] (row_sources r) ++ [source]) r
                   else r))
  /\ (forall sources r,
         same_but_sources r (set_sources sources r)
         /\ row_sources (set_sources sources r) = Some sources)
  /\ (insert_records (H:=Latin1.unicodedata) [acme] file_A 1000 empty_db).1
     = Ok (1, 0, 0)%nat
  /\ (insert_records (H:=Latin1.unicodedata) [acme] file_B 2000
        (insert_records (H:=Latin1.unicodedata) [acme] file_A 1000
           empty_db).2).1
     = Ok (0, 1, 0)%nat
  /\ map (fun entry => (entry.1, row_sources entry.2))
         (map_to_list
            (committed
               (insert_records (H:=Latin1.unicodedata) [acme] file_B 2000
                  (insert_records (H:=Latin1.unicodedata) [acme] file_A 1000
                     empty_db).2).2))
     = [(acme_key, Some [file_A; file_B])].
Proof.
  intros Hrun. split.
  - destruct (insert_records_Ok _ _ _ _ _ _ _ _ Hrun)
      as (prepared & Hprep & _ & _ & -> & Hstore).
    exists prepared. split; [done|]. split; [apply known_existing_of|].
    intros k r Hk. rewrite Hstore, (merged_stored _ _ _ _ _ _ Hk).
    f_equal. unfold add_source.
    destruct (decide (k ∈ keys_of prepared)) as [Hin|Hout].
    + case_bool_decide as Hsrc.
      * rewrite bool_decide_eq_false_2; [done|]. by intros [_ Hno].
      * by rewrite bool_decide_eq_true_2.
    + rewrite bool_decide_eq_false_2; [done|]. by intros [Hin _].
  - split; [by repeat split|]. split; [evaluate|]. split; evaluate.
Qed.

End Duplicates.

Lemma duplicate_adds_source_witness :
  exists s2,
    insert_records (H:=Latin1.unicodedata) [acme] file_B 2000
      (mkDb table_A None [])
    = (Ok (0, 1, 0)%nat, s2)
    /\ exists prepared,
         prepare (H:=Latin1.unicodedata) [acme] = Ok (prepared, 0%nat)
         /\ 1%nat = length (filter (fun p => is_Some (table_A !! p.1.2))
                              prepared).
Proof.
  exists (insert_records (H:=Latin1.unicodedata) [acme] file_B 2000
            (mkDb table_A None [])).2.
  assert (Hrun : insert_records (H:=Latin1.unicodedata) [acme] file_B 2000
                   (mkDb table_A None [])
                 = (Ok (0, 1, 0)%nat,
                    (insert_records (H:=Latin1.unicodedata) [acme] file_B
                       2000 (mkDb table_A None [])).2))
    by evaluate.
  split; [exact Hrun|].
  destruct (duplicate_adds_source _ _ _ _ _ _ _ _ Hrun)
    as [(prepared & Hprep & Hd & _) _].
  exists prepared. split; [exact Hprep | exact Hd].
Defined.

(** ** The same batch again *)

Lemma collected_nil (existing : gmap str (option (list str))) (source : str)
    (now : Z) (index : nat) (prepared : list (record * str * str)) :
  (forall k, k ∈ keys_of prepared -> is_Some (existing !! k)) ->
  collected existing source now index prepared = []
  /\ known existing prepared = length prepared.
Proof.
  revert index. induction prepared as [|[[record key] dn] rest IH];
    intros index Hall; [done|].
  cbn [collected known length]. simpl.
  destruct (Hall key) as [raw ->]; [apply elem_of_cons; by left|].
  destruct (IH (S index)) as [-> ->]; [|done].
  intros k Hk. apply Hall, elem_of_cons. by right.
Qed.

Lemma merged_again (c : gmap str row) (prepared : list (record * str * str))
    (source : str) (now : Z) :
  (forall k, k ∈ keys_of prepared ->
             exists r, c !! k = Some r /\ source ∈ default [] (row_sources r)) ->
  collected (existing_of c prepared) source now 0 prepared = []
  /\ known (existing_of c prepared) prepared = length prepared
  /\ merged c prepared source now = c.
Proof.
  intros Hall.
  destruct (collected_nil (existing_of c prepared) source now 0 prepared)
    as [Hnil Hknown].
  { intros k Hk. rewrite existing_of_lookup, decide_True by done.
    destruct (Hall k Hk) as (r & -> & _). by eexists. }
  split; [done|]. split; [done|]. apply map_eq. intros k.
  destruct (decide (k ∈ keys_of prepared)) as [Hk|Hk].
  - destruct (Hall k Hk) as (r & Hr & Hsrc).
    rewrite (merged_stored _ _ _ _ _ _ Hr), decide_True by done.
    by rewrite add_source_present.
  - by apply merged_other.
Qed.

Lemma known_none (existing : gmap str (option (list str)))
    (prepared : list (record * str * str)) :
  (forall k, k ∈ keys_of prepared -> existing !! k = None) ->
  known existing prepared = 0%nat.
Proof.
  induction prepared as [|p rest IH]; intros Hnone; [done|].
  cbn [known]. rewrite (Hnone p.1.2) by (apply elem_of_cons; by left).
  rewrite IH; [done|]. intros k Hk. apply Hnone, elem_of_cons. by right.
Qed.

Section Again.
Context `{Unicodedata}.

(** C1, as the code has it: after a call that returned, every key of the
    batch is stored with the source label among its sources, and the same
    batch with the same label, ingested again into that table, returns
    [added = 0], [duplicates] = the first call's [added + duplicates] (its
    [added] when the first call met no stored key) and the same [ignored],
    and leaves the table as it is; under storage faults it returns that or
    raises, and the table is as it is in both cases. *)
Theorem reingest_same_batch (records : list record) (source : str) (now : Z)
    (s s1 : db) (a d i : nat) :
  insert_records records source now s = (Ok (a, d, i), s1) ->
  exists prepared,
    prepare records = Ok (prepared, i)
    /\ (forall k, k ∈ keys_of prepared ->
                  exists r, committed s1 !! k = Some r
                            /\ source ∈ default [] (row_sources r))
    /\ ((forall k, k ∈ keys_of prepared -> committed s !! k = None) ->
        d = 0%nat)
    /\ (forall now' s',
           committed s' = committed s1 -> faults s' = [] ->
           exists s2,
             insert_records records source now' s'
             = (Ok (0%nat, (a + d)%nat, i), s2)
             /\ committed s2 = committed s1)
    /\ (forall now' s' r s2,
           committed s' = committed s1 ->
           insert_records records source now' s' = (r, s2) ->
           committed s2 = committed s1
           /\ (r = Ok (0%nat, (a + d)%nat, i) \/ exists e, r = Raise e)).
Proof.
  intros Hrun.
  destruct (insert_records_Ok _ _ _ _ _ _ _ _ Hrun)
    as (prepared & Hprep & Hnodup & Ha & Hd & Hstore).
  exists prepared. split; [done|].
  assert (Hall : forall k, k ∈ keys_of prepared ->
                   exists r, committed s1 !! k = Some r
                             /\ source ∈ default [] (row_sources r)).
  { intros k Hk. rewrite Hstore. by apply merged_has_source. }
  split; [done|]. split.
  { intros Hnew. rewrite Hd. apply known_none. intros k Hk.
    by rewrite existing_of_lookup, decide_True, (Hnew k Hk). }
  assert (Hsum : (a + d = length prepared)%nat).
  { rewrite Ha, Hd. apply collected_known_length. }
  assert (Hclear : forall now' c t,
             c = committed s1 ->
             exists s2,
               insert_records records source now' (mkDb c t [])
               = (Ok (0%nat, (a + d)%nat, i), s2)
               /\ committed s2 = committed s1).
  { intros now' c t ->.
    destruct (merged_again (committed s1) prepared source now' Hall)
      as (Hnil & Hknown & Hsame).
    destruct (insert_records_clear records source now' (committed s1) t
                prepared i Hprep) as (s2 & Hrun2 & Hc2 & _).
    { rewrite Hnil. constructor. }
    rewrite Hnil, Hknown in Hrun2. exists s2.
    rewrite Hsum. split; [done|]. by rewrite Hc2. }
  split.
  { intros now' [c t fs] Hc Hfs. simpl in Hc, Hfs. subst fs.
    by apply Hclear. }
  intros now' s' r s2 Hc Hrun2. destruct r as [[[a2 d2] i2]|e].
  - apply fault_free_insert_records in Hrun2.
    destruct (Hclear now' (committed s') (txn s') Hc) as (s2' & Hrun2' & Hc2).
    unfold clear in Hrun2 at 1. rewrite Hrun2' in Hrun2.
    injection Hrun2 as <- <- <- ->. split; [done | by left].
  - apply atomic_insert_records in Hrun2. split; [congruence | eauto].
Qed.

End Again.

Lemma reingest_same_batch_witness :
  exists s1,
    insert_records (H:=Latin1.unicodedata) [acme; not_in_force] file_A 1000
      empty_db
    = (Ok (1, 0, 1)%nat, s1)
    /\ exists s2,
         insert_records (H:=Latin1.unicodedata) [acme; not_in_force] file_A
           2000 (mkDb (committed s1) None [])
         = (Ok (0, 1, 1)%nat, s2)
         /\ committed s2 = committed s1.
Proof.
  exists (insert_records (H:=Latin1.unicodedata) [acme; not_in_force] file_A
            1000 empty_db).2.
  assert (Hrun : insert_records (H:=Latin1.unicodedata) [acme; not_in_force]
                   file_A 1000 empty_db
                 = (Ok (1, 0, 1)%nat,
                    (insert_records (H:=Latin1.unicodedata)
                       [acme; not_in_force] file_A 1000 empty_db).2))
    by evaluate.
  split; [exact Hrun|].
  destruct (reingest_same_batch _ _ _ _ _ _ _ _ Hrun)
    as (prepared & _ & _ & _ & Hagain & _).
  exact (Hagain 2000 (mkDb _ None []) eq_refl eq_refl).
Defined.

(** C1 as stated fails: when the first call meets a stored key, the second
    call's duplicates are more than the first call's added records. *)
Lemma reingest_duplicates_exceed_added :
  ~ (forall a d i s1 a2 d2 i2 s2,
        insert_records (H:=Latin1.unicodedata) [acme] file_B 2000
          (mkDb table_A None [])
        = (Ok (a, d, i), s1) ->
        insert_records (H:=Latin1.unicodedata) [acme] file_B 3000 s1
        = (Ok (a2, d2, i2), s2) ->
        a2 = 0%nat /\ d2 = a).
Proof.
  intros Hclaim.
  assert (H1 : insert_records (H:=Latin1.unicodedata) [acme] file_B 2000
                 (mkDb table_A None [])
               = (Ok (0, 1, 0)%nat,
                  (insert_records (H:=Latin1.unicodedata) [acme] file_B 2000
                     (mkDb table_A None [])).2))
    by evaluate.
  assert (H2 : insert_records (H:=Latin1.unicodedata) [acme] file_B 3000
                 (insert_records (H:=Latin1.unicodedata) [acme] file_B 2000
                    (mkDb table_A None [])).2
               = (Ok (0, 1, 0)%nat,
                  (insert_records (H:=Latin1.unicodedata) [acme] file_B 3000
                     (insert_records (H:=Latin1.unicodedata) [acme] file_B
                        2000 (mkDb table_A None [])).2).2))
    by evaluate.
  destruct (Hclaim _ _ _ _ _ _ _ _ H1 H2) as [_ Hd]. discriminate.
Qed.

(** ** All or nothing *)

Section Atomicity.
Context `{Unicodedata}.

(** C8: whatever storage operations fail, a call either raises and leaves
    the table exactly as it was, or returns and leaves the table with every
    update and insert of the batch applied, as the call without faults does:
    every key of the batch is stored with the source label among its sources,
    and rows of other keys are as before. *)
Theorem insert_records_all_or_nothing (records : list record) (source : str)
    (now : Z) (s s1 : db) (r : result (nat * nat * nat)) :
  insert_records records source now s = (r, s1) ->
  (exists e, r = Raise e /\ committed s1 = committed s)
  \/ (exists a d i prepared,
         r = Ok (a, d, i)
         /\ prepare records = Ok (prepared, i)
         /\ insert_records records source now (clear s)
            = (Ok (a, d, i), clear s1)
         /\ committed s1 = merged (committed s) prepared source now
         /\ (forall k, k ∈ keys_of prepared ->
                       exists stored,
                         committed s1 !! k = Some stored
                         /\ source ∈ default [] (row_sources stored))
         /\ (forall k, k ∉ keys_of prepared ->
                       committed s1 !! k = committed s !! k)).
Proof.
  intros Hrun. destruct r as [[[a d] i]|e].
  - right.
    destruct (insert_records_Ok _ _ _ _ _ _ _ _ Hrun)
      as (prepared & Hprep & Hnodup & _ & _ & Hstore).
    exists a, d, i, prepared. split; [done|]. split; [done|].
    split; [by apply fault_free_insert_records|]. split; [done|].
    rewrite Hstore. split.
    + intros k Hk. by apply merged_has_source.
    + intros k Hk. by apply merged_other.
  - left. exists e. split; [done|]. by eapply atomic_insert_records.
Qed.

End Atomicity.

Lemma insert_records_all_or_nothing_witness :
  exists s1,
    insert_records (H:=Latin1.unicodedata) [acme; beta] file_B 2000
      (mkDb table_A None [false; false; false; true])
    = (Raise OperationalError, s1)
    /\ committed s1 = table_A.
Proof.
  exists (insert_records (H:=Latin1.unicodedata) [acme; beta] file_B 2000
            (mkDb table_A None [false; false; false; true])).2.
  assert (Hrun : insert_records (H:=Latin1.unicodedata) [acme; beta] file_B
                   2000 (mkDb table_A None [false; false; false; true])
                 = (Raise OperationalError,
                    (insert_records (H:=Latin1.unicodedata) [acme; beta]
                       file_B 2000
                       (mkDb table_A None [false; false; false; true])).2))
    by evaluate.
  split; [exact Hrun|].
  destruct (insert_records_all_or_nothing _ _ _ _ _ _ Hrun)
    as [(e & _ & Hsame)|(a & d & i & prepared & Hok & _)].
  - exact Hsame.
  - discriminate Hok.
Defined.

(** ** The key is served as it is stored *)

(** The key of a row is no field of the record: the row ingested from
    [twice_garbled] is served with its key as it is stored, also where
    [fix_text] would change that key. *)
Lemma api_rows_serves_stored_id :
  ~ (map (fun entry => fix_text (Some entry.1))
         (map_to_list
            (committed (insert_records (H:=Latin1.unicodedata)
                          [twice_garbled] file_A 1000 empty_db).2))
     = map Ok
         (served_ids
            (api_rows Absent Absent
               (map_to_list
                  (committed (insert_records (H:=Latin1.unicodedata)
                                [twice_garbled] file_A 1000 empty_db).2))))).
Proof.
  assert (Hrepaired :
            map (fun entry => fix_text (Some entry.1))
              (map_to_list
                 (committed (insert_records (H:=Latin1.unicodedata)
                               [twice_garbled] file_A 1000 empty_db).2))
            = [Ok ([63; 0xE9]%N ++ lit "||ACME||||||||rechazado")])
    by evaluate.
  assert (Hserved :
            served_ids
              (api_rows Absent Absent
                 (map_to_list
                    (committed (insert_records (H:=Latin1.unicodedata)
                                  [twice_garbled] file_A 1000 empty_db).2)))
            = [[63; 0xC3; 0xA9]%N ++ lit "||ACME||||||||rechazado"])
    by evaluate.
  rewrite Hrepaired, Hserved. discriminate.
Qed.

(** ** Repairing mis-decoded text *)

Lemma encode_latin1_to_N (value : str) (bs : list byte) :
  encode_latin1 value = Some bs -> map Byte.to_N bs = value.
Proof.
  revert bs. induction value as [|c t IH]; intros bs; simpl.
  - by intros [= <-].
  - destruct (Byte.of_N c) as [b|] eqn:Hb; [|done].
    destruct (encode_latin1 t) as [bs'|]; [|done].
    intros [= <-]. simpl. rewrite (Byte.to_of_N _ Hb). f_equal. by apply IH.
Qed.

Lemma decode_ascii (s : str) :
  Forall (fun c => (c < 128)%N) s -> decode_utf8_N s = Some s.
Proof.
  induction 1 as [|c t Hc _ IH]; [done|].
  cbn [decode_utf8_N].
  assert ((c <? 0x80)%N = true) as -> by (apply N.ltb_lt; lia).
  by rewrite IH.
Qed.

Lemma fix_text_decodes (value : str) :
  Forall (fun c => (c < 256)%N) value ->
  contains marker value = true ->
  fix_text (Some value)
  = Ok (default value (decode_utf8_N value)).
Proof.
  intros Hsmall Hmark. destruct (encode_latin1_total value Hsmall) as [bs Hbs].
  unfold fix_text. destruct value as [|c t]; [done|].
  rewrite Hmark. cbn [orb]. rewrite Hbs. unfold decode_utf8.
  rewrite (encode_latin1_to_N _ _ Hbs). by destruct (decode_utf8_N (c :: t)).
Qed.

(** X1: a text of ASCII characters is returned as it is, with or without
    question marks. *)
Theorem fix_text_ascii (value : str) :
  Forall (fun c => (c < 128)%N) value -> fix_text (Some value) = Ok value.
Proof.
  intros Hascii. destruct (contains marker value) eqn:Hmark.
  - rewrite fix_text_decodes; [by rewrite decode_ascii| |done].
    eapply Forall_impl; [exact Hascii|]. simpl. lia.
  - by apply fix_text_no_marker.
Qed.

Lemma fix_text_ascii_witness :
  Forall (fun c => (c < 128)%N) (lit "RUC inactivo?")
  /\ fix_text (Some (lit "RUC inactivo?")) = Ok (lit "RUC inactivo?").
Proof.
  assert (Hascii : Forall (fun c => (c < 128)%N) (lit "RUC inactivo?")).
  { apply Forall_forall. intros c Hc. apply N.ltb_lt.
    revert c Hc. apply Forall_forall. by repeat constructor. }
  split; [exact Hascii | exact (fix_text_ascii _ Hascii)].
Defined.

Lemma div64 (c : N) :
  exists q r, (c / 64 = q /\ c mod 64 = r /\ c = 64 * q + r /\ r < 64)%N.
Proof.
  exists (c / 64)%N, (c mod 64)%N.
  repeat split; [apply N.div_mod' | apply N.mod_lt; lia].
Qed.

Lemma div4096 (c : N) : (c / 4096 = c / 64 / 64)%N.
Proof. by rewrite N.Div0.div_div. Qed.

Lemma div262144 (c : N) : (c / 262144 = c / 64 / 64 / 64)%N.
Proof. by rewrite !N.Div0.div_div. Qed.

Lemma continuation_true (b : N) :
  (0x80 <= b <= 0xBF)%N -> continuation b = true.
Proof.
  intros [Hlo Hhi]. unfold continuation.
  apply andb_true_intro. split; by apply N.leb_le.
Qed.

Lemma decode_two (b0 b1 : N) (rest : list N) :
  (0xC2 <= b0 <= 0xDF)%N -> (0x80 <= b1 <= 0xBF)%N ->
  decode_utf8_N (b0 :: b1 :: rest)
  = cons ((b0 - 0xC0) * 64 + (b1 - 0x80))%N <$> decode_utf8_N rest.
Proof.
  intros [Hlo Hhi] Hb1. cbn [decode_utf8_N].
  assert ((b0 <? 0x80)%N = false) as -> by (apply N.ltb_ge; lia).
  assert ((0xC2 <=? b0)%N = true) as -> by (by apply N.leb_le).
  assert ((b0 <=? 0xDF)%N = true) as -> by (by apply N.leb_le).
  cbn [andb]. by rewrite continuation_true.
Qed.

Lemma decode_three (b0 b1 b2 : N) (rest : list N) :
  (0xE0 <= b0 <= 0xEF)%N -> (0x80 <= b1 <= 0xBF)%N ->
  (b0 = 0xE0 -> 0xA0 <= b1)%N -> (b0 = 0xED -> b1 <= 0x9F)%N ->
  (0x80 <= b2 <= 0xBF)%N ->
  decode_utf8_N (b0 :: b1 :: b2 :: rest)
  = cons ((b0 - 0xE0) * 4096 + (b1 - 0x80) * 64 + (b2 - 0x80))%N
      <$> decode_utf8_N rest.
Proof.
  intros [Hlo Hhi] [Hlo1 Hhi1] HE0 HED Hb2. cbn [decode_utf8_N].
  assert ((b0 <? 0x80)%N = false) as -> by (apply N.ltb_ge; lia).
  assert ((0xC2 <=? b0)%N && (b0 <=? 0xDF)%N = false) as ->.
  { apply andb_false_iff. right. apply N.leb_gt. lia. }
  assert ((0xE0 <=? b0)%N = true) as -> by (by apply N.leb_le).
  assert ((b0 <=? 0xEF)%N = true) as -> by (by apply N.leb_le).
  cbn [andb].
  assert (((if (b0 =? 0xE0)%N then 0xA0 else 0x80) <=? b1)%N = true) as ->.
  { apply N.leb_le. destruct (b0 =? 0xE0)%N eqn:E; [|done].
    apply N.eqb_eq in E. by apply HE0. }
  assert ((b1 <=? (if (b0 =? 0xED)%N then 0x9F else 0xBF))%N = true) as ->.
  { apply N.leb_le. destruct (b0 =? 0xED)%N eqn:E; [|done].
    apply N.eqb_eq in E. by apply HED. }
  cbn [andb]. by rewrite continuation_true.
Qed.

Lemma decode_four (b0 b1 b2 b3 : N) (rest : list N) :
  (0xF0 <= b0 <= 0xF4)%N -> (0x80 <= b1 <= 0xBF)%N ->
  (b0 = 0xF0 -> 0x90 <= b1)%N -> (b0 = 0xF4 -> b1 <= 0x8F)%N ->
  (0x80 <= b2 <= 0xBF)%N -> (0x80 <= b3 <= 0xBF)%N ->
  decode_utf8_N (b0 :: b1 :: b2 :: b3 :: rest)
  = cons ((b0 - 0xF0) * 262144 + (b1 - 0x80) * 4096 + (b2 - 0x80) * 64
          + (b3 - 0x80))%N
      <$> decode_utf8_N rest.
Proof.
  intros [Hlo Hhi] [Hlo1 Hhi1] HF0 HF4 Hb2 Hb3. cbn [decode_utf8_N].
  assert ((b0 <? 0x80)%N = false) as -> by (apply N.ltb_ge; lia).
  assert ((0xC2 <=? b0)%N && (b0 <=? 0xDF)%N = false) as ->.
  { apply andb_false_iff. right. apply N.leb_gt. lia. }
  assert ((0xE0 <=? b0)%N && (b0 <=? 0xEF)%N = false) as ->.
  { apply andb_false_iff. right. apply N.leb_gt. lia. }
  assert ((0xF0 <=? b0)%N = true) as -> by (by apply N.leb_le).
  assert ((b0 <=? 0xF4)%N = true) as -> by (by apply N.leb_le).
  cbn [andb].
  assert (((if (b0 =? 0xF0)%N then 0x90 else 0x80) <=? b1)%N = true) as ->.
  { apply N.leb_le. destruct (b0 =? 0xF0)%N eqn:E; [|done].
    apply N.eqb_eq in E. by apply HF0. }
  assert ((b1 <=? (if (b0 =? 0xF4)%N then 0x8F else 0xBF))%N = true) as ->.
  { apply N.leb_le. destruct (b0 =? 0xF4)%N eqn:E; [|done].
    apply N.eqb_eq in E. by apply HF4. }
  cbn [andb]. by rewrite !continuation_true.
Qed.

Lemma decode_utf8_bytes (c : N) (rest : list N) :
  scalar c = true ->
  decode_utf8_N (utf8_bytes c ++ rest) = cons c <$> decode_utf8_N rest.
Proof.
  unfold scalar, utf8_bytes. intros Hscalar.
  assert (Hc : (c < 0xD800 \/ 0xE000 <= c <= 0x10FFFF)%N).
  { apply orb_true_iff in Hscalar as [Hlow|Hhigh].
    - left. by apply N.ltb_lt.
    - right. apply andb_true_iff in Hhigh as [Hlo Hhi].
      split; by apply N.leb_le. }
  clear Hscalar.
  destruct (c <? 0x80)%N eqn:H1.
  { cbn [app decode_utf8_N]. by rewrite H1. }
  apply N.ltb_ge in H1.
  destruct (c <? 0x800)%N eqn:H2.
  { apply N.ltb_lt in H2. cbn [app].
    destruct (div64 c) as (q & r & -> & -> & Hq & Hr).
    rewrite decode_two by lia. do 2 f_equal. lia. }
  apply N.ltb_ge in H2.
  destruct (c <? 0x10000)%N eqn:H3.
  { apply N.ltb_lt in H3. cbn [app]. rewrite div4096.
    destruct (div64 c) as (q & r & -> & -> & Hq & Hr).
    destruct (div64 q) as (q1 & r1 & -> & -> & Hq1 & Hr1).
    rewrite decode_three by lia. do 2 f_equal. lia. }
  apply N.ltb_ge in H3. cbn [app]. rewrite div262144, div4096.
  destruct (div64 c) as (q & r & -> & -> & Hq & Hr).
  destruct (div64 q) as (q1 & r1 & -> & -> & Hq1 & Hr1).
  destruct (div64 q1) as (q2 & r2 & -> & -> & Hq2 & Hr2).
  rewrite decode_four by lia. do 2 f_equal. lia.
Qed.

Lemma decode_mojibake (s : str) :
  Forall (fun c => scalar c = true) s -> decode_utf8_N (mojibake s) = Some s.
Proof.
  induction 1 as [|c t Hc _ IH]; [done|].
  unfold mojibake in *. cbn [flat_map].
  by rewrite decode_utf8_bytes, IH.
Qed.

Lemma utf8_bytes_small (c : N) :
  (c <= 0x10FFFF)%N -> Forall (fun b => (b < 256)%N) (utf8_bytes c).
Proof.
  intros Hc. unfold utf8_bytes.
  destruct (c <? 0x80)%N eqn:H1.
  { apply N.ltb_lt in H1. repeat constructor. lia. }
  destruct (c <? 0x800)%N eqn:H2.
  { apply N.ltb_lt in H2.
    destruct (div64 c) as (q & r & -> & -> & Hq & Hr).
    repeat constructor; lia. }
  destruct (c <? 0x10000)%N eqn:H3.
  { apply N.ltb_lt in H3. rewrite div4096.
    destruct (div64 c) as (q & r & -> & -> & Hq & Hr).
    destruct (div64 q) as (q1 & r1 & -> & -> & Hq1 & Hr1).
    repeat constructor; lia. }
  rewrite div262144, div4096.
  destruct (div64 c) as (q & r & -> & -> & Hq & Hr).
  destruct (div64 q) as (q1 & r1 & -> & -> & Hq1 & Hr1).
  destruct (div64 q1) as (q2 & r2 & -> & -> & Hq2 & Hr2).
  repeat constructor; lia.
Qed.

Lemma scalar_bound (c : N) : scalar c = true -> (c <= 0x10FFFF)%N.
Proof.
  unfold scalar. intros [Hlow|Hhigh]%orb_true_iff.
  - apply N.ltb_lt in Hlow. lia.
  - apply andb_true_iff in Hhigh as [_ Hhi]. by apply N.leb_le.
Qed.

Lemma mojibake_small (s : str) :
  Forall (fun c => scalar c = true) s ->
  Forall (fun b => (b < 256)%N) (mojibake s).
Proof.
  induction 1 as [|c t Hc _ IH]; [constructor|].
  unfold mojibake in *. cbn [flat_map]. apply Forall_app. split; [|done].
  by apply utf8_bytes_small, scalar_bound.
Qed.

Lemma mojibake_marker (s : str) :
  contains marker s = true -> contains marker (mojibake s) = true.
Proof.
  unfold contains, mojibake. induction s as [|c t IH]; [done|].
  cbn [existsb flat_map]. rewrite existsb_app.
  intros [Hc|Ht]%orb_true_iff.
  - apply N.eqb_eq in Hc. subst c. done.
  - rewrite (IH Ht). apply orb_true_r.
Qed.

(** X2: a text of Unicode scalar values that holds a question mark, encoded
    in UTF-8 and read as Latin-1, is repaired to the text it was. *)
Theorem fix_text_repairs_mojibake (s : str) :
  Forall (fun c => scalar c = true) s ->
  contains marker s = true ->
  fix_text (Some (mojibake s)) = Ok s.
Proof.
  intros Hscalar Hmark.
  rewrite fix_text_decodes.
  - by rewrite decode_mojibake.
  - by apply mojibake_small.
  - by apply mojibake_marker.
Qed.

Lemma fix_text_repairs_mojibake_witness :
  mojibake ([0xBF]%N ++ lit "Qu" ++ [0xE9; 63; 0x20AC]%N)
  = [0xC2; 0xBF]%N ++ lit "Qu" ++ [0xC3; 0xA9; 63; 0xE2; 0x82; 0xAC]%N
  /\ fix_text (Some (mojibake ([0xBF]%N ++ lit "Qu" ++ [0xE9; 63; 0x20AC]%N)))
     = Ok ([0xBF]%N ++ lit "Qu" ++ [0xE9; 63; 0x20AC]%N).
Proof.
  split; [evaluate|].
  apply fix_text_repairs_mojibake; [|evaluate].
  apply Forall_forall. intros c Hc. revert c Hc. apply Forall_forall.
  repeat constructor.
Defined.

(** ** Trimming *)

Lemma lstrip_Forall (P : N -> Prop) (s : str) :
  Forall P s -> Forall P (lstrip s).
Proof.
  induction 1 as [|c t Hc Ht IH]; [constructor|].
  simpl. destruct (isspace c); [done | by constructor].
Qed.

Lemma strip_Forall (P : N -> Prop) (s : str) :
  Forall P s -> Forall P (strip s).
Proof.
  intros Hs. unfold strip, rstrip.
  apply Forall_rev, lstrip_Forall, Forall_rev, lstrip_Forall, Hs.
Qed.

Lemma lstrip_blank_app (ws s : str) : blank ws -> lstrip (ws ++ s) = lstrip s.
Proof. induction 1 as [|c t Hc _ IH]; [done|]. simpl. by rewrite Hc. Qed.

Lemma lstrip_blank (ws : str) : blank ws -> lstrip ws = [].
Proof.
  intros Hws. rewrite <- (app_nil_r ws). by rewrite lstrip_blank_app.
Qed.

Lemma lstrip_nil (s : str) : lstrip s = [] -> blank s.
Proof.
  induction s as [|c t IH]; [constructor|]. simpl.
  destruct (isspace c) eqn:Hc; [|done]. intros Ht.
  constructor; [done | by apply IH].
Qed.

Lemma lstrip_app (s t : str) : lstrip s <> [] -> lstrip (s ++ t) = lstrip s ++ t.
Proof.
  induction s as [|c s' IH]; [done|]. simpl.
  destruct (isspace c); [apply IH | done].
Qed.

Lemma lstrip_suffix (s : str) : exists ws, blank ws /\ s = ws ++ lstrip s.
Proof.
  induction s as [|c t (ws & Hws & IH)].
  { exists []. split; [constructor | done]. }
  simpl. destruct (isspace c) eqn:Hc.
  - exists (c :: ws). split; [by constructor|]. simpl. by rewrite <- IH.
  - exists []. split; [constructor | done].
Qed.

Lemma lstrip_head (s t : str) (c : N) : lstrip s = c :: t -> isspace c = false.
Proof.
  induction s as [|x s' IH]; [done|]. simpl.
  destruct (isspace x) eqn:Hx; [apply IH|]. by intros [= <- <-].
Qed.

Lemma lstrip_fixed (s t : str) (c : N) :
  isspace c = false -> lstrip (c :: t) = c :: t.
Proof. intros Hc. simpl. by rewrite Hc. Qed.

Lemma lstrip_lstrip (s : str) : lstrip (lstrip s) = lstrip s.
Proof.
  destruct (lstrip s) as [|c t] eqn:Hs; [done|].
  apply (lstrip_fixed s). by apply (lstrip_head s t).
Qed.

Lemma blank_rev (ws : str) : blank ws -> blank (rev ws).
Proof. apply Forall_rev. Qed.

Lemma rstrip_prefix (s : str) : exists ws, blank ws /\ s = rstrip s ++ ws.
Proof.
  destruct (lstrip_suffix (rev s)) as (ws & Hws & Heq).
  exists (rev ws). split; [by apply blank_rev|]. unfold rstrip.
  by rewrite <- rev_app_distr, <- Heq, rev_involutive.
Qed.

Lemma rstrip_app_blank (s ws : str) : blank ws -> rstrip (s ++ ws) = rstrip s.
Proof.
  intros Hws. unfold rstrip.
  by rewrite rev_app_distr, lstrip_blank_app by (by apply blank_rev).
Qed.

Lemma rstrip_rstrip (s : str) : rstrip (rstrip s) = rstrip s.
Proof. unfold rstrip. by rewrite rev_involutive, lstrip_lstrip. Qed.

Lemma lstrip_rstrip (x : str) : lstrip x = x -> lstrip (rstrip x) = rstrip x.
Proof.
  intros Hx. destruct (rstrip_prefix x) as (ws & Hws & Heq).
  destruct (rstrip x) as [|c t] eqn:Hr; [done|].
  apply (lstrip_fixed x). apply (lstrip_head x (t ++ ws)).
  by rewrite Hx, Heq.
Qed.

Lemma strip_strip (s : str) : strip (strip s) = strip s.
Proof.
  unfold strip. rewrite (lstrip_rstrip (lstrip s)) by apply lstrip_lstrip.
  apply rstrip_rstrip.
Qed.

Lemma strip_padding (l1 s l2 : str) :
  blank l1 -> blank l2 -> strip (l1 ++ s ++ l2) = strip s.
Proof.
  intros H1 H2. unfold strip. rewrite lstrip_blank_app by done.
  destruct (lstrip s) as [|c t] eqn:Hs.
  - apply lstrip_nil in Hs. rewrite lstrip_blank; [done|].
    by apply Forall_app.
  - rewrite lstrip_app by (by rewrite Hs). rewrite Hs.
    by apply rstrip_app_blank.
Qed.

Section Trimmed.
Context `{Unicodedata}.

(** X3: a normalized detail has no whitespace around it: trimming it again
    gives the same text, and its first and last characters are no
    whitespace. *)
Theorem normalize_detail_trimmed (text : str) :
  strip (normalize_detail text) = normalize_detail text
  /\ (forall c t, normalize_detail text = c :: t -> isspace c = false)
  /\ (forall c t, normalize_detail text = t ++ [c] -> isspace c = false).
Proof.
  assert (Hfix : strip (normalize_detail text) = normalize_detail text).
  { unfold normalize_detail. destruct text; [done|]. apply strip_strip. }
  split; [done|]. split.
  - intros c t Heq. rewrite <- Hfix in Heq. unfold strip in Heq.
    rewrite <- lstrip_rstrip in Heq by apply lstrip_lstrip.
    by apply lstrip_head in Heq.
  - intros c t Heq. rewrite <- Hfix in Heq. unfold strip, rstrip in Heq.
    apply (f_equal (@rev N)) in Heq.
    rewrite rev_involutive, rev_app_distr in Heq. simpl in Heq.
    by apply lstrip_head in Heq.
Qed.

End Trimmed.

(** ** Keys *)

(** X4: whitespace around the fields of a record does not change its key. *)
Theorem build_key_padding (r r' : record) :
  (forall c, exists l1 l2,
      blank l1 /\ blank l2 /\ field r' c = l1 ++ field r c ++ l2) ->
  build_key r' = build_key r.
Proof.
  intros Hpad.
  assert (Hstrip : forall c, strip (field r' c) = strip (field r c)).
  { intros c. destruct (Hpad c) as (l1 & l2 & H1 & H2 & ->).
    by apply strip_padding. }
  rewrite !build_key_parts.
  change (default [] (rEmpRUC r')) with (field r' EmpRUC).
  change (default [] (rEmpRazonSocial r')) with (field r' EmpRazonSocial).
  change (default [] (rEmpNom r')) with (field r' EmpNom).
  change (default [] (rRepFecha r')) with (field r' RepFecha).
  change (default [] (rRepLiqEstadoConsulta r'))
    with (field r' RepLiqEstadoConsulta).
  change (default [] (rRepDetalleRechazo r')) with (field r' RepDetalleRechazo).
  by rewrite !Hstrip.
Qed.

Lemma build_key_padding_witness :
  build_key acme_padded = build_key acme /\ build_key acme = acme_key.
Proof.
  split; [|evaluate]. apply build_key_padding. intros c.
  assert (Hb : forall ws, forallb isspace ws = true -> blank ws).
  { intros ws Hws. apply Forall_forall. intros x Hx.
    rewrite forallb_forall in Hws. apply Hws. by apply list_elem_of_In. }
  destruct c.
  - exists (lit "  "), []. split; [by apply Hb|]; split; [by apply Hb | done].
  - exists [], (lit " "). split; [by apply Hb|]; split; [by apply Hb | done].
  - exists (lit " "), (lit "  ").
    split; [by apply Hb|]; split; [by apply Hb | done].
  - exists [], []. split; [by apply Hb|]; split; [by apply Hb | done].
  - exists [], [9; 0xA0]%N.
    split; [by apply Hb|]; split; [by apply Hb | done].
  - exists (lit " "), []. split; [by apply Hb|]; split; [by apply Hb | done].
Defined.

Lemma split_delimiter (a a' x x' : str) :
  pipe ∉ a -> pipe ∉ a' ->
  a ++ lit "||" ++ x = a' ++ lit "||" ++ x' -> a = a' /\ x = x'.
Proof.
  revert a'. induction a as [|c a IH]; intros a' Ha Ha'.
  - destruct a' as [|c' a']; simpl.
    + by intros [= ->].
    + intros [= <- _]. exfalso. apply Ha'. by left.
  - destruct a' as [|c' a']; simpl.
    + intros [= -> _]. exfalso. apply Ha. by left.
    + intros [= -> Hrest].
      apply not_elem_of_cons in Ha as [_ Ha].
      apply not_elem_of_cons in Ha' as [_ Ha'].
      destruct (IH a' Ha Ha' Hrest) as [-> ->]. done.
Qed.

(** X5: records whose trimmed fields hold no vertical bar have the same key
    only when their trimmed fields are the same. *)
Theorem build_key_injective (r r' : record) :
  (forall c, pipe ∉ strip (field r c)) ->
  (forall c, pipe ∉ strip (field r' c)) ->
  build_key r = build_key r' ->
  forall c, strip (field r c) = strip (field r' c).
Proof.
  intros Hr Hr'. rewrite !build_key_parts. intros Hkey.
  apply split_delimiter in Hkey as [H1 Hkey];
    [|apply (Hr EmpRUC) | apply (Hr' EmpRUC)].
  apply split_delimiter in Hkey as [H2 Hkey];
    [|apply (Hr EmpRazonSocial) | apply (Hr' EmpRazonSocial)].
  apply split_delimiter in Hkey as [H3 Hkey];
    [|apply (Hr EmpNom) | apply (Hr' EmpNom)].
  apply split_delimiter in Hkey as [H4 Hkey];
    [|apply (Hr RepFecha) | apply (Hr' RepFecha)].
  apply split_delimiter in Hkey as [H5 H6];
    [|apply (Hr RepLiqEstadoConsulta) | apply (Hr' RepLiqEstadoConsulta)].
  by intros [].
Qed.

Lemma build_key_injective_witness :
  build_key acme = build_key acme_padded
  /\ forall c, strip (field acme c) = strip (field acme_padded c).
Proof.
  assert (Hkey : build_key acme = build_key acme_padded) by evaluate.
  assert (Hno : forall s, existsb (N.eqb pipe) s = false -> pipe ∉ s).
  { intros s Hs Hin. apply list_elem_of_In in Hin.
    assert (existsb (N.eqb pipe) s = true); [|congruence].
    apply existsb_exists. exists pipe. split; [done | apply N.eqb_refl]. }
  split; [exact Hkey|].
  apply build_key_injective; [| |exact Hkey].
  - intros []; apply Hno; evaluate.
  - intros []; apply Hno; evaluate.
Defined.

(** ** Chunks *)

(** X6: for a positive size, the chunks are the sequence cut in order into
    pieces that are not empty and not longer than the size. *)
Theorem chunked_partition {A} (sequence : list A) (size : nat) :
  (0 < size)%nat ->
  concat (chunked sequence size) = sequence
  /\ Forall (fun chunk => (0 < length chunk <= size)%nat)
            (chunked sequence size).
Proof.
  intros Hsize. split; [by apply concat_chunked|].
  unfold chunked, range_step. rewrite Forall_forall. intros chunk Hin.
  apply list_elem_of_fmap in Hin as (index & -> & Hin).
  apply list_elem_of_fmap in Hin as (i & -> & Hi).
  apply elem_of_seq in Hi as [_ Hi]. simpl in Hi.
  rewrite length_take, length_drop.
  pose proof (Nat.Div0.mul_div_le (length sequence + size - 1) size) as Hle.
  nia.
Qed.

Lemma chunked_partition_witness :
  (0 < 2)%nat
  /\ chunked [acme_key; file_A; file_B] 2 = [[acme_key; file_A]; [file_B]]
  /\ concat (chunked [acme_key; file_A; file_B] 2)
     = [acme_key; file_A; file_B].
Proof.
  split; [lia|]. split; [evaluate|].
  apply (chunked_partition [acme_key; file_A; file_B] 2). lia.
Defined.

(** ** Layouts *)

(** X7: a layout is always six offsets, none of them negative. *)
Theorem detect_column_positions_six (header_line : str) :
  length (detect_column_positions header_line) = 6%nat
  /\ Forall (fun p => 0 <= p) (detect_column_positions header_line).
Proof.
  unfold detect_column_positions.
  destruct (detect_loop_spec header_line COLUMNS [])
    as [(_ & offsets & -> & Hoffs)|[_ ->]].
  - apply Forall2_length in Hoffs. simpl. rewrite length_map.
    split; [done|]. apply Forall_forall.
    intros p (i & -> & _)%list_elem_of_fmap. lia.
  - split; [done|]. unfold FALLBACK_POSITIONS. repeat constructor; lia.
Qed.

(** ** Parsing *)

Lemma contains_false_Forall (c : N) (s : str) :
  contains c s = false <-> Forall (fun x => x <> c) s.
Proof.
  unfold contains. induction s as [|x t IH]; simpl.
  - split; [constructor | done].
  - rewrite orb_false_iff, IH, Forall_cons, N.eqb_neq.
    split; intros [Hx Ht]; split; congruence.
Qed.

Lemma fix_text_returns (v : str) :
  Forall (fun c => (c < 256)%N) v \/ Forall (fun x => x <> marker) v ->
  exists x, fix_text (Some v) = Ok x.
Proof.
  intros [Hsmall|Hno]; [by apply fix_text_latin1|].
  exists v. by apply fix_text_no_marker, contains_false_Forall.
Qed.

Lemma slice_Forall (P : N -> Prop) (s : str) (start stop : Z) :
  Forall P s -> Forall P (slice s start stop).
Proof. intros Hs. unfold slice. by apply Forall_take, Forall_drop. Qed.

Section Lines.
Variable P : N -> Prop.
Hypothesis fix_text_P :
  forall v, Forall P v -> exists x, fix_text (Some v) = Ok x.

Lemma field_values_returns (line : str) (positions : list Z) :
  Forall P line -> exists values, field_values line positions = Ok values.
Proof.
  intros Hline. induction positions as [|start rest [values IH]];
    [by eexists|].
  cbn [field_values].
  match goal with
  | |- context [fix_text (Some ?v)] =>
      destruct (fix_text_P v) as [x ->]
  end.
  - apply strip_Forall. destruct (start >=? len line); [constructor|].
    by apply slice_Forall.
  - simpl. rewrite IH. simpl. by eexists.
Qed.

Lemma parse_line_returns (line : str) (positions : list Z) :
  Forall P line ->
  exists parsed, parse_fixed_width_line line positions = Ok parsed.
Proof.
  intros Hline. unfold parse_fixed_width_line.
  destruct (field_values_returns line positions Hline) as [values ->].
  simpl. destruct values as [|[|c v] values]; by eexists.
Qed.

Lemma remove_nul_Forall (line : str) :
  Forall P line -> Forall P (remove_nul line).
Proof.
  intros Hline. unfold remove_nul. apply Forall_forall.
  intros c Hc. apply list_elem_of_In, filter_In in Hc as [Hc _].
  rewrite Forall_forall in Hline. by apply Hline, list_elem_of_In.
Qed.

Lemma splitlines_from_Forall (n : nat) (line s : str) :
  (length s <= n)%nat -> Forall P line -> Forall P s ->
  Forall (Forall P) (splitlines_from line s).
Proof.
  revert line s. induction n as [|n IH]; intros line s Hn Hline Hs.
  { destruct s; [|simpl in Hn; lia]. simpl.
    destruct line; [constructor | by constructor; [|constructor]]. }
  destruct Hs as [|c t Hc Ht].
  { simpl. destruct line; [constructor | by constructor; [|constructor]]. }
  simpl in Hn. cbn [splitlines_from]. destruct (is_linebreak c).
  - constructor; [done|]. destruct Ht as [|c' t' Hc' Ht'].
    + apply IH; [simpl; lia | constructor | constructor].
    + destruct ((c =? 13)%N && (c' =? 10)%N).
      * apply IH; [simpl in Hn; lia | constructor | done].
      * apply IH; [lia | constructor | by constructor].
  - apply IH; [lia | | done].
    apply Forall_app. split; [done | by repeat constructor].
Qed.

Lemma parse_lines_returns (lines : list str)
    (column_positions : option (list Z)) :
  Forall (Forall P) lines ->
  exists records, parse_lines lines column_positions = Ok records.
Proof.
  intros Hlines. revert column_positions.
  induction Hlines as [|line rest Hline _ IH]; intros column_positions;
    [by eexists|].
  cbn [parse_lines]. destruct (strip (remove_nul line)) as [|c t]; [apply IH|].
  destruct (startswith (c :: t) (lit "EmpRUC")); [apply IH|].
  destruct (startswith (c :: t) (lit "---")); [apply IH|].
  match goal with
  | |- context [parse_fixed_width_line ?l ?p] =>
      destruct (parse_line_returns l p) as [parsed ->];
        [by apply remove_nul_Forall|];
      destruct (IH (Some p)) as [records ->]
  end.
  simpl. by eexists.
Qed.

Lemma parse_rpt_returns_P (content : str) :
  Forall P content -> exists records, parse_rpt content = Ok records.
Proof.
  intros Hcontent. unfold parse_rpt. destruct content as [|c t]; [by eexists|].
  apply parse_lines_returns.
  apply (splitlines_from_Forall (length (c :: t))); [lia | constructor | done].
Qed.

End Lines.

(** X8: a line of Latin-1 characters, and a line without question mark,
    is parsed without an exception, whatever the layout. *)
Theorem parse_fixed_width_line_returns (line : str) (positions : list Z) :
  Forall (fun c => (c < 256)%N) line \/ contains marker line = false ->
  exists parsed, parse_fixed_width_line line positions = Ok parsed.
Proof.
  intros [Hsmall|Hno].
  - apply (parse_line_returns (fun c => (c < 256)%N)); [|done].
    intros v Hv. apply fix_text_returns. by left.
  - apply (parse_line_returns (fun c => c <> marker)).
    + intros v Hv. apply fix_text_returns. by right.
    + by apply contains_false_Forall.
Qed.

Lemma parse_fixed_width_line_returns_witness :
  contains marker (lit "123  ACME") = false
  /\ exists parsed,
       parse_fixed_width_line (lit "123  ACME") [-3; 40; 2] = Ok parsed.
Proof.
  assert (Hno : contains marker (lit "123  ACME") = false) by evaluate.
  split; [exact Hno|].
  apply parse_fixed_width_line_returns. by right.
Defined.

(** X9: a report of Latin-1 characters, and a report without question
    mark, is parsed without an exception. *)
Theorem parse_rpt_returns (content : str) :
  Forall (fun c => (c < 256)%N) content \/ contains marker content = false ->
  exists records, parse_rpt content = Ok records.
Proof.
  intros [Hsmall|Hno].
  - apply (parse_rpt_returns_P (fun c => (c < 256)%N)); [|done].
    intros v Hv. apply fix_text_returns. by left.
  - apply (parse_rpt_returns_P (fun c => c <> marker)).
    + intros v Hv. apply fix_text_returns. by right.
    + by apply contains_false_Forall.
Qed.

Lemma parse_rpt_returns_witness :
  contains marker report = false
  /\ exists records, parse_rpt report = Ok records.
Proof.
  assert (Hno : contains marker report = false) by evaluate.
  split; [exact Hno|]. apply parse_rpt_returns. by right.
Defined.

Lemma field_values_length (line : str) (positions : list Z)
    (values : list str) :
  field_values line positions = Ok values -> length values = length positions.
Proof.
  revert values. induction positions as [|start rest IH]; intros values.
  { by intros [= <-]. }
  cbn [field_values]. destruct (fix_text _) as [v|]; simpl; [|done].
  destruct (field_values line rest) as [vs|]; simpl; [|done].
  intros [= <-]. simpl. f_equal. by apply IH.
Qed.

Lemma parse_line_shape (line : str) (positions : list Z) (r : record) :
  parse_fixed_width_line line positions = Ok (Some r) -> parsed_shape r.
Proof.
  unfold parse_fixed_width_line.
  destruct (field_values line positions) as [values|]; simpl; [|done].
  destruct values as [|[|c v] values]; [done..|].
  intros [= <-]. split.
  - by exists (c :: v).
  - by intros [].
Qed.

Lemma parse_lines_shape (lines : list str)
    (column_positions : option (list Z)) (records : list record) :
  parse_lines lines column_positions = Ok records ->
  Forall parsed_shape records /\ (length records <= length lines)%nat.
Proof.
  revert column_positions records.
  induction lines as [|line rest IH]; intros column_positions records.
  { intros [= <-]. split; [constructor | done]. }
  cbn [parse_lines length].
  assert (Hskip : forall cp,
             parse_lines rest cp = Ok records ->
             Forall parsed_shape records
             /\ (length records <= S (length rest))%nat).
  { intros cp Hrest. destruct (IH _ _ Hrest). split; [done | lia]. }
  destruct (strip (remove_nul line)) as [|c t]; [apply Hskip|].
  destruct (startswith (c :: t) (lit "EmpRUC")); [apply Hskip|].
  destruct (startswith (c :: t) (lit "---")); [apply Hskip|].
  destruct (parse_fixed_width_line _ _) as [parsed|] eqn:Hline; simpl;
    [|done].
  destruct (parse_lines rest _) as [records'|] eqn:Hrest; simpl; [|done].
  destruct (IH _ _ Hrest) as [Hshape Hlen].
  intros [= <-]. destruct parsed as [r|].
  - split; [|simpl; lia]. constructor; [|done].
    by apply parse_line_shape in Hline.
  - split; [done | lia].
Qed.

(** X10: every record of a parsed report has its six columns, the first of
    them not empty, and there is at most one record for a line. *)
Theorem parse_rpt_records (content : str) (records : list record) :
  parse_rpt content = Ok records ->
  Forall parsed_shape records
  /\ (length records <= length (splitlines content))%nat.
Proof.
  unfold parse_rpt. destruct content as [|c t].
  - intros [= <-]. split; [constructor | simpl; lia].
  - apply parse_lines_shape.
Qed.

Lemma parse_rpt_records_witness :
  parse_rpt report = Ok [acme]
  /\ Forall parsed_shape [acme]
  /\ (length [acme] <= length (splitlines report))%nat.
Proof.
  assert (Hrun : parse_rpt report = Ok [acme]) by evaluate.
  split; [exact Hrun | exact (parse_rpt_records _ _ Hrun)].
Defined.

Lemma parse_lines_fallback (lines : list str) :
  parse_lines lines None = parse_lines lines (Some FALLBACK_POSITIONS).
Proof.
  induction lines as [|line rest IH]; [done|].
  cbn [parse_lines]. destruct (strip (remove_nul line)) as [|c t]; [done|].
  destruct (startswith (c :: t) (lit "EmpRUC")); [done|].
  by destruct (startswith (c :: t) (lit "---")).
Qed.

(** X11: a header line that lacks one of the six labels puts the fallback
    layout in force, whatever the layout was: the lines after it are parsed
    as the lines of a report without header. *)
Theorem parse_lines_short_header (header : str) (rest : list str)
    (column_positions : option (list Z)) :
  startswith (strip (remove_nul header)) (lit "EmpRUC") = true ->
  Exists (fun c => ~ occurs (label c) (remove_nul header)) COLUMNS ->
  parse_lines (header :: rest) column_positions = parse_lines rest None.
Proof.
  intros Hstart Hmissing. cbn [parse_lines].
  destruct (strip (remove_nul header)) as [|c t]; [done|].
  rewrite Hstart, parse_lines_fallback. do 2 f_equal.
  unfold detect_column_positions.
  destruct (detect_loop_spec (remove_nul header) COLUMNS [])
    as [(Hall & _)|[_ ->]]; [|done].
  exfalso. apply Exists_exists in Hmissing as (col & Hin & Hno).
  rewrite Forall_forall in Hall. by apply Hno, Hall.
Qed.

Lemma parse_lines_short_header_witness :
  parse_lines report_short_header (Some [0; 4; 8; 12; 16; 20])
  = parse_lines (tail report_short_header) None
  /\ parse_lines (tail report_short_header) None
     = Ok [mkRecord (Some (lit "123")) (Some (lit "ACME")) (Some [])
             (Some []) (Some []) (Some [])].
Proof.
  split; [|evaluate].
  apply parse_lines_short_header; [evaluate|].
  apply Exists_exists. exists RepDetalleRechazo. split.
  - unfold COLUMNS. by repeat constructor.
  - apply find_nat_None. evaluate.
Defined.

(** ** Toggling and clearing *)

Lemma bind_raise {A B} (c : DB A) (k : A -> DB B) (s s1 : db) (e : exc) :
  c s = (Raise e, s1) -> bind c k s = (Raise e, s1).
Proof. intros Hrun. unfold bind. by rewrite Hrun. Qed.

Lemma fault_free_api_toggle (row_id : str) : fault_free (api_toggle row_id).
Proof.
  unfold api_toggle.
  apply fault_free_bind; [apply fault_free_get_connection|]. intros _.
  apply fault_free_try_finally; [|apply fault_free_close].
  apply fault_free_bind.
  { apply fault_free_bind; [auto with db|]. by intros _ s a s1 [= <- <-]. }
  intros [resolved|]; [|auto with db].
  apply fault_free_bind.
  { apply fault_free_bind; [auto with db|]. by intros _ s [] s1 [= <-]. }
  intros _. apply fault_free_bind; [apply fault_free_commit|]. auto with db.
Qed.

Lemma atomic_api_toggle (row_id : str) : atomic (api_toggle row_id).
Proof.
  unfold api_toggle.
  apply atomic_bind; [apply uncommitting_get_connection|]. intros _.
  apply atomic_try_finally_close. apply atomic_bind.
  { apply uncommitting_bind; [auto with db|]. by intros _ s r s1 [= <- <-]. }
  intros [resolved|]; [|apply uncommitting_atomic; auto with db].
  apply atomic_bind.
  { apply uncommitting_bind; [auto with db|]. by intros _ s r s1 [= <- <-]. }
  intros _ s e s1 [Hcommit|(a & s0 & _ & [=])]%bind_Raise.
  by eapply atomic_commit.
Qed.

Lemma api_toggle_clear (row_id : str) (c : gmap str row)
    (t : option (gmap str row)) :
  api_toggle row_id (mkDb c t [])
  = match c !! row_id with
    | None => (Ok (Abort 404), mkDb c None [])
    | Some r =>
        (Ok (Json (row_id, (row_resolved r =? 0))),
         mkDb (<[row_id := set_resolved (if row_resolved r =? 0 then 1 else 0)
                             r]> c) None [])
    end.
Proof.
  unfold api_toggle, try_finally, bind, get_connection,
    execute_select_resolved, execute_update_resolved, commit, close, io,
    write, view, ret. simpl.
  destruct (c !! row_id) as [r|] eqn:Hr; simpl; [|done].
  f_equal; [by destruct (row_resolved r =? 0)|]. f_equal.
  apply map_eq. intros k. destruct (decide (k = row_id)) as [->|Hne].
  - by rewrite lookup_alter_eq, lookup_insert_eq, Hr.
  - by rewrite lookup_alter_ne, lookup_insert_ne.
Qed.

(** X12: toggling a key that is not stored answers 404 and changes nothing;
    toggling a stored key sets the resolved flag of that row to 1 when it
    was 0 and to 0 otherwise, answers the new flag and changes nothing else;
    a call that raises changes nothing. *)
Theorem api_toggle_spec (row_id : str) (s s1 : db)
    (r : result (response (str * bool))) :
  api_toggle row_id s = (r, s1) ->
  (exists e, r = Raise e /\ committed s1 = committed s)
  \/ (committed s !! row_id = None
      /\ r = Ok (Abort 404) /\ committed s1 = committed s)
  \/ (exists stored,
         committed s !! row_id = Some stored
         /\ r = Ok (Json (row_id, (row_resolved stored =? 0)))
         /\ committed s1
            = <[row_id := set_resolved
                            (if row_resolved stored =? 0 then 1 else 0)
                            stored]> (committed s)).
Proof.
  intros Hrun. destruct r as [resp|e].
  - right. apply fault_free_api_toggle in Hrun.
    unfold clear in Hrun at 1. rewrite api_toggle_clear in Hrun.
    destruct (committed s !! row_id) as [stored|] eqn:Hrow.
    + right. exists stored. split; [done|].
      injection Hrun as <- Hs1 _. by split.
    + left. injection Hrun as <- Hs1 _. by repeat split.
  - left. exists e. split; [done|]. by eapply atomic_api_toggle.
Qed.

Lemma api_toggle_spec_witness :
  exists s1,
    api_toggle acme_key (mkDb table_A None [false; true]) = (Raise OperationalError, s1)
    /\ committed s1 = table_A.
Proof.
  exists (api_toggle acme_key (mkDb table_A None [false; true])).2.
  assert (Hrun : api_toggle acme_key (mkDb table_A None [false; true])
                 = (Raise OperationalError,
                    (api_toggle acme_key
                       (mkDb table_A None [false; true])).2))
    by evaluate.
  split; [exact Hrun|].
  destruct (api_toggle_spec _ _ _ _ Hrun)
    as [(e & _ & Hsame)|[(_ & Hresp & _)|(stored & _ & Hresp & _)]].
  - exact Hsame.
  - discriminate Hresp.
  - discriminate Hresp.
Defined.

(** X13: without storage faults, toggling a row whose flag is 0 or 1 twice
    answers the new flag and then the old one, and leaves the table as it
    was. *)
Theorem api_toggle_twice (row_id : str) (s : db) (stored : row) :
  faults s = [] ->
  committed s !! row_id = Some stored ->
  row_resolved stored = 0 \/ row_resolved stored = 1 ->
  exists s1 s2,
    api_toggle row_id s
    = (Ok (Json (row_id, (row_resolved stored =? 0))), s1)
    /\ api_toggle row_id s1
       = (Ok (Json (row_id, negb (row_resolved stored =? 0))), s2)
    /\ committed s2 = committed s.
Proof.
  intros Hfaults Hrow Hflag. destruct s as [c t fs]. simpl in *. subst fs.
  rewrite api_toggle_clear, Hrow. eexists. eexists. split; [done|].
  rewrite api_toggle_clear, lookup_insert_eq. simpl.
  split.
  - do 3 f_equal. by destruct Hflag as [-> | ->].
  - rewrite insert_insert_eq. apply insert_id. rewrite Hrow. f_equal.
    destruct stored. simpl in *. by destruct Hflag as [-> | ->].
Qed.

Lemma api_toggle_twice_witness :
  exists stored s1 s2,
    table_A !! acme_key = Some stored
    /\ api_toggle acme_key (mkDb table_A None [])
       = (Ok (Json (acme_key, true)), s1)
    /\ api_toggle acme_key s1 = (Ok (Json (acme_key, false)), s2)
    /\ committed s2 = table_A.
Proof.
  assert (Hrow : table_A !! acme_key
                 = Some (new_row acme (lit "ruc inactivo") file_A 1000))
    by evaluate.
  destruct (api_toggle_twice acme_key (mkDb table_A None []) _ eq_refl Hrow)
    as (s1 & s2 & H1 & H2 & Hsame); [by left|].
  exists (new_row acme (lit "ruc inactivo") file_A 1000), s1, s2.
  split; [exact Hrow|]. split; [exact H1|].
  split; [exact H2 | exact Hsame].
Defined.

Lemma fault_free_api_delete_resolved : fault_free api_delete_resolved.
Proof.
  unfold api_delete_resolved.
  apply fault_free_bind; [apply fault_free_get_connection|]. intros _.
  apply fault_free_try_finally; [|apply fault_free_close].
  apply fault_free_bind.
  { apply fault_free_bind; [auto with db|]. by intros _ s a s1 [= <- <-]. }
  intros rowcount. apply fault_free_bind; [apply fault_free_commit|].
  auto with db.
Qed.

Lemma atomic_api_delete_resolved : atomic api_delete_resolved.
Proof.
  unfold api_delete_resolved.
  apply atomic_bind; [apply uncommitting_get_connection|]. intros _.
  apply atomic_try_finally_close. apply atomic_bind.
  { apply uncommitting_bind; [auto with db|]. by intros _ s r s1 [= <- <-]. }
  intros rowcount s e s1 [Hcommit|(a & s0 & _ & [=])]%bind_Raise.
  by eapply atomic_commit.
Qed.

Lemma api_delete_resolved_clear (c : gmap str row)
    (t : option (gmap str row)) :
  api_delete_resolved (mkDb c t [])
  = (Ok (size (filter (fun kv => row_resolved kv.2 = 1) c)),
     mkDb (filter (fun kv => row_resolved kv.2 <> 1) c) None []).
Proof. done. Qed.

Lemma api_delete_resolved_Ok (s s1 : db) (deleted : nat) :
  api_delete_resolved s = (Ok deleted, s1) ->
  deleted = size (filter (fun kv => row_resolved kv.2 = 1) (committed s))
  /\ committed s1
     = filter (fun kv => row_resolved kv.2 <> 1) (committed s).
Proof.
  intros Hrun%fault_free_api_delete_resolved.
  unfold clear in Hrun at 1. rewrite api_delete_resolved_clear in Hrun.
  by injection Hrun as <- <- _.
Qed.

(** X14: deleting the resolved rows removes the rows whose flag is 1, keeps
    every other row as it is and answers the number of rows removed; a call
    that raises changes nothing. *)
Theorem api_delete_resolved_spec (s s1 : db) (r : result nat) :
  api_delete_resolved s = (r, s1) ->
  (exists e, r = Raise e /\ committed s1 = committed s)
  \/ (exists deleted,
         r = Ok deleted
         /\ (forall k stored,
                committed s1 !! k = Some stored
                <-> committed s !! k = Some stored /\ row_resolved stored <> 1)
         /\ (deleted + size (committed s1) = size (committed s))%nat).
Proof.
  intros Hrun. destruct r as [deleted|e].
  - right. exists deleted. split; [done|].
    apply api_delete_resolved_Ok in Hrun as [-> ->]. split.
    + intros k stored. by rewrite map_lookup_filter_Some.
    + rewrite <- map_size_disj_union
        by apply map_disjoint_filter_complement.
      by rewrite map_filter_union_complement.
  - left. exists e. split; [done|]. by eapply atomic_api_delete_resolved.
Qed.

Lemma api_delete_resolved_spec_witness :
  exists s1,
    api_delete_resolved (mkDb table_A_resolved None [])
    = (Ok 1%nat, s1)
    /\ (1 + size (committed s1) = size table_A_resolved)%nat.
Proof.
  exists (api_delete_resolved (mkDb table_A_resolved None [])).2.
  assert (Hrun : api_delete_resolved (mkDb table_A_resolved None [])
                 = (Ok 1%nat,
                    (api_delete_resolved (mkDb table_A_resolved None [])).2))
    by evaluate.
  split; [exact Hrun|].
  destruct (api_delete_resolved_spec _ _ _ Hrun)
    as [(e & Hresp & _)|(deleted & Hresp & _ & Hsize)].
  - discriminate Hresp.
  - injection Hresp as <-. exact Hsize.
Defined.

(** X15: once the resolved rows are deleted, deleting them again removes
    nothing and leaves the table as it is. *)
Theorem api_delete_resolved_twice (s s1 s2 : db) (n m : nat) :
  api_delete_resolved s = (Ok n, s1) ->
  api_delete_resolved s1 = (Ok m, s2) ->
  m = 0%nat /\ committed s2 = committed s1.
Proof.
  intros [_ Hs1]%api_delete_resolved_Ok [-> Hs2]%api_delete_resolved_Ok.
  rewrite Hs2, Hs1. split.
  - apply map_size_empty_iff, map_empty. intros k.
    apply eq_None_not_Some. intros [stored Hk].
    apply map_lookup_filter_Some in Hk as [Hk Hflag].
    apply map_lookup_filter_Some in Hk as [_ Hno]. done.
  - apply map_filter_id. intros k stored Hk.
    by apply map_lookup_filter_Some in Hk as [_ Hno].
Qed.

Lemma api_delete_resolved_twice_witness :
  exists s1 s2,
    api_delete_resolved (mkDb table_A_resolved None []) = (Ok 1%nat, s1)
    /\ api_delete_resolved s1 = (Ok 0%nat, s2)
    /\ committed s2 = committed s1.
Proof.
  exists (api_delete_resolved (mkDb table_A_resolved None [])).2.
  exists (api_delete_resolved
            (api_delete_resolved (mkDb table_A_resolved None [])).2).2.
  assert (H1 : api_delete_resolved (mkDb table_A_resolved None [])
               = (Ok 1%nat,
                  (api_delete_resolved (mkDb table_A_resolved None [])).2))
    by evaluate.
  assert (H2 : api_delete_resolved
                 (api_delete_resolved (mkDb table_A_resolved None [])).2
               = (Ok 0%nat,
                  (api_delete_resolved
                     (api_delete_resolved
                        (mkDb table_A_resolved None [])).2).2))
    by evaluate.
  split; [exact H1|]. split; [exact H2|].
  exact (proj2 (api_delete_resolved_twice _ _ _ _ _ H1 H2)).
Defined.

(** X16: without storage faults, a stored row whose flag is 0 is marked as
    resolved by a toggle and removed by the deletion that follows, which
    keeps every row whose flag is not 1. *)
Theorem toggle_then_delete (row_id : str) (s : db) (stored : row) :
  faults s = [] ->
  committed s !! row_id = Some stored ->
  row_resolved stored = 0 ->
  exists s1 s2 deleted,
    api_toggle row_id s = (Ok (Json (row_id, true)), s1)
    /\ api_delete_resolved s1 = (Ok deleted, s2)
    /\ (1 <= deleted)%nat
    /\ committed s2 !! row_id = None
    /\ forall k other,
         k <> row_id -> row_resolved other <> 1 ->
         committed s !! k = Some other -> committed s2 !! k = Some other.
Proof.
  intros Hfaults Hrow Hflag. destruct s as [c t fs]. simpl in *. subst fs.
  rewrite api_toggle_clear, Hrow, Hflag. simpl.
  eexists. eexists. eexists. split; [done|].
  rewrite api_delete_resolved_clear. split; [done|]. simpl. split; [|split].
  - assert (Hin : filter (fun kv => row_resolved kv.2 = 1)
                    (<[row_id:=set_resolved 1 stored]> c) !! row_id
                  = Some (set_resolved 1 stored)).
    { apply map_lookup_filter_Some. split; [apply lookup_insert_eq | done]. }
    destruct (decide (size (filter (fun kv => row_resolved kv.2 = 1)
                              (<[row_id:=set_resolved 1 stored]> c)) = 0%nat))
      as [Hzero|Hpos]; [|lia].
    apply map_size_empty_iff in Hzero. by rewrite Hzero in Hin.
  - apply eq_None_not_Some. intros [x Hx].
    apply map_lookup_filter_Some in Hx as [Hx Hno].
    rewrite lookup_insert_eq in Hx. injection Hx as <-. done.
  - intros k other Hk Hother Hstored. apply map_lookup_filter_Some.
    split; [by rewrite lookup_insert_ne | done].
Qed.

Lemma toggle_then_delete_witness :
  exists s1 s2 deleted,
    api_toggle acme_key (mkDb table_A None [])
    = (Ok (Json (acme_key, true)), s1)
    /\ api_delete_resolved s1 = (Ok deleted, s2)
    /\ committed s2 !! acme_key = None.
Proof.
  assert (Hrow : table_A !! acme_key
                 = Some (new_row acme (lit "ruc inactivo") file_A 1000))
    by evaluate.
  destruct (toggle_then_delete acme_key (mkDb table_A None []) _
              eq_refl Hrow eq_refl)
    as (s1 & s2 & deleted & H1 & H2 & _ & Hgone & _).
  exists s1, s2, deleted. split; [exact H1|]. split; [exact H2 | exact Hgone].
Defined.

(** ** The rows a call adds *)

Lemma repair_record_fields (r : record) (detail : str) (repaired : record) :
  repair_record r detail = Ok repaired ->
  rRepDetalleRechazo repaired = Some detail
  /\ forall c, is_Some (get repaired c).
Proof.
  unfold repair_record, get.
  destruct (fix_text (rEmpRUC r)); simpl; [|done].
  destruct (fix_text (rEmpRazonSocial r)); simpl; [|done].
  destruct (fix_text (rEmpNom r)); simpl; [|done].
  destruct (fix_text (rRepFecha r)); simpl; [|done].
  destruct (fix_text (rRepLiqEstadoConsulta r)); simpl; [|done].
  destruct (fix_text (rRepDetalleRechazo r)); simpl; [|done].
  intros [= <-]. split; [done|]. intros []; by eexists.
Qed.

Lemma stored_record_new_row (repaired : record) (dn source : str) (at_ : Z) :
  (forall c, is_Some (get repaired c)) ->
  stored_record (new_row repaired dn source at_) = repaired.
Proof.
  intros Hfields. destruct repaired as [a b c d e f].
  destruct (Hfields EmpRUC) as [? Ha], (Hfields EmpRazonSocial) as [? Hb],
    (Hfields EmpNom) as [? Hc], (Hfields RepFecha) as [? Hd],
    (Hfields RepLiqEstadoConsulta) as [? He],
    (Hfields RepDetalleRechazo) as [? Hf].
  simpl in *. by subst.
Qed.

Lemma insert_all_size (t : gmap str row) (inserts : list (str * row)) :
  NoDup inserts.*1 ->
  (forall k, k ∈ inserts.*1 -> t !! k = None) ->
  size (insert_all t inserts) = (size t + length inserts)%nat.
Proof.
  unfold insert_all. revert t.
  induction inserts as [|[key r] rest IH]; intros t Hnodup Hfresh; simpl;
    [lia|].
  rewrite fmap_cons in Hnodup, Hfresh. cbn [fst] in Hnodup, Hfresh.
  apply NoDup_cons in Hnodup as [Hkey Hnodup]. rewrite IH.
  - rewrite map_size_insert_None; [lia|].
    apply Hfresh, elem_of_cons. by left.
  - done.
  - intros k Hk. rewrite lookup_insert_ne.
    + apply Hfresh, elem_of_cons. by right.
    + congruence.
Qed.

Lemma updated_size (existing : gmap str (option (list str))) (source : str)
    (c : gmap str row) (prepared : list (record * str * str)) :
  size (default c (foldl (update_txn existing source c) None prepared))
  = size c.
Proof.
  rewrite <- (size_dom (D:=gset str) c).
  rewrite <- (size_dom (D:=gset str) (default c _)). f_equal.
  apply set_eq. intros k. rewrite !elem_of_dom, updated_lookup. simpl.
  by rewrite fmap_is_Some.
Qed.

Lemma executemany_insert_clear_Raise (inserts : list (str * row))
    (c : gmap str row) (t : option (gmap str row)) (e : exc) (s1 : db) :
  executemany_insert inserts (mkDb c t []) = (Raise e, s1) ->
  e = IntegrityError.
Proof.
  revert t. induction inserts as [|[key r] rest IH]; intros t; [done|].
  cbn [executemany_insert]. unfold bind at 1. rewrite execute_insert_clear.
  destruct (default c t !! key); [by intros [= <- _] | apply IH].
Qed.

Section Added.
Context `{Unicodedata}.

Lemma prepare_entries (records : list record)
    (prepared : list (record * str * str)) (ignored : nat) :
  prepare records = Ok (prepared, ignored) ->
  Forall (fun p => p.1.2 = build_key p.1.1
                   /\ p.2 = normalize_detail
                              (default [] (rRepDetalleRechazo p.1.1))
                   /\ forall c, is_Some (get p.1.1 c)) prepared.
Proof.
  revert prepared ignored.
  induction records as [|r rest IH]; intros prepared ignored.
  { intros [= <- <-]. constructor. }
  intros (detail & repaired & prepared' & ignored' & _ & Hrep & Hrest & Hcase)
    %prepare_cons.
  specialize (IH _ _ Hrest).
  destruct (ignorable _); destruct Hcase as [-> ->]; [done|].
  constructor; [|done]. simpl.
  destruct (repair_record_fields _ _ _ Hrep) as [Hdetail Hfields].
  by rewrite Hdetail.
Qed.

Lemma insert_records_added (records : list record) (source : str) (now : Z)
    (s s1 : db) (a d i : nat) (k : str) (r : row) :
  insert_records records source now s = (Ok (a, d, i), s1) ->
  committed s !! k = None -> committed s1 !! k = Some r ->
  exists repaired j,
    (j < length records)%nat
    /\ k = build_key repaired
    /\ (forall c, is_Some (get repaired c))
    /\ r = new_row repaired
             (normalize_detail (default [] (rRepDetalleRechazo repaired)))
             source (now + Z.of_nat j).
Proof.
  intros Hrun Hnone Hsome.
  destruct (insert_records_Ok _ _ _ _ _ _ _ _ Hrun)
    as (prepared & Hprep & Hnodup & _ & _ & Hstore).
  rewrite Hstore in Hsome.
  destruct (decide (k ∈ keys_of prepared)) as [Hin|Hout].
  2: { rewrite merged_other in Hsome by done. congruence. }
  destruct (merged_new _ _ _ _ _ Hnodup Hnone Hin)
    as (repaired & dn & j & Hj & Hrow).
  rewrite Hrow in Hsome. injection Hsome as <-.
  pose proof (prepare_entries _ _ _ Hprep) as Hall.
  rewrite Forall_lookup in Hall.
  destruct (Hall j _ Hj) as (Hkey & Hdn & Hfields). simpl in *.
  exists repaired, j. apply lookup_lt_Some in Hj.
  apply prepare_length in Hprep. split; [lia|]. by subst.
Qed.

Lemma insert_records_clear_Raise (records : list record) (source : str)
    (now : Z) (c : gmap str row) (t : option (gmap str row))
    (prepared : list (record * str * str)) (ignored : nat) (e : exc)
    (s1 : db) :
  prepare records = Ok (prepared, ignored) ->
  insert_records records source now (mkDb c t []) = (Raise e, s1) ->
  e = IntegrityError.
Proof.
  intros Hprep. rewrite (insert_records_prepared _ _ _ _ _ Hprep).
  unfold insert_prepared. destruct prepared as [|p prepared]; [done|].
  rewrite (bind_run _ _ _ _ _ (get_connection_clear c t)).
  intros [Hbody|([a d] & s0 & _ & [=])]%bind_Raise.
  unfold try_finally in Hbody.
  destruct (merge (p :: prepared) source now (mkDb c None []))
    as [res s2] eqn:Hmerge.
  simpl in Hbody. injection Hbody as -> _. revert Hmerge. unfold merge.
  erewrite bind_run by apply fetch_existing_clear. cbv beta.
  erewrite bind_run by apply merge_loop_clear. cbv beta iota.
  match goal with
  | |- context [executemany_insert ?l] => generalize l
  end.
  intros inserts. destruct inserts as [|q rest].
  - by intros [[=]|(u & s0 & [= <- <-] & [[=]|(v & s3 & _ & [=])]%bind_Raise)]
      %bind_Raise.
  - intros [Hins|(u & s0 & Hins & Hrest)]%bind_Raise.
    + by eapply executemany_insert_clear_Raise.
    + destruct u.
      apply executemany_insert_clear_Ok in Hins as (_ & _ & ->).
      by apply bind_Raise in Hrest as [[=]|(v & s3 & _ & [=])].
Qed.

(** X17: a call that returns adds exactly [added] rows to the table and
    removes none. *)
Theorem insert_records_grows (records : list record) (source : str)
    (now : Z) (s s1 : db) (a d i : nat) :
  insert_records records source now s = (Ok (a, d, i), s1) ->
  size (committed s1) = (size (committed s) + a)%nat
  /\ forall k, is_Some (committed s !! k) -> is_Some (committed s1 !! k).
Proof.
  intros Hrun.
  destruct (insert_records_Ok _ _ _ _ _ _ _ _ Hrun)
    as (prepared & Hprep & Hnodup & -> & _ & Hstore).
  rewrite Hstore. split.
  - unfold merged. rewrite insert_all_size, updated_size; [done..|].
    intros k Hk. by apply (collected_fresh _ _ source now).
  - intros k [r Hk]. rewrite (merged_stored _ _ _ _ _ _ Hk). by eexists.
Qed.

(** X18: a row that a call adds is stored under the key built from its own
    six columns, unresolved, with the source label as its only source, with
    the date extracted from its [RepFecha] column and with the normalized
    form of its rejection detail. *)
Theorem insert_records_new_row (records : list record) (source : str)
    (now : Z) (s s1 : db) (a d i : nat) (k : str) (r : row) :
  insert_records records source now s = (Ok (a, d, i), s1) ->
  committed s !! k = None -> committed s1 !! k = Some r ->
  k = build_key (stored_record r)
  /\ row_resolved r = 0
  /\ row_sources r = Some [source]
  /\ row_RepFechaDate r = extract_date (row_RepFecha r)
  /\ row_detail_normalized r
     = Some (normalize_detail (default [] (row_RepDetalleRechazo r))).
Proof.
  intros Hrun Hnone Hsome.
  destruct (insert_records_added _ _ _ _ _ _ _ _ _ _ Hrun Hnone Hsome)
    as (repaired & j & _ & -> & Hfields & ->).
  rewrite stored_record_new_row by done. split; [done|].
  split; [done|]. split; [done|]. simpl.
  destruct (Hfields RepFecha) as [fecha Hfecha],
    (Hfields RepDetalleRechazo) as [detail Hdetail].
  simpl in Hfecha, Hdetail. by rewrite Hfecha, Hdetail.
Qed.

(** X19: the rows that a call adds are stamped with [now] plus their rank
    among the kept records, so every stamp lies in [now, now + n) for a batch
    of [n] records and no two added rows have the same stamp. *)
Theorem insert_records_stamps (records : list record) (source : str)
    (now : Z) (s s1 : db) (a d i : nat) (k : str) (r : row) :
  insert_records records source now s = (Ok (a, d, i), s1) ->
  committed s !! k = None -> committed s1 !! k = Some r ->
  now <= row_created_at r < now + Z.of_nat (length records)
  /\ forall k' r',
       committed s !! k' = None -> committed s1 !! k' = Some r' ->
       row_created_at r' = row_created_at r -> k' = k.
Proof.
  intros Hrun Hnone Hsome.
  destruct (insert_records_Ok _ _ _ _ _ _ _ _ Hrun)
    as (prepared & Hprep & Hnodup & _ & _ & Hstore).
  assert (Hnew : forall k r,
             committed s !! k = None -> committed s1 !! k = Some r ->
             exists repaired dn j,
               prepared !! j = Some (repaired, k, dn)
               /\ row_created_at r = now + Z.of_nat j).
  { clear k r Hnone Hsome. intros k r Hnone Hsome. rewrite Hstore in Hsome.
    destruct (decide (k ∈ keys_of prepared)) as [Hin|Hout].
    2: { rewrite merged_other in Hsome by done. congruence. }
    destruct (merged_new _ _ _ _ _ Hnodup Hnone Hin)
      as (repaired & dn & j & Hj & Hrow).
    rewrite Hrow in Hsome. injection Hsome as <-. by exists repaired, dn, j. }
  destruct (Hnew k r Hnone Hsome) as (repaired & dn & j & Hj & Hat).
  split.
  - apply lookup_lt_Some in Hj. apply prepare_length in Hprep. lia.
  - intros k' r' Hnone' Hsome' Hsame.
    destruct (Hnew k' r' Hnone' Hsome') as (repaired' & dn' & j' & Hj' & Hat').
    assert (j' = j) as -> by lia. congruence.
Qed.

(** X20: without storage faults, a call whose first loop raises nothing
    returns when no two kept records share a key that is not stored yet;
    otherwise the second INSERT of such a key raises [IntegrityError] and the
    table is left as it was. *)
Theorem insert_records_repeated_key (records : list record) (source : str)
    (now : Z) (s : db) (prepared : list (record * str * str))
    (ignored : nat) :
  faults s = [] ->
  prepare records = Ok (prepared, ignored) ->
  (NoDup (filter (fun k => committed s !! k = None) (keys_of prepared)) ->
   exists a d s1,
     insert_records records source now s = (Ok (a, d, ignored), s1))
  /\ (~ NoDup (filter (fun k => committed s !! k = None) (keys_of prepared)) ->
      exists s1,
        insert_records records source now s = (Raise IntegrityError, s1)
        /\ committed s1 = committed s).
Proof.
  intros Hfaults Hprep. split.
  { intros Hnodup. by eapply insert_records_returns. }
  intros Hdup. destruct s as [c t fs]. simpl in *. subst fs.
  destruct (insert_records records source now (mkDb c t []))
    as [[[[a d] i]|e] s1] eqn:Hrun.
  - exfalso. apply Hdup.
    destruct (insert_records_Ok _ _ _ _ _ _ _ _ Hrun)
      as (prepared' & Hprep' & Hnodup & _).
    rewrite Hprep in Hprep'. injection Hprep' as <- <-. simpl in Hnodup.
    rewrite (collected_fst_new _ c) in Hnodup; [done|].
    intros k Hk. rewrite existing_of_lookup, decide_True by done.
    by destruct (c !! k).
  - exists s1. rewrite (insert_records_clear_Raise _ _ _ _ _ _ _ _ _ Hprep Hrun).
    split; [done|]. by apply atomic_insert_records in Hrun.
Qed.

End Added.

Lemma insert_records_grows_witness :
  exists s1,
    insert_records (H:=Latin1.unicodedata) [acme; beta] file_B 2000
      (mkDb table_A None [])
    = (Ok (1, 1, 0)%nat, s1)
    /\ size (committed s1) = (size table_A + 1)%nat.
Proof.
  exists (insert_records (H:=Latin1.unicodedata) [acme; beta] file_B 2000
            (mkDb table_A None [])).2.
  assert (Hrun : insert_records (H:=Latin1.unicodedata) [acme; beta] file_B
                   2000 (mkDb table_A None [])
                 = (Ok (1, 1, 0)%nat,
                    (insert_records (H:=Latin1.unicodedata) [acme; beta]
                       file_B 2000 (mkDb table_A None [])).2))
    by evaluate.
  split; [exact Hrun|].
  exact (proj1 (insert_records_grows _ _ _ _ _ _ _ _ Hrun)).
Defined.

Lemma insert_records_new_row_witness :
  exists s1 r,
    insert_records (H:=Latin1.unicodedata) [acme] file_A 1000 empty_db
    = (Ok (1, 0, 0)%nat, s1)
    /\ committed s1 !! acme_key = Some r
    /\ acme_key = build_key (stored_record r)
    /\ row_sources r = Some [file_A].
Proof.
  exists (insert_records (H:=Latin1.unicodedata) [acme] file_A 1000
            empty_db).2.
  exists (new_row acme (lit "ruc inactivo") file_A 1000).
  assert (Hrun : insert_records (H:=Latin1.unicodedata) [acme] file_A 1000
                   empty_db
                 = (Ok (1, 0, 0)%nat,
                    (insert_records (H:=Latin1.unicodedata) [acme] file_A
                       1000 empty_db).2))
    by evaluate.
  assert (Hrow : committed
                   (insert_records (H:=Latin1.unicodedata) [acme] file_A 1000
                      empty_db).2 !! acme_key
                 = Some (new_row acme (lit "ruc inactivo") file_A 1000))
    by evaluate.
  split; [exact Hrun|]. split; [exact Hrow|].
  destruct (insert_records_new_row _ _ _ _ _ _ _ _ _ _ Hrun eq_refl Hrow)
    as (Hkey & _ & Hsources & _).
  split; [exact Hkey | exact Hsources].
Defined.

Lemma insert_records_stamps_witness :
  exists s1 r,
    insert_records (H:=Latin1.unicodedata) [acme; beta] file_A 1000 empty_db
    = (Ok (2, 0, 0)%nat, s1)
    /\ committed s1 !! build_key beta = Some r
    /\ 1000 <= row_created_at r < 1000 + 2.
Proof.
  exists (insert_records (H:=Latin1.unicodedata) [acme; beta] file_A 1000
            empty_db).2.
  exists (new_row beta (lit "sin actividad") file_A 1001).
  assert (Hrun : insert_records (H:=Latin1.unicodedata) [acme; beta] file_A
                   1000 empty_db
                 = (Ok (2, 0, 0)%nat,
                    (insert_records (H:=Latin1.unicodedata) [acme; beta]
                       file_A 1000 empty_db).2))
    by evaluate.
  assert (Hrow : committed
                   (insert_records (H:=Latin1.unicodedata) [acme; beta]
                      file_A 1000 empty_db).2 !! build_key beta
                 = Some (new_row beta (lit "sin actividad") file_A 1001))
    by evaluate.
  split; [exact Hrun|]. split; [exact Hrow|].
  exact (proj1 (insert_records_stamps _ _ _ _ _ _ _ _ _ _ Hrun eq_refl Hrow)).
Defined.

Lemma insert_records_repeated_key_witness :
  exists s1,
    insert_records (H:=Latin1.unicodedata) [acme; acme] file_B 2000
      (mkDb ∅ None [])
    = (Raise IntegrityError, s1)
    /\ committed s1 = ∅.
Proof.
  assert (Hprep : prepare (H:=Latin1.unicodedata) [acme; acme]
                  = Ok ([(acme, acme_key, lit "ruc inactivo");
                         (acme, acme_key, lit "ruc inactivo")], 0%nat))
    by evaluate.
  destruct (insert_records_repeated_key (H:=Latin1.unicodedata)
              [acme; acme] file_B 2000 (mkDb ∅ None []) _ _ eq_refl Hprep)
    as [_ Hraise].
  apply Hraise. simpl. rewrite !filter_cons, filter_nil.
  rewrite !decide_True by apply lookup_empty.
  intros Hnodup. apply NoDup_cons in Hnodup as [Hnotin _].
  apply Hnotin, elem_of_cons. by left.
Defined.

(** ** Uploads *)

Section Uploads.
Context `{Unicodedata}.

Lemma insert_records_sum (records : list record) (source : str) (now : Z)
    (s s1 : db) (a d i : nat) :
  insert_records records source now s = (Ok (a, d, i), s1) ->
  (a + d + i = length records)%nat.
Proof.
  intros (prepared & Hprep & _ & -> & -> & _)%insert_records_Ok.
  apply prepare_length in Hprep.
  pose proof (collected_known_length
                (existing_of (committed s) prepared) source now 0 prepared).
  lia.
Qed.

Lemma upload_files_Ok (time : nat -> Z) (index : nat)
    (files : list file_storage) (summaries : list (str * counts))
    (totals : counts) (s : db) (summaries' : list (str * counts))
    (totals' : counts) (s1 : db) :
  upload_files time index files summaries totals s
  = (Ok (summaries', totals'), s1) ->
  exists new,
    summaries' = summaries ++ new
    /\ new.*1 = map filename_or_default files
    /\ totals' = foldl add_counts totals new.*2
    /\ Forall balanced new.*2
    /\ Forall2 (fun file c =>
                  exists records,
                    parse_rpt (decode_upload (upload_bytes file)) = Ok records
                    /\ n_total c = length records)
               files new.*2.
Proof.
  revert index summaries totals s.
  induction files as [|f rest IH]; intros index summaries totals s.
  - intros [= <- <- <-]. exists []. rewrite app_nil_r.
    repeat split; constructor.
  - cbn [upload_files].
    destruct (parse_rpt _) as [records|e] eqn:Hparse; [|done].
    intros ([[a d] i] & s0 & Hins & Hrest)%bind_Ok.
    apply IH in Hrest as (new & -> & Hnames & -> & Hbal & Hparsed).
    exists ((filename_or_default f, mkCounts (length records) a d i) :: new).
    rewrite <- app_assoc. split; [done|]. rewrite !fmap_cons. simpl.
    split; [by rewrite Hnames|]. split; [done|]. split.
    + constructor; [|done]. unfold balanced. simpl.
      apply insert_records_sum in Hins. lia.
    + constructor; [|done]. by exists records.
Qed.

Lemma upload_files_Raise (time : nat -> Z) (index : nat)
    (files : list file_storage) (summaries : list (str * counts))
    (totals : counts) (s : db) (e : exc) (s1 : db) :
  upload_files time index files summaries totals s = (Raise e, s1) ->
  exists finished file rest out s0,
    files = finished ++ file :: rest
    /\ upload_files time index finished summaries totals s = (Ok out, s0)
    /\ committed s1 = committed s0.
Proof.
  revert index summaries totals s.
  induction files as [|f rest IH]; intros index summaries totals s; [done|].
  cbn [upload_files].
  destruct (parse_rpt _) as [records|e'] eqn:Hparse.
  - intros [Hins|([[a d] i] & s0 & Hins & Hrest)]%bind_Raise.
    + exists [], f, rest, (summaries, totals), s. split; [done|].
      split; [done|]. by eapply atomic_insert_records.
    + apply IH in Hrest
        as (finished & file & rest' & out & s2 & -> & Hrun & Hsame).
      exists (f :: finished), file, rest', out, s2. split; [done|].
      split; [|done]. cbn [upload_files]. rewrite Hparse.
      by rewrite (bind_run _ _ _ _ _ Hins).
  - intros [= <- <-]. by exists [], f, rest, (summaries, totals), s.
Qed.

(** X21: an upload that is answered gives one summary per file, in the order
    of the files, under the name of the file or [archivo.rpt]; the total of a
    summary is the number of records parsed from the file and is the sum of
    its added, duplicate and ignored counts; the totals are the sums of the
    summaries. *)
Theorem api_upload_summaries (time : nat -> Z) (files : list file_storage)
    (s s1 : db) (summaries : list (str * counts)) (totals : counts) :
  api_upload time files s = (Ok (Json (summaries, totals)), s1) ->
  summaries.*1 = map filename_or_default files
  /\ Forall2 (fun file c =>
                exists records,
                  parse_rpt (decode_upload (upload_bytes file)) = Ok records
                  /\ n_total c = length records)
             files summaries.*2
  /\ Forall balanced summaries.*2
  /\ totals = foldl add_counts (mkCounts 0 0 0 0) summaries.*2.
Proof.
  unfold api_upload. destruct files as [|f rest]; [done|].
  intros ([sm tot] & s0 & Hrun & [= <- <- <-])%bind_Ok.
  apply upload_files_Ok in Hrun as (new & -> & Hnames & -> & Hbal & Hparsed).
  by simpl.
Qed.

(** X22: an upload that raises leaves the table as the upload of the files
    before the failing one leaves it: these files stay ingested, and the
    failing file and the files after it change nothing. *)
Theorem api_upload_partial (time : nat -> Z) (files : list file_storage)
    (s : db) (e : exc) (s1 : db) :
  api_upload time files s = (Raise e, s1) ->
  exists finished file rest,
    files = finished ++ file :: rest
    /\ match finished with
       | [] => committed s1 = committed s
       | _ :: _ =>
           exists out s0,
             api_upload time finished s = (Ok (Json out), s0)
             /\ committed s1 = committed s0
       end.
Proof.
  unfold api_upload at 1. destruct files as [|f files]; [done|].
  intros [Hrun|(out & s0 & _ & [=])]%bind_Raise.
  apply upload_files_Raise in Hrun
    as (finished & file & rest & out & s0 & Hfiles & Hrun & Hsame).
  exists finished, file, rest. split; [done|].
  destruct finished as [|f' finished].
  - by injection Hrun as _ <-.
  - exists out, s0. split; [|done]. unfold api_upload.
    by rewrite (bind_run _ _ _ _ _ Hrun).
Qed.

(** ** The seed file *)

Lemma has_rows_run (s : db) (r : result bool) (s1 : db) :
  txn s = None ->
  try_finally (io ;;; fun s => (Ok (negb (size (view s) =? 0)%nat), s)) close s
  = (r, s1) ->
  committed s1 = committed s
  /\ txn s1 = None
  /\ (faults s = [] -> faults s1 = [])
  /\ forall b, r = Ok b -> b = negb (size (committed s) =? 0)%nat.
Proof.
  destruct s as [c t fs]. simpl. intros ->.
  unfold try_finally, bind, io, close, view.
  destruct fs as [|[] fs]; simpl; intros [= <- <-]; simpl;
    repeat split; try done; by intros b [= <-].
Qed.

Lemma get_connection_run (s : db) (r : result unit) (s1 : db) :
  get_connection s = (r, s1) ->
  committed s1 = committed s
  /\ (faults s = [] -> faults s1 = [])
  /\ (r = Ok tt -> txn s1 = None).
Proof.
  destruct s as [c t fs]. unfold get_connection, bind, io.
  destruct fs as [|[] fs]; simpl; intros [= <- <-]; by simpl.
Qed.

(** X23: at start-up the seed file is not ingested when the table holds a
    row, when the file is missing or when it cannot be read: the table stays
    as it is, whatever storage operations fail. *)
Theorem maybe_load_initial_data_keeps (result_rpt : option (option str))
    (now : Z) (s s1 : db) (r : result unit) :
  committed s <> ∅ \/ result_rpt = None \/ result_rpt = Some None ->
  maybe_load_initial_data result_rpt now s = (r, s1) ->
  committed s1 = committed s.
Proof.
  intros Hcase. unfold maybe_load_initial_data.
  destruct result_rpt as [file|]; [|by intros [= _ <-]].
  unfold bind at 1.
  destruct (get_connection s) as [[[]|e] s0] eqn:Hconn.
  2: { intros [= _ <-]. by apply get_connection_run in Hconn as [? _]. }
  apply get_connection_run in Hconn as (Hc0 & _ & Htxn).
  specialize (Htxn eq_refl). unfold bind at 1.
  destruct (try_finally _ close s0) as [[has_rows|e] s2] eqn:Hprobe.
  2: { intros [= _ <-].
       apply has_rows_run in Hprobe as [? _]; [congruence | done]. }
  apply has_rows_run in Hprobe as (Hc2 & _ & _ & Hrows); [|done].
  specialize (Hrows _ eq_refl).
  destruct has_rows; [intros [= _ <-]; congruence|].
  destruct file as [content|]; [|intros [= _ <-]; congruence].
  exfalso. destruct Hcase as [Hrowsin|[[=]|[=]]]. apply Hrowsin.
  apply map_size_empty_iff. rewrite <- Hc0.
  symmetry in Hrows. apply negb_false_iff in Hrows.
  by apply Nat.eqb_eq in Hrows.
Qed.

Lemma insert_records_txn (records : list record) (source : str) (now : Z)
    (c : gmap str row) (t : option (gmap str row)) :
  committed (insert_records records source now (mkDb c t [])).2
  = committed (insert_records records source now (mkDb c None [])).2.
Proof.
  unfold insert_records. destruct records as [|r rest]; [done|].
  destruct (prepare (r :: rest)) as [[prepared ignored]|e]; [|done].
  destruct prepared as [|p prepared]; [done|].
  by rewrite !(bind_run _ _ _ _ _ (get_connection_clear _ _)).
Qed.

(** X24: at start-up, without storage faults, a readable seed file met with
    an empty table is ingested under the label [result.rpt]: the table is
    the one that [insert_records] leaves for the records parsed from the
    file. *)
Theorem maybe_load_initial_data_seeds (content : str) (records : list record)
    (now : Z) (s : db) :
  faults s = [] -> committed s = ∅ ->
  parse_rpt content = Ok records ->
  committed (maybe_load_initial_data (Some (Some content)) now s).2
  = committed (insert_records records (lit "result.rpt") now s).2.
Proof.
  destruct s as [c t fs]. simpl. intros -> -> Hparse.
  rewrite insert_records_txn. unfold maybe_load_initial_data.
  rewrite (bind_run _ _ _ _ _ (get_connection_clear _ _)).
  erewrite bind_run by reflexivity. cbv beta. rewrite Hparse.
  change (size (view (mkDb ∅ None []))) with (size (∅ : gmap str row)).
  rewrite map_size_empty. simpl.
  destruct records as [|r rest]; [done|].
  unfold bind at 1.
  by destruct (insert_records (r :: rest) (lit "result.rpt") now
                 (mkDb ∅ None [])) as [[x|e] s1].
Qed.

End Uploads.

Lemma api_upload_summaries_witness :
  exists s1 c,
    api_upload (H:=Latin1.unicodedata) (fun _ => 1000) [upload_A; upload_A]
      empty_db
    = (Ok (Json ([(lit "a.rpt", mkCounts 1 1 0 0); (lit "a.rpt", c)],
                 mkCounts 2 1 1 0)), s1)
    /\ balanced c.
Proof.
  exists (api_upload (H:=Latin1.unicodedata) (fun _ => 1000)
            [upload_A; upload_A] empty_db).2.
  exists (mkCounts 1 0 1 0).
  assert (Hrun : api_upload (H:=Latin1.unicodedata) (fun _ => 1000)
                   [upload_A; upload_A] empty_db
                 = (Ok (Json ([(lit "a.rpt", mkCounts 1 1 0 0);
                               (lit "a.rpt", mkCounts 1 0 1 0)],
                              mkCounts 2 1 1 0)),
                    (api_upload (H:=Latin1.unicodedata) (fun _ => 1000)
                       [upload_A; upload_A] empty_db).2))
    by evaluate.
  split; [exact Hrun|].
  destruct (api_upload_summaries _ _ _ _ _ _ Hrun) as (_ & _ & Hbal & _).
  apply Forall_cons in Hbal as [_ Hbal].
  by apply Forall_cons in Hbal as [Hbal _].
Defined.

Lemma api_upload_partial_witness :
  exists s1 finished file rest,
    api_upload (H:=Latin1.unicodedata) (fun _ => 1000) [upload_A; upload_A]
      (mkDb ∅ None [false; false; false; false; true])
    = (Raise OperationalError, s1)
    /\ [upload_A; upload_A] = finished ++ file :: rest
    /\ match finished with
       | [] => committed s1 = ∅
       | _ :: _ =>
           exists out s0,
             api_upload (H:=Latin1.unicodedata) (fun _ => 1000) finished
               (mkDb ∅ None [false; false; false; false; true])
             = (Ok (Json out), s0)
             /\ committed s1 = committed s0
       end.
Proof.
  exists (api_upload (H:=Latin1.unicodedata) (fun _ => 1000)
            [upload_A; upload_A]
            (mkDb ∅ None [false; false; false; false; true])).2.
  assert (Hrun : api_upload (H:=Latin1.unicodedata) (fun _ => 1000)
                   [upload_A; upload_A]
                   (mkDb ∅ None [false; false; false; false; true])
                 = (Raise OperationalError,
                    (api_upload (H:=Latin1.unicodedata) (fun _ => 1000)
                       [upload_A; upload_A]
                       (mkDb ∅ None [false; false; false; false; true])).2))
    by evaluate.
  destruct (api_upload_partial _ _ _ _ _ Hrun)
    as (finished & file & rest & Hfiles & Htable).
  exists finished, file, rest. split; [exact Hrun|]. split; [exact Hfiles|].
  exact Htable.
Defined.

Lemma maybe_load_initial_data_keeps_witness :
  exists s1,
    maybe_load_initial_data (H:=Latin1.unicodedata) (Some (Some report)) 2000
      (mkDb table_A_resolved None [])
    = (Ok tt, s1)
    /\ committed s1 = table_A_resolved.
Proof.
  exists (maybe_load_initial_data (H:=Latin1.unicodedata)
            (Some (Some report)) 2000 (mkDb table_A_resolved None [])).2.
  assert (Hrun : maybe_load_initial_data (H:=Latin1.unicodedata)
                   (Some (Some report)) 2000
                   (mkDb table_A_resolved None [])
                 = (Ok tt,
                    (maybe_load_initial_data (H:=Latin1.unicodedata)
                       (Some (Some report)) 2000
                       (mkDb table_A_resolved None [])).2))
    by evaluate.
  split; [exact Hrun|].
  apply (fun Hrows =>
           maybe_load_initial_data_keeps _ _ _ _ _ (or_introl Hrows) Hrun).
  simpl. intros Hempty.
  assert (Hsize : size table_A_resolved = 1%nat) by evaluate.
  rewrite Hempty, map_size_empty in Hsize. discriminate Hsize.
Defined.

Lemma maybe_load_initial_data_seeds_witness :
  parse_rpt report = Ok [acme]
  /\ committed (maybe_load_initial_data (H:=Latin1.unicodedata)
                  (Some (Some report)) 1000 empty_db).2
     = committed (insert_records (H:=Latin1.unicodedata) [acme]
                    (lit "result.rpt") 1000 empty_db).2.
Proof.
  assert (Hparse : parse_rpt report = Ok [acme]) by evaluate.
  split; [exact Hparse|].
  exact (maybe_load_initial_data_seeds report [acme] 1000 empty_db
           eq_refl eq_refl Hparse).
Defined.

(** ** NUL characters and line ends *)

Lemma parse_lines_head (l l' : str) (rest rest' : list str) :
  remove_nul l = remove_nul l' ->
  (forall positions, parse_lines rest positions = parse_lines rest' positions) ->
  forall positions,
    parse_lines (l :: rest) positions = parse_lines (l' :: rest') positions.
Proof.
  intros Hline Hrest positions. cbn [parse_lines]. rewrite Hline.
  destruct (strip (remove_nul l')) as [|c trimmed]; [apply Hrest|].
  destruct (startswith _ _); [apply Hrest|].
  destruct (startswith _ _); [apply Hrest|].
  by rewrite Hrest.
Qed.

Lemma remove_nul_remove_nul (line : str) :
  remove_nul (remove_nul line) = remove_nul line.
Proof.
  unfold remove_nul. induction line as [|c line IH]; [done|]. simpl.
  destruct (c =? 0)%N eqn:Hc; simpl; [done|]. by rewrite Hc, IH.
Qed.

Lemma remove_nul_app (s t : str) :
  remove_nul (s ++ t) = remove_nul s ++ remove_nul t.
Proof. apply List.filter_app. Qed.

(** A carriage return and a line feed end one line, or one line and an
    empty one: the records are the same. *)
Lemma splitlines_from_break (c : N) (t line : str) :
  is_linebreak c = true ->
  forall positions,
    parse_lines (splitlines_from line (c :: t)) positions
    = parse_lines (line :: splitlines_from [] t) positions.
Proof.
  intros Hbreak. cbn [splitlines_from]. rewrite Hbreak.
  apply parse_lines_head; [done|]. intros positions.
  destruct t as [|c' t']; [done|].
  destruct ((c =? 13) && (c' =? 10))%N eqn:Hcrlf; [|done].
  apply andb_true_iff in Hcrlf as [_ ->%N.eqb_eq].
  cbn [splitlines_from]. change (is_linebreak 10) with true. cbv iota.
  cbn [parse_lines]. change (strip (remove_nul [])) with (@nil N). cbv iota.
  by destruct t'.
Qed.

Lemma parse_lines_remove_nul (s line : str) (positions : option (list Z)) :
  parse_lines (splitlines_from line s) positions
  = parse_lines (splitlines_from (remove_nul line) (remove_nul s)) positions.
Proof.
  revert line positions. induction s as [|c t IH]; intros line positions.
  - change (remove_nul []) with (@nil N). cbn [splitlines_from].
    destruct (remove_nul line) as [|c rest] eqn:Hline.
    + destruct line as [|c line]; [done|]. cbn [parse_lines].
      rewrite Hline. done.
    + destruct line as [|c' line]; [done|].
      apply parse_lines_head; [|done].
      by rewrite <- Hline, remove_nul_remove_nul.
  - destruct (c =? 0)%N eqn:Hc.
    + apply N.eqb_eq in Hc as ->.
      change (remove_nul (0%N :: t)) with (remove_nul t).
      cbn [splitlines_from]. change (is_linebreak 0) with false. cbv iota.
      rewrite IH, remove_nul_app. change (remove_nul [0%N]) with (@nil N).
      by rewrite app_nil_r.
    + assert (Hcons : remove_nul (c :: t) = c :: remove_nul t).
      { unfold remove_nul. simpl. by rewrite Hc. }
      rewrite Hcons. destruct (is_linebreak c) eqn:Hbreak.
      * rewrite !splitlines_from_break by done.
        apply parse_lines_head; [by rewrite remove_nul_remove_nul|].
        intros positions'. apply (IH []).
      * cbn [splitlines_from]. rewrite Hbreak, IH, remove_nul_app.
        assert (Hone : remove_nul [c] = [c]).
        { unfold remove_nul. simpl. by rewrite Hc. }
        by rewrite Hone.
Qed.

(** X25: NUL characters do not count: a report and the same report without
    its NUL characters give the same records, or raise the same exception. *)
Theorem parse_rpt_ignores_nul (content : str) :
  parse_rpt (remove_nul content) = parse_rpt content.
Proof.
  unfold parse_rpt, splitlines. destruct content as [|c t]; [done|].
  rewrite (parse_lines_remove_nul (c :: t) []).
  change (remove_nul []) with (@nil N).
  by destruct (remove_nul (c :: t)).
Qed.

(** ** Reading every page *)

Lemma map_result_Ok {A B} (f : A -> result B) (l : list A) (l' : list B) :
  Forall2 (fun x y => f x = Ok y) l l' -> map_result f l = Ok l'.
Proof.
  induction 1 as [|x y l l' Hx _ IH]; [done|]. simpl.
  by rewrite Hx, IH.
Qed.

Lemma map_result_take_drop {A B} (f : A -> result B) (l : list A)
    (l' : list B) (k j : nat) :
  map_result f l = Ok l' ->
  map_result f (take k (drop j l)) = Ok (take k (drop j l')).
Proof.
  intros Hall%map_result_Forall2. apply map_result_Ok.
  by apply Forall2_take, Forall2_drop.
Qed.

Lemma ceil_div_zero (k : Z) : 0 < k -> ceil_div 0 k = 0.
Proof. intros Hk. unfold ceil_div. apply Z.div_small. lia. Qed.

(** X26: when every row of the result can be served, the pages 1 to the
    number of pages, asked for in turn with the same page size, are all
    served, each under its own number, and their rows put end to end are
    the rows of the result, each one once and in order. *)
Theorem api_rows_pages_cover (ps : Z) (matching : list (str * row))
    (served_rows : list payload_row) :
  1 <= ps <= 200 ->
  map_result serialize_row matching = Ok served_rows ->
  exists pages,
    Forall2 (fun i p =>
               api_rows (Int (Z.of_nat i)) (Int ps) matching = Ok p
               /\ page p = Z.of_nat i)
            (seq 1 (Z.to_nat
                      (Z.max 1 (ceil_div (Z.of_nat (length matching)) ps))))
            pages
    /\ concat (map rows pages) = served_rows.
Proof.
  intros Hps Hall.
  set (n := Z.of_nat (length matching)).
  set (pages := Z.max 1 (ceil_div n ps)).
  assert (Hpages : (if n =? 0 then 1 else Z.max 1 (ceil_div n ps)) = pages).
  { unfold pages. destruct (n =? 0) eqn:Hz; [|done].
    apply Z.eqb_eq in Hz. rewrite Hz, ceil_div_zero; lia. }
  assert (Hcover : (length served_rows
                    <= Z.to_nat pages * Z.to_nat ps)%nat).
  { rewrite <- (Forall2_length _ _ _ (map_result_Forall2 _ _ _ Hall)).
    destruct (decide (n = 0)) as [Hz|Hz]; [unfold n in Hz; lia|].
    pose proof (ceil_div_bounds n ps ltac:(lia) ltac:(lia)).
    unfold pages. unfold n in *. nia. }
  exists (map (fun j => mkPayload
                          (take (Z.to_nat ps)
                             (drop (j * Z.to_nat ps) served_rows))
                          n (Z.of_nat (S j)) ps pages)
              (seq 0 (Z.to_nat pages))).
  split.
  - rewrite <- fmap_S_seq. apply Forall2_fmap, Forall_Forall2_diag.
    apply Forall_forall. intros j Hj%elem_of_seq. split; [|done].
    unfold api_rows. cbv zeta. cbn [int_param]. fold n.
    replace (Z.max 1 (Z.min ps 200)) with ps by lia. rewrite Hpages.
    replace (Z.max 1 (Z.of_nat (S j))) with (Z.of_nat (S j)) by lia.
    assert (Hgt : (Z.of_nat (S j) >? pages) = false)
      by (rewrite Z.gtb_ltb; apply Z.ltb_ge; lia).
    rewrite Hgt.
    replace (Z.to_nat ((Z.of_nat (S j) - 1) * ps))
      with (j * Z.to_nat ps)%nat by nia.
    by rewrite (map_result_take_drop _ _ _ _ _ Hall).
  - rewrite map_map. cbn [rows].
    rewrite <- (map_map (fun j => (j * Z.to_nat ps)%nat)
                  (fun index => take (Z.to_nat ps) (drop index served_rows))).
    rewrite concat_chunks_take. by apply take_ge.
Qed.

Lemma api_rows_pages_cover_witness :
  exists pages,
    Forall2 (fun i p =>
               api_rows (Int (Z.of_nat i)) (Int 20) rows45 = Ok p
               /\ page p = Z.of_nat i)
            [1; 2; 3]%nat pages
    /\ concat (map rows pages) = served45.
Proof.
  assert (Hall : map_result serialize_row rows45 = Ok served45) by evaluate.
  exact (api_rows_pages_cover 20 rows45 served45 ltac:(lia) Hall).
Defined.

(** ** The text of an upload *)

(** X27: bytes that are the UTF-8 encoding of a text are decoded to that
    text when they are uploaded. *)
Theorem decode_upload_utf8 (raw_bytes : list byte) (s : str) :
  Forall (fun c => scalar c = true) s ->
  map Byte.to_N raw_bytes = mojibake s ->
  decode_upload raw_bytes = s.
Proof.
  intros Hscalar Hbytes. unfold decode_upload, decode_utf8.
  by rewrite Hbytes, decode_mojibake.
Qed.

Lemma decode_upload_utf8_witness :
  decode_upload [Byte.x41; Byte.xc3; Byte.xa9; Byte.xe2; Byte.x82; Byte.xac]
  = [0x41; 0xE9; 0x20AC]%N.
Proof.
  apply decode_upload_utf8; [by repeat constructor | reflexivity].
Defined.
